(** * Value targets of torchrl: the categorical projection of
      [DistributionalDQNLoss.forward] (torchrl/objectives/dqn.py) and the
      estimator facades of torchrl/objectives/value/advantages.py.

    Numbers.  A finite float is a rational ([Q]); the three IEEE specials
    (+inf, -inf, nan) are the other constructors of [fval].  In the
    projection every float32 operation that leads to an index (the shifted
    support [Tz], the position [b] and the Python float [delta_z]) is rounded
    as IEEE 754 rounds it: to nearest, ties to even, with gradual underflow
    and overflow to infinity; signed zeros are not told apart.  The masses
    the two [index_add_] calls accumulate, and the arithmetic of the
    estimators, are exact rationals.

    Tensors.  A tensor of shape [N, Z] is a list of N rows of length Z;
    [.view(-1)] is the concatenation of the rows.  Element-wise torch
    operations are written cell by cell. *)

From Stdlib Require Import ZArith QArith Qround Qminmax Qabs Qpower Lqa Lia.
From stdpp Require Import gmap strings list fin_maps.

Open Scope Q_scope.

(** ** Errors raised by the modelled code *)

Inductive error : Type :=
  | ShapeError          (* RuntimeError: shapes disagree *)
  | NonFiniteError      (* RuntimeError "Tz has some non-finite elements" *)
  | IndexError          (* index out of range *)
  | ZeroDivision        (* Python ZeroDivisionError *)
  | EmptyReduction      (* min()/max() of an empty tensor *)
  | BatchDimsError      (* "Expected input tensordict to have at least one dimensions" *)
  | MissingParams       (* "Expected params to be passed to advantage module but got none." *)
  | NotFunctional       (* "Cannot determine if value network is functional." *)
  | NoNetwork           (* the value network is None where it is called *)
  | KeyError (k : list string)
  | TypeError           (* an entry of another dtype than the one read *)
  | NetworkError.

Inductive result (A : Type) : Type :=
  | Ok (a : A)
  | Raise (e : error).
Arguments Ok {A} a.
Arguments Raise {A} e.

#[global] Instance result_ret : MRet result := fun _ a => Ok a.
#[global] Instance result_bind : MBind result := fun _ _ f r =>
  match r with
  | Ok a => f a
  | Raise e => Raise e
  end.

Definition is_Ok {A} (r : result A) : Prop := exists a, r = Ok a.

(** ** Float values with the IEEE specials *)

Inductive fval : Type :=
  | Fin (q : Q)
  | PInf
  | NInf
  | NaN.

Definition isfinite (x : fval) : bool :=
  match x with Fin _ => true | _ => false end.

Definition fneg (x : fval) : fval :=
  match x with
  | Fin q => Fin (- q)
  | PInf => NInf
  | NInf => PInf
  | NaN => NaN
  end.

(** *** Rounding to a binary format

    [prec] is the number of significand bits, [emin] the exponent of the
    smallest subnormal and [emax] the largest exponent. *)
Record format : Type := { prec : Z; emin : Z; emax : Z }.

Definition binary32 : format := {| prec := 24; emin := -149; emax := 127 |}.
Definition binary64 : format := {| prec := 53; emin := -1074; emax := 1023 |}.

Definition pow2 (e : Z) : Q := 2 ^ e.

(** floor(log2 x) of a positive rational. *)
Definition ilog2 (x : Q) : Z :=
  let e := (Z.log2 (Qnum x) - Z.log2 (Zpos (Qden x)))%Z in
  if Qle_bool (pow2 e) x then e else (e - 1)%Z.

(** The nearest integer, a tie going to the even one. *)
Definition rne (x : Q) : Z :=
  let f := Qfloor x in
  match Qcompare (x - inject_Z f) (1 # 2) with
  | Lt => f
  | Gt => (f + 1)%Z
  | Eq => if Z.even f then f else (f + 1)%Z
  end.

(** The exponent of the last significand bit of the format at [x]. *)
Definition ulp_exponent (f : format) (x : Q) : Z :=
  Z.max (ilog2 (Qabs x) - (prec f - 1)) (emin f).

(** The nearest multiple of the unit in the last place, whatever its
    size. *)
Definition round_fin (f : format) (x : Q) : Q :=
  if Qeq_bool x 0 then 0 else
  let e := ulp_exponent f x in
  Qred (inject_Z (rne (x / pow2 e)) * pow2 e).

Definition max_finite (f : format) : Q :=
  (pow2 (prec f) - 1) * pow2 (emax f - (prec f - 1)).

(** The float a real result is rounded to: past the largest finite number
    of the format it is an infinity. *)
Definition round (f : format) (x : Q) : fval :=
  let y := round_fin f x in
  if Qle_bool (Qabs y) (max_finite f) then Fin y
  else if Qle_bool 0 y then PInf else NInf.

(** *** float32 arithmetic *)

Definition fadd (x y : fval) : fval :=
  match x, y with
  | NaN, _ | _, NaN => NaN
  | Fin a, Fin b => round binary32 (a + b)
  | PInf, NInf | NInf, PInf => NaN
  | PInf, _ | _, PInf => PInf
  | NInf, _ | _, NInf => NInf
  end.

(** Sign of a finite factor, for inf * finite. *)
Definition inf_times (pos : bool) (a : Q) : fval :=
  match a ?= 0 with
  | Eq => NaN
  | Gt => if pos then PInf else NInf
  | Lt => if pos then NInf else PInf
  end.

Definition fmul (x y : fval) : fval :=
  match x, y with
  | NaN, _ | _, NaN => NaN
  | Fin a, Fin b => round binary32 (a * b)
  | PInf, Fin a | Fin a, PInf => inf_times true a
  | NInf, Fin a | Fin a, NInf => inf_times false a
  | PInf, PInf | NInf, NInf => PInf
  | PInf, NInf | NInf, PInf => NInf
  end.

(** A finite number over zero is an infinity of its sign, 0/0 is nan; a
    finite number over an infinity is zero. *)
Definition fdiv (x y : fval) : fval :=
  match x, y with
  | NaN, _ | _, NaN => NaN
  | Fin a, Fin b =>
      if Qeq_bool b 0 then inf_times true a else round binary32 (a / b)
  | Fin _, PInf | Fin _, NInf => Fin 0
  | PInf, Fin b => if Qle_bool 0 b then PInf else NInf
  | NInf, Fin b => if Qle_bool 0 b then NInf else PInf
  | PInf, PInf | PInf, NInf | NInf, PInf | NInf, NInf => NaN
  end.

(** [done.to(reward.dtype)] *)
Definition of_bool (d : bool) : fval := if d then Fin 1 else Fin 0.

(** [x.clamp_(min=lo, max=hi)] with finite bounds, min(max(x, lo), hi):
    nan stays nan, the infinities are moved onto the bounds. *)
Definition clamp (lo hi : Q) (x : fval) : fval :=
  match x with
  | NaN => NaN
  | Fin q => Fin (Qmin (Qmax q lo) hi)
  | PInf => Fin hi
  | NInf => Fin (Qmin lo hi)
  end.

Fixpoint Qsum (l : list Q) : Q :=
  match l with
  | [] => 0
  | x :: l' => x + Qsum l'
  end.

(** [t.min()] and [t.max()] of a 1-d tensor; torch raises on an empty one. *)
Definition tensor_min (l : list Q) : result Q :=
  match l with
  | [] => Raise EmptyReduction
  | x :: l' => Ok (fold_left Qmin l' x)
  end.

Definition tensor_max (l : list Q) : result Q :=
  match l with
  | [] => Raise EmptyReduction
  | x :: l' => Ok (fold_left Qmax l' x)
  end.

(** ** The categorical projection of [DistributionalDQNLoss.forward] *)

Module DistributionalDQNLoss.

(** What the projection reads: [batch_size = tensordict.batch_size[0]], the
    support of the value network, the columns [reward], [done] and
    [discount = gamma ** steps_to_next_obs] of shape [N, 1], and the
    double-Q probabilities [pns_a] of shape [N, atoms]. *)
Record projection_input : Type := {
  batch_size : nat;
  support : list Q;
  reward : list fval;
  done : list bool;
  discount : list fval;
  pns_a : list (list Q)
}.

(** Broadcasting three [N, 1] columns against each other. *)
Fixpoint columns {A B C} (xs : list A) (ys : list B) (zs : list C)
  : result (list (A * B * C)) :=
  match xs, ys, zs with
  | [], [], [] => Ok []
  | x :: xs', y :: ys', z :: zs' =>
      rest ← columns xs' ys' zs'; Ok ((x, y, z) :: rest)
  | _, _, _ => Raise ShapeError
  end.

(** One element of [reward + (1 - done.to(reward.dtype)) * discount * support]. *)
Definition Tz_cell (r : fval) (d : bool) (g : fval) (z : Q) : fval :=
  fadd r (fmul (fmul (fadd (Fin 1) (fneg (of_bool d))) g) (Fin z)).

Definition Tz_rows (support : list Q) (cols : list (fval * bool * fval))
  : list (list fval) :=
  map (fun '(r, d, g) => map (Tz_cell r d g) support) cols.

Definition to_Q (x : fval) : Q :=
  match x with Fin q => q | _ => 0 end.

(** [b], [low] and [up] of one element, after the two masked updates
    [low[(up > 0) & (low == up)] -= 1] and
    [up[(low < (atoms - 1)) & (low == up)] += 1]; the second mask reads the
    [low] the first statement has just written. *)
Record cell : Type := { cell_b : Q; cell_low : Z; cell_up : Z }.

Definition fix_low (low up : Z) : Z :=
  if ((0 <? up) && (low =? up))%Z then (low - 1)%Z else low.

Definition fix_up (atoms : nat) (low up : Z) : Z :=
  if ((low <? Z.of_nat atoms - 1) && (low =? up))%Z then (up + 1)%Z else up.

(** Line 373: [b = (Tz - Vmin) / delta_z].  [Tz] is a float32 tensor; of the
    two Python floats, [Vmin] is an atom of the float32 support and
    [delta_z] is cast to float32. *)
Definition position (Vmin delta_z Tz : Q) : fval :=
  fdiv (fadd (Fin Tz) (fneg (Fin Vmin))) (round binary32 delta_z).

Definition project_cell (atoms : nat) (Vmin delta_z Tz : Q) : cell :=
  let b := to_Q (position Vmin delta_z Tz) in
  let low := Qfloor b in
  let up := Qceiling b in
  let low := fix_low low up in
  let up := fix_up atoms low up in
  {| cell_b := b; cell_low := low; cell_up := up |}.

(** [torch.linspace(0, (batch_size - 1) * atoms, batch_size, dtype=int64)] *)
Definition offset (batch_size atoms : nat) : list Z :=
  map (fun n => Z.of_nat (n * atoms)) (seq 0 batch_size).

(** [(low + offset).view(-1)] and [(up + offset).view(-1)] *)
Definition flat_index (sel : cell -> Z) (offs : list Z) (cells : list (list cell))
  : list Z :=
  concat (zip_with (fun off row => map (fun c => (sel c + off)%Z) row) offs cells).

(** [(pns_a * w).view(-1)] for an element-wise weight [w]. *)
Definition flat_weighted (w : cell -> Q) (pns_a : list (list Q))
    (cells : list (list cell)) : list Q :=
  concat (zip_with (fun ps row => zip_with (fun p c => p * w c) ps row) pns_a cells).

Definition weight_low (c : cell) : Q := inject_Z (cell_up c) - cell_b c.
Definition weight_up (c : cell) : Q := cell_b c - inject_Z (cell_low c).

(** [m[i] += v] on a flat tensor. *)
Fixpoint add_at (m : list Q) (i : nat) (v : Q) : list Q :=
  match m, i with
  | [], _ => []
  | x :: m', O => (x + v) :: m'
  | x :: m', S i' => x :: add_at m' i' v
  end.

(** [m.index_add_(0, index, tensor)]: accumulates, and raises on an index
    outside [0, len(m)). *)
Fixpoint index_add_ (m : list Q) (index : list Z) (tensor : list Q)
  : result (list Q) :=
  match index, tensor with
  | [], [] => Ok m
  | i :: index', v :: tensor' =>
      if ((0 <=? i) && (i <? Z.of_nat (length m)))%Z
      then index_add_ (add_at m (Z.to_nat i) v) index' tensor'
      else Raise IndexError
  | _, _ => Raise ShapeError
  end.

(** [flat.view(batch_size, atoms)] *)
Definition view (batch_size atoms : nat) (flat : list Q) : list (list Q) :=
  map (fun n => take atoms (drop (n * atoms) flat)) (seq 0 batch_size).

Definition has_shape {A} (rows cols_ : nat) (t : list (list A)) : bool :=
  (length t =? rows)%nat && forallb (fun r => (length r =? cols_)%nat) t.

(** Line 361 of dqn.py: [Tz] as it is before the clamp. *)
Definition shifted_support (inp : projection_input) : result (list (list fval)) :=
  cols ← columns (reward inp) (done inp) (discount inp);
  Ok (Tz_rows (support inp) cols).

(** Line 304: [delta_z = (Vmax - Vmin) / (atoms - 1)] on Python floats,
    that is in binary64; the difference and the quotient of float32 numbers
    stay inside its range. *)
Definition python_delta_z (Vmin Vmax : Q) (atoms : nat) : Q :=
  round_fin binary64
    (round_fin binary64 (Vmax - Vmin) / inject_Z (Z.of_nat (atoms - 1))).

(** Lines 299-304 and 361-371 of dqn.py: the clamped Bellman-shifted
    support, with the scalars [Vmin] and [delta_z]. *)
Definition bellman_support (inp : projection_input)
  : result (Q * Q * list (list Q)) :=
  let atoms := length (support inp) in
  Vmin ← tensor_min (support inp);
  Vmax ← tensor_max (support inp);
  delta_z ← (if (atoms - 1 =? 0)%nat then Raise ZeroDivision
             else Ok (python_delta_z Vmin Vmax atoms));
  Tz ← shifted_support inp;
  if negb (has_shape (batch_size inp) atoms Tz) then Raise ShapeError else
  let Tz := map (map (clamp Vmin Vmax)) Tz in
  if negb (forallb (forallb isfinite) Tz) then Raise NonFiniteError else
  Ok (Vmin, delta_z, map (map to_Q) Tz).

(** Lines 373-396 of dqn.py: the projected mass [m].  A [b] that is not
    finite (a zero or overflowing [delta_z], an overflowing [Tz - Vmin]) has
    no int64 value; its cast is no valid index and the first [index_add_]
    fails on it. *)
Definition project (inp : projection_input) : result (list (list Q)) :=
  let N := batch_size inp in
  let atoms := length (support inp) in
  '(Vmin, delta_z, Tz) ← bellman_support inp;
  let cells := map (map (project_cell atoms Vmin delta_z)) Tz in
  if negb (has_shape N atoms (pns_a inp)) then Raise ShapeError else
  if negb (forallb (forallb (fun tz => isfinite (position Vmin delta_z tz))) Tz)
  then Raise IndexError else
  let m := replicate (N * atoms) 0 in
  let offs := offset N atoms in
  m ← index_add_ m (flat_index cell_low offs cells)
                   (flat_weighted weight_low (pns_a inp) cells);
  m ← index_add_ m (flat_index cell_up offs cells)
                   (flat_weighted weight_up (pns_a inp) cells);
  Ok (view N atoms m).

(** The example of the specification: support [-10,-5,0,5,10], no reward,
    not done, discount 0.9, uniform next-state distribution. *)
Definition example_input : projection_input :=
  {| batch_size := 1;
     support := [-10 # 1; -5 # 1; 0; 5 # 1; 10 # 1];
     reward := [Fin 0];
     done := [false];
     discount := [Fin (9 # 10)];
     pns_a := [[1 # 5; 1 # 5; 1 # 5; 1 # 5; 1 # 5]] |}.

(** *** Lines 329-350 of dqn.py: the double-Q next-state probabilities

    [TensorDict], [step_mdp] and the value network are external; the
    network is called as [self.value_network(next_td, params=...)] and leaves
    its outputs in the tensordict it is given.  [td.set] rebinds an entry, so
    the action read after the first call is not touched by the second. *)

Inductive action_space_t : Type :=
  | categorical
  | one_hot.

(** Python indexing of dimension [len] by [i]: negative indices wrap. *)
Definition py_index {A} (l : list A) (i : Z) : result A :=
  let len := Z.of_nat (length l) in
  let j := (if i <? 0 then i + len else i)%Z in
  if ((0 <=? j) && (j <? len))%Z then
    match l !! Z.to_nat j with
    | Some a => Ok a
    | None => Raise IndexError
    end
  else Raise IndexError.

(** [row.argmax(-1)]: the position of the first maximal entry. *)
Fixpoint argmax_from (best : Z) (best_i cur_i : nat) (row : list Z) : nat :=
  match row with
  | [] => best_i
  | x :: row' =>
      if (best <? x)%Z then argmax_from x cur_i (S cur_i) row'
      else argmax_from best best_i (S cur_i) row'
  end.

Definition argmax (row : list Z) : result Z :=
  match row with
  | [] => Raise EmptyReduction
  | x :: row' => Ok (Z.of_nat (argmax_from x 0 1 row'))
  end.

(** [action.squeeze(-1)] of an [N, 1] tensor of category indices. *)
Definition squeeze_last (row : list Z) : result Z :=
  match row with
  | [a] => Ok a
  | _ => Raise ShapeError
  end.

Fixpoint mapM_result {A B} (f : A -> result B) (l : list A) : result (list B) :=
  match l with
  | [] => Ok []
  | x :: l' => y ← f x; ys ← mapM_result f l'; Ok (y :: ys)
  end.

(** [pns[range(batch_size), :, argmax_indices_ns]] *)
Definition select_actions (pns : list (list (list Q))) (batch_size : nat)
    (argmax_indices_ns : list Z) : result (list (list Q)) :=
  if negb (length argmax_indices_ns =? batch_size)%nat then Raise ShapeError else
  mapM_result
    (fun '(n, a) =>
       dist ← py_index pns (Z.of_nat n);
       mapM_result (fun atom_row => py_index atom_row a) dist)
    (zip (seq 0 batch_size) argmax_indices_ns).

Section DoubleEstimator.
Context {tensordict params : Type}.
Variable value_network : tensordict -> params -> result tensordict.
Variable step_mdp : tensordict -> tensordict.
Variable get_action : tensordict -> result (list (list Z)).
Variable get_action_value : tensordict -> result (list (list (list Q))).
Variable exp : Q -> Q.

Definition double_q_probabilities (action_space : action_space_t)
    (value_network_params target_value_network_params : params)
    (batch_size : nat) (td : tensordict) : result (list (list Q)) :=
  let next_td := step_mdp td in
  next_td ← value_network next_td value_network_params;
  next_td_action ← get_action next_td;
  argmax_indices_ns ←
    match action_space with
    | categorical => mapM_result squeeze_last next_td_action
    | one_hot => mapM_result argmax next_td_action
    end;
  next_td ← value_network next_td target_value_network_params;
  action_value ← get_action_value next_td;
  let pns := map (map (map exp)) action_value in
  select_actions pns batch_size argmax_indices_ns.

(** The target half of [forward]: the probabilities above are the [pns_a]
    the projection consumes. *)
Definition projected_target (action_space : action_space_t)
    (value_network_params target_value_network_params : params)
    (td : tensordict) (N : nat) (support : list Q)
    (reward : list fval) (done : list bool) (discount : list fval)
  : result (list (list Q)) :=
  pns_a ← double_q_probabilities action_space value_network_params
            target_value_network_params N td;
  project {| batch_size := N; support := support; reward := reward;
             done := done; discount := discount; pns_a := pns_a |}.
End DoubleEstimator.

End DistributionalDQNLoss.

(** ** The estimator facades of value/advantages.py

    A tensor of shape [*B, T, 1] is a list of trajectories (the batch
    dimensions before the time dimension flattened), each a list over the
    time steps.  A key is a path of strings: ["advantage"] for the string
    key, ["next"; "reward"] for the tuple ("next", "reward").  Left out:
    [dispatch] (the keyword calling convention), the grad-mode scope and
    [hold_out_net] (autograd bookkeeping), and the skip-existing scope,
    which acts inside the opaque network. *)

Module Advantages.

Inductive tensor : Type :=
  | TReal (v : list (list Q))
  | TBool (v : list (list bool))
  | TInt (v : list (list Z)).

Record tensordict : Type := {
  batch_size : list nat;
  entries : gmap (list string) tensor
}.

Definition batch_dims (td : tensordict) : nat := length (batch_size td).

Definition get (td : tensordict) (k : list string) : result tensor :=
  match entries td !! k with
  | Some t => Ok t
  | None => Raise (KeyError k)
  end.

Definition get_real (td : tensordict) (k : list string) : result (list (list Q)) :=
  t ← get td k;
  match t with TReal v => Ok v | _ => Raise TypeError end.

Definition get_bool (td : tensordict) (k : list string) : result (list (list bool)) :=
  t ← get td k;
  match t with TBool v => Ok v | _ => Raise TypeError end.

Definition set (td : tensordict) (k : list string) (t : tensor) : tensordict :=
  {| batch_size := batch_size td; entries := <[k := t]> (entries td) |}.

(** A parameter tensordict; [detach] returns a copy that carries no
    gradient. *)
Record params : Type := {
  values : gmap (list string) (list Q);
  requires_grad : bool
}.

Definition detach (p : params) : params :=
  {| values := values p; requires_grad := false |}.

(** The value network is an opaque callable.  Each invocation is recorded
    with the [params] keyword it received and the tensordict it was run on. *)
Record network : Type := {
  is_module : bool;         (* isinstance(value_network, nn.Module) *)
  functional : bool;        (* is_functional(value_network) *)
  stateless : bool;         (* value_network._is_stateless *)
  run : option params -> tensordict -> result tensordict
}.

Record call : Type := {
  call_params : option params;
  call_input : tensordict
}.

Definition M (A : Type) : Type := list call -> result (A * list call).

#[global] Instance M_ret : MRet M := fun _ a log => Ok (a, log).
#[global] Instance M_bind : MBind M := fun _ _ f m log =>
  match m log with
  | Ok (a, log') => f a log'
  | Raise e => Raise e
  end.

Definition lift {A} (r : result A) : M A := fun log =>
  match r with
  | Ok a => Ok (a, log)
  | Raise e => Raise e
  end.

Definition raise {A} (e : error) : M A := fun _ => Raise e.

Definition call_network (net : network) (kwargs : option params)
    (td : tensordict) : M tensordict := fun log =>
  match run net kwargs td with
  | Ok td' => Ok (td', log ++ [{| call_params := kwargs; call_input := td |}])
  | Raise e => Raise e
  end.

Record estimator : Type := {
  gamma : Q;
  lmbda : Q;
  value_network : option network;
  average_rewards : bool;
  average_gae : bool;
  vectorized : bool;
  differentiable : bool;
  advantage_key : list string;
  value_target_key : list string;
  value_key : list string;
  skip_existing : option bool
}.

(** The [is_functional] and [is_stateless] properties. *)
Definition is_stateless (self : estimator) : result bool :=
  match value_network self with
  | None => Ok false
  | Some net =>
      if is_module net then Ok (functional net && stateless net)
      else Raise NotFunctional
  end.

(** *** Element-wise arithmetic *)

Fixpoint zip_exact {A B} (xs : list A) (ys : list B) : result (list (A * B)) :=
  match xs, ys with
  | [], [] => Ok []
  | x :: xs', y :: ys' => rest ← zip_exact xs' ys'; Ok ((x, y) :: rest)
  | _, _ => Raise ShapeError
  end.

Definition map2_exact {A B C} (f : A -> B -> C) (xs : list A) (ys : list B)
  : result (list C) :=
  l ← zip_exact xs ys; Ok (map (fun '(x, y) => f x y) l).

Definition tensor_map2 {A B C} (f : A -> B -> C)
    (a : list (list A)) (b : list (list B)) : result (list (list C)) :=
  rows ← zip_exact a b;
  DistributionalDQNLoss.mapM_result (fun '(r1, r2) => map2_exact f r1 r2) rows.

Definition tsub (a b : list (list Q)) : result (list (list Q)) :=
  tensor_map2 Qminus a b.

Definition tadd (a b : list (list Q)) : result (list (list Q)) :=
  tensor_map2 Qplus a b.

(** [t.mean()] and the unbiased variance under [t.std()], over all elements.
    torch gives nan for the mean of no element and for the variance of
    fewer than two; a quotient of [Q] by zero is 0, so these two functions
    stand for the code on tensors of at least one and two elements. *)
Definition mean (t : list (list Q)) : Q :=
  let xs := concat t in
  Qsum xs / inject_Z (Z.of_nat (length xs)).

Definition var (t : list (list Q)) : Q :=
  let xs := concat t in
  let mu := mean t in
  Qsum (map (fun x => (x - mu) * (x - mu)) xs)
  / inject_Z (Z.of_nat (length xs) - 1).

(** The discount after [gamma ** steps_to_next_obs.view_as(reward)]. *)
Inductive discount : Type :=
  | Scalar (g : Q)
  | Elementwise (g : list (list Q)).

Definition discount_of (gamma : Q) (steps_to_next_obs : option tensor)
    (reward : list (list Q)) : result discount :=
  match steps_to_next_obs with
  | None => Ok (Scalar gamma)
  | Some (TInt steps) =>
      g ← tensor_map2 (fun k (_ : Q) => Qpower gamma k) steps reward;
      Ok (Elementwise g)
  | Some _ => Raise TypeError
  end.

Definition expand (g : discount) (like : list (list Q)) : result (list (list Q)) :=
  match g with
  | Scalar g => Ok (map (map (fun _ => g)) like)
  | Elementwise g => tensor_map2 (fun x (_ : Q) => x) g like
  end.

(** Modelled from the spec: [generalized_advantage_estimate] and
    [vec_generalized_advantage_estimate] of value/functional.py, which is
    not part of the sources.  Section 4.2:
    delta[t] = reward[t] + gamma^k (1 - done[t]) V'[t] - V[t],
    A[t] = delta[t] + gamma lmbda (1 - done[t]) A[t+1] with A[T] = 0,
    value_target[t] = A[t] + V[t]; the two variants agree.  The discount
    the functional receives is already raised to the power k. *)
Fixpoint gae_trajectory (lmbda : Q) (steps : list (Q * Q * Q * Q * bool)) : list Q :=
  match steps with
  | [] => []
  | (g, v, nv, r, d) :: rest =>
      let later := gae_trajectory lmbda rest in
      let not_done := if d then 0 else 1 in
      let delta := r + g * not_done * nv - v in
      (delta + g * lmbda * not_done * hd 0 later) :: later
  end.

Definition generalized_advantage_estimate (gamma : discount) (lmbda : Q)
    (state_value next_state_value reward : list (list Q))
    (done : list (list bool)) (time_dim : Z)
  : result (list (list Q) * list (list Q)) :=
  g ← expand gamma reward;
  gv ← tensor_map2 pair g state_value;
  gvn ← tensor_map2 pair gv next_state_value;
  gvnr ← tensor_map2 pair gvn reward;
  steps ← tensor_map2 pair gvnr done;
  let adv := map (gae_trajectory lmbda) steps in
  value_target ← tadd adv state_value;
  Ok (adv, value_target).

Definition vec_generalized_advantage_estimate := generalized_advantage_estimate.

Inductive td_kind : Type :=
  | TD0
  | TD1
  | TDLambda.

Section Estimators.
(** External collaborators: [step_mdp] of torchrl.envs.utils, the return
    functionals of value/functional.py and the square root under
    [Tensor.std]. *)
Variable step_mdp : tensordict -> tensordict.
Variable sqrt : Q -> Q.
Variable td0_return_estimate :
  discount -> list (list Q) -> list (list Q) -> list (list bool) ->
  result (list (list Q)).
Variable vec_td1_return_estimate :
  discount -> list (list Q) -> list (list Q) -> list (list bool) -> Z ->
  result (list (list Q)).
Variable vec_td_lambda_return_estimate td_lambda_return_estimate :
  discount -> Q -> list (list Q) -> list (list Q) -> list (list bool) -> Z ->
  result (list (list Q)).

Definition std (t : list (list Q)) : Q := sqrt (var t).

(** [reward = reward - reward.mean()]
    [reward = reward / reward.std().clamp_min(1e-4)] *)
Definition standardize_reward (reward : list (list Q)) : list (list Q) :=
  let reward := map (map (fun x => x - mean reward)) reward in
  map (map (fun x => x / Qmax (std reward) (1 # 10000))) reward.

(** [loc = adv.mean()], [scale = adv.std().clamp_min(1e-4)],
    [adv = adv - loc], [adv = adv / scale] *)
Definition standardize_gae (adv : list (list Q)) : list (list Q) :=
  let loc := mean adv in
  let scale := Qmax (std adv) (1 # 10000) in
  let adv := map (map (fun x => x - loc)) adv in
  map (map (fun x => x / scale)) adv.

(** The functional each [value_estimate] ends with: lines 347-349,
    522-524 and 707-714. *)
Definition return_estimate (k : td_kind) (self : estimator)
    (gamma : discount) (next_value reward : list (list Q))
    (done : list (list bool)) (time_dim : Z) : result (list (list Q)) :=
  match k with
  | TD0 => td0_return_estimate gamma next_value reward done
  | TD1 => vec_td1_return_estimate gamma next_value reward done time_dim
  | TDLambda =>
      if vectorized self
      then vec_td_lambda_return_estimate gamma (lmbda self) next_value
             reward done time_dim
      else td_lambda_return_estimate gamma (lmbda self) next_value
             reward done time_dim
  end.

(** [value_estimate] of TD0Estimator (lines 319-350), TD1Estimator
    (494-525) and TDLambdaEstimator (677-715); the three bodies differ in
    the functional they end with. *)
Definition value_estimate (k : td_kind) (self : estimator)
    (tensordict : tensordict) (target_params kwargs : option params)
  : M (Advantages.tensordict * list (list Q)) :=
  reward ← lift (get_real tensordict ["next"; "reward"]);
  gamma ← lift (discount_of (gamma self)
                  (entries tensordict !! ["steps_to_next_obs"]) reward);
  let '(reward, tensordict) :=
    if average_rewards self then
      let reward := standardize_reward reward in
      (reward, set tensordict ["next"; "reward"] (TReal reward))
    else (reward, tensordict) in
  let step_td := step_mdp tensordict in
  step_td ←
    match value_network self with
    | Some net =>
        let kwargs := match target_params with
                      | Some _ => target_params
                      | None => kwargs
                      end in
        call_network net kwargs step_td
    | None => mret step_td
    end;
  next_value ← lift (get_real step_td (value_key self));
  done ← lift (get_bool tensordict ["next"; "done"]);
  let time_dim := (Z.of_nat (batch_dims tensordict) - 1)%Z in
  value_target ← lift (return_estimate k self gamma next_value reward done
                         time_dim);
  mret (tensordict, value_target).

(** [forward] of TD0Estimator (lines 295-317), TD1Estimator (469-492)
    and TDLambdaEstimator (653-675). *)
Definition forward (k : td_kind) (self : estimator)
    (tensordict : tensordict) (params target_params : option params)
  : M Advantages.tensordict :=
  if (batch_dims tensordict <? 1)%nat then raise BatchDimsError else
  needs_params ← lift (is_stateless self);
  if needs_params && negb (bool_decide (is_Some params))
  then raise MissingParams else
  let kwargs := match k with
                | TDLambda => params
                | _ => detach <$> params
                end in
  tensordict ←
    match value_network self, k with
    | Some net, _ => call_network net kwargs tensordict
    | None, TD0 => raise NoNetwork
    | None, _ => mret tensordict
    end;
  value ← lift (get_real tensordict (value_key self));
  let target_params := match params, target_params with
                       | Some p, None => Some (detach p)
                       | _, _ => target_params
                       end in
  '(tensordict, value_target) ←
     value_estimate k self tensordict target_params None;
  advantage ← lift (tsub value_target value);
  let '(advantage_key, value_target_key) :=
    match k with
    | TDLambda => (advantage_key self, value_target_key self)
    | _ => (["advantage"], ["value_target"])
    end in
  let tensordict := set tensordict advantage_key (TReal advantage) in
  let tensordict := set tensordict value_target_key (TReal value_target) in
  mret tensordict.

(** [GAE.forward] (lines 861-932). *)
Definition GAE_forward (self : estimator) (tensordict : tensordict)
    (params target_params : option params) : M Advantages.tensordict :=
  if (batch_dims tensordict <? 1)%nat then raise BatchDimsError else
  reward ← lift (get_real tensordict ["next"; "reward"]);
  gamma ← lift (discount_of (gamma self)
                  (entries tensordict !! ["steps_to_next_obs"]) reward);
  needs_params ← lift (is_stateless self);
  if needs_params && negb (bool_decide (is_Some params))
  then raise MissingParams else
  let kwargs := params in
  tensordict ←
    match value_network self with
    | Some net => call_network net kwargs tensordict
    | None => mret tensordict
    end;
  value ← lift (get_real tensordict (value_key self));
  let step_td := step_mdp tensordict in
  let kwargs := match target_params with
                | Some _ => target_params
                | None => detach <$> kwargs
                end in
  step_td ←
    match value_network self with
    | Some net => call_network net kwargs step_td
    | None => mret step_td
    end;
  next_value ← lift (get_real step_td (value_key self));
  done ← lift (get_bool tensordict ["next"; "done"]);
  let time_dim := (Z.of_nat (batch_dims tensordict) - 1)%Z in
  '(adv, value_target) ← lift
    (if vectorized self
     then vec_generalized_advantage_estimate gamma (lmbda self) value
            next_value reward done time_dim
     else generalized_advantage_estimate gamma (lmbda self) value
            next_value reward done time_dim);
  let adv := if average_gae self then standardize_gae adv else adv in
  let tensordict := set tensordict (advantage_key self) (TReal adv) in
  let tensordict := set tensordict (value_target_key self) (TReal value_target) in
  mret tensordict.
End Estimators.

End Advantages.

(** ** Vocabulary of the proofs about the flat accumulator *)

Module Accumulator.

(** The cells [a, a + len) of a flat tensor: row [n] of an [N, Z] view is
    [segment (n * Z) Z]. *)
Definition segment (a len : nat) (m : list Q) : list Q := take len (drop a m).

Definition hit (a len : nat) (i : Z) : bool :=
  ((Z.of_nat a <=? i) && (i <? Z.of_nat (a + len)))%Z.

(** What an [index_add_] sends into the segment. *)
Fixpoint hits (a len : nat) (index : list Z) (tensor : list Q) : Q :=
  match index, tensor with
  | i :: index', v :: tensor' =>
      (if hit a len i then v else 0) + hits a len index' tensor'
  | _, _ => 0
  end.

(** A bin that stays within one row of [len] atoms. *)
Definition in_row (sel : DistributionalDQNLoss.cell -> Z) (len : nat)
    (c : DistributionalDQNLoss.cell) : Prop :=
  (0 <= sel c < Z.of_nat len)%Z.

(** A bin that is an atom of the row or the index right after its last
    atom, which the flat accumulator gives to the first atom of the next
    row. *)
Definition near_row (sel : DistributionalDQNLoss.cell -> Z) (len : nat)
    (c : DistributionalDQNLoss.cell) : Prop :=
  (0 <= sel c <= Z.of_nat len)%Z.

(** Row [n] of a tensor, empty past its end. *)
Definition row_at {A} (t : list (list A)) (n : nat) : list A :=
  default [] (t !! n).


(** The sum over one row of what a share rule gives each cell. *)
Definition row_sum (share : Q -> DistributionalDQNLoss.cell -> Q)
    (ps : list Q) (row : list DistributionalDQNLoss.cell) : Q :=
  Qsum (zip_with share ps row).

(** The same sum over the rows [s, s + 1, ...], the rule knowing the row. *)
Fixpoint rows_sum (share : nat -> Q -> DistributionalDQNLoss.cell -> Q)
    (s : nat) (pns : list (list Q))
    (cells : list (list DistributionalDQNLoss.cell)) : Q :=
  match pns, cells with
  | ps :: pns', row :: cells' =>
      row_sum (share s) ps row + rows_sum share (S s) pns' cells'
  | _, _ => 0
  end.

(** The mass a bin keeps in its row, and the mass it puts on atom [j]. *)
Definition kept (sel : DistributionalDQNLoss.cell -> Z)
    (w : DistributionalDQNLoss.cell -> Q) (len : nat)
    (p : Q) (c : DistributionalDQNLoss.cell) : Q :=
  if (sel c <? Z.of_nat len)%Z then p * w c else 0.

Definition landed (sel : DistributionalDQNLoss.cell -> Z)
    (w : DistributionalDQNLoss.cell -> Q) (j : Z)
    (p : Q) (c : DistributionalDQNLoss.cell) : Q :=
  if (sel c =? j)%Z then p * w c else 0.

(** The mass a bin sends past the end of its row. *)
Definition spilled (sel : DistributionalDQNLoss.cell -> Z)
    (w : DistributionalDQNLoss.cell -> Q) (len : nat)
    (p : Q) (c : DistributionalDQNLoss.cell) : Q :=
  if (sel c =? Z.of_nat len)%Z then p * w c else 0.

End Accumulator.

(** ** Inputs the projection is specified for *)

Module ProjectionInputs.
Import DistributionalDQNLoss.

(** A support the float32 grid resolves: between 2 and 2^20 atoms, spaced
    by 2^-125 or more on average, so that neither [delta_z] nor its float32
    cast is subnormal. *)
Definition valid_support (support : list Q) : Prop :=
  (2 <= Z.of_nat (length support) <= 2 ^ 20)%Z
  /\ exists Vmin Vmax,
       tensor_min support = Ok Vmin
       /\ tensor_max support = Ok Vmax
       /\ pow2 (-125) * inject_Z (Z.of_nat (length support - 1)) <= Vmax - Vmin.

End ProjectionInputs.

Module ProjectionCells.
Import DistributionalDQNLoss.

(** The most a position [b] can exceed the last atom [atoms - 1] by: what
    the roundings of [delta_z], [Tz - Vmin] and the quotient add up to. *)
Definition leak (atoms : nat) : Q := inject_Z (Z.of_nat atoms) * pow2 (-21).

(** A cell whose two bins are neighbours that enclose a non-negative
    [b]. *)
Definition good_cell (c : cell) : Prop :=
  (0 <= cell_low c /\ cell_up c = cell_low c + 1)%Z
  /\ inject_Z (cell_low c) <= cell_b c <= inject_Z (cell_up c).

(** A cell whose [b] is at most [leak atoms] past the last atom. *)
Definition near_cell (atoms : nat) (c : cell) : Prop :=
  good_cell c
  /\ (cell_low c <= Z.of_nat atoms - 1)%Z
  /\ cell_b c <= inject_Z (Z.of_nat atoms - 1) + leak atoms.

(** The cells [project] computes from a clamped [Tz]. *)
Definition cells_of (atoms : nat) (Vmin delta_z : Q) (Tz : list (list Q))
  : list (list cell) :=
  map (map (project_cell atoms Vmin delta_z)) Tz.

(** The cells of an input, none when the call stops before it has them. *)
Definition projection_cells (inp : projection_input) : list (list cell) :=
  match bellman_support inp with
  | Ok (Vmin, delta_z, Tz) => cells_of (length (support inp)) Vmin delta_z Tz
  | Raise _ => []
  end.

(** The mass row [k] sends into row [k + 1]: the share of [up] of its
    cells whose [up] is the index after the last atom. *)
Definition spill (inp : projection_input) (k : nat) : Q :=
  Accumulator.row_sum
    (Accumulator.spilled cell_up weight_up (length (support inp)))
    (Accumulator.row_at (pns_a inp) k)
    (Accumulator.row_at (projection_cells inp) k).

(** The mass row [n] receives from the row before it. *)
Definition spill_before (inp : projection_input) (n : nat) : Q :=
  match n with
  | O => 0
  | S k => spill inp k
  end.

End ProjectionCells.

(** ** Vocabulary of the claims about the estimators *)

Module EstimatorSpec.
Import Advantages.

(** Element-wise equality of two real tensors, as rationals. *)
Definition tensor_equal (a b : list (list Q)) : Prop :=
  Forall2 (Forall2 Qeq) a b.

(** The standardization as the specification words it:
    (reward - mean(reward)) / max(std(reward), 1e-4), mean and standard
    deviation taken from the reward as it was read. *)
Definition standardize_spec (sqrt : Q -> Q) (reward : list (list Q))
  : list (list Q) :=
  map (map (fun x => (x - mean reward) / Qmax (std sqrt reward) (1 # 10000)))
      reward.

(** The bootstrap call of a run: with a network, one recorded invocation
    on the shifted tensordict; without one, no invocation. *)
Definition bootstrap_call (step_mdp : tensordict -> tensordict)
    (self : estimator) (kwargs : option params)
    (td step_td : tensordict) (log log' : list call) : Prop :=
  match value_network self with
  | Some net =>
      run net kwargs (step_mdp td) = Ok step_td
      /\ log' = log ++ [{| call_params := kwargs; call_input := step_mdp td |}]
  | None => step_td = step_mdp td /\ log' = log
  end.

(** The current-step call of a run.  [TD0Estimator.forward] enters
    [hold_out_net] without testing the network for [None]. *)
Definition current_call (needs_network : bool) (self : estimator)
    (kwargs : option params) (td td1 : tensordict) (log log1 : list call)
  : Prop :=
  match value_network self with
  | Some net =>
      run net kwargs td = Ok td1
      /\ log1 = log ++ [{| call_params := kwargs; call_input := td |}]
  | None => needs_network = false /\ td1 = td /\ log1 = log
  end.

(** The keyword [forward] passes to the current-step call, the target
    parameters it hands to [value_estimate], and the keys it writes. *)
Definition current_kwargs (k : td_kind) (params : option params)
  : option Advantages.params :=
  match k with
  | TDLambda => params
  | _ => detach <$> params
  end.

Definition default_target (params target_params : option params)
  : option Advantages.params :=
  match params, target_params with
  | Some p, None => Some (detach p)
  | _, _ => target_params
  end.

Definition written_keys (k : td_kind) (self : estimator)
  : list string * list string :=
  match k with
  | TDLambda => (advantage_key self, value_target_key self)
  | _ => (["advantage"%string], ["value_target"%string])
  end.

(** The estimator constructed with other output keys. *)
Definition with_keys (self : estimator) (advantage_key value_target_key : list string)
  : estimator :=
  {| gamma := gamma self;
     lmbda := lmbda self;
     value_network := value_network self;
     average_rewards := average_rewards self;
     average_gae := average_gae self;
     vectorized := vectorized self;
     differentiable := differentiable self;
     advantage_key := advantage_key;
     value_target_key := value_target_key;
     value_key := value_key self;
     skip_existing := skip_existing self |}.

End EstimatorSpec.

(** ** Concrete inputs of the projection *)

Module ProjectionExamples.
Import DistributionalDQNLoss.


(** A reward of +inf. *)
Definition infinite_reward_input : projection_input :=
  {| batch_size := 1;
     support := [-10 # 1; -5 # 1; 0; 5 # 1; 10 # 1];
     reward := [PInf];
     done := [false];
     discount := [Fin (9 # 10)];
     pns_a := [[1 # 5; 1 # 5; 1 # 5; 1 # 5; 1 # 5]] |}.

(** A reward of nan. *)
Definition nan_reward_input : projection_input :=
  {| batch_size := 1;
     support := [-10 # 1; -5 # 1; 0; 5 # 1; 10 # 1];
     reward := [NaN];
     done := [false];
     discount := [Fin (9 # 10)];
     pns_a := [[1 # 5; 1 # 5; 1 # 5; 1 # 5; 1 # 5]] |}.

(** Eight float32 atoms from 0 to 19, the extremes and the size of
    [torch.linspace(0, 19, 8)]: the spacing 19/7 is no float32 number. *)
Definition support_0_19 : list Q :=
  [0; 11384539 # 4194304; 11384539 # 2097152; 2134601 # 262144;
   2846135 # 262144; 7115337 # 524288; 8538405 # 524288; 19 # 1].

(** One terminal transition whose reward is the last atom, 19. *)
Definition last_atom_input : projection_input :=
  {| batch_size := 1;
     support := support_0_19;
     reward := [Fin (19 # 1)];
     done := [true];
     discount := [Fin (1 # 2)];
     pns_a := [[1 # 8; 1 # 8; 1 # 8; 1 # 8; 1 # 8; 1 # 8; 1 # 8; 1 # 8]] |}.

(** Two terminal transitions: the reward of the first is the last atom,
    the reward of the second the first atom. *)
Definition two_rows_input : projection_input :=
  {| batch_size := 2;
     support := support_0_19;
     reward := [Fin (19 # 1); Fin 0];
     done := [true; true];
     discount := [Fin (1 # 2); Fin (1 # 2)];
     pns_a := [[1 # 8; 1 # 8; 1 # 8; 1 # 8; 1 # 8; 1 # 8; 1 # 8; 1 # 8];
               [1 # 8; 1 # 8; 1 # 8; 1 # 8; 1 # 8; 1 # 8; 1 # 8; 1 # 8]] |}.

End ProjectionExamples.

(** ** A concrete double-Q setting *)

Module DoubleEstimatorExample.
Import DistributionalDQNLoss.

(** A tensordict with the two entries the loss reads back, and a network
    whose parameter snapshot is the pair of outputs it leaves there. *)
Record toy_td : Type := {
  toy_action : list (list Z);
  toy_action_value : list (list (list Q))
}.

Definition toy_network (td : toy_td) (snapshot : toy_td) : result toy_td :=
  Ok snapshot.

Definition toy_step (td : toy_td) : toy_td := td.

(** A polynomial stand-in for [exp]. *)
Definition toy_exp (x : Q) : Q := 1 + x + x * x / 2.

(** One transition, two atoms, two actions: the online snapshot picks
    action 1, the target snapshot would pick action 0. *)
Definition online_snapshot : toy_td :=
  {| toy_action := [[0; 1]%Z];
     toy_action_value := [[[-2 # 1; 0]; [-3 # 1; 0]]] |}.

Definition target_snapshot : toy_td :=
  {| toy_action := [[1; 0]%Z];
     toy_action_value := [[[0; -1 # 1]; [0; -4 # 1]]] |}.

End DoubleEstimatorExample.

(** ** A concrete estimator setting *)

Module EstimatorExample.
Import Advantages.

(** [step_mdp] on the entries: what is stored under ("next", k) becomes
    the entry k; everything else of the root is dropped. *)
Definition shift (td : tensordict) : tensordict :=
  {| batch_size := batch_size td;
     entries :=
       map_fold (fun k v acc =>
                   match k with
                   | "next"%string :: k' => <[k' := v]> acc
                   | _ => acc
                   end) ∅ (entries td) |}.

(** Four Newton steps from 1, a rational stand-in for the square root. *)
Definition newton_step (x y : Q) : Q := Qred ((y + x / y) / 2).

Definition newton_sqrt (x : Q) : Q :=
  newton_step x (newton_step x (newton_step x (newton_step x 1))).

(** A value network that copies the observation: V(s) = s. *)
Definition copy_observation (kwargs : option params) (td : tensordict)
  : result tensordict :=
  t ← get td ["observation"%string];
  Ok (set td ["state_value"%string] t).

Definition copy_network : network :=
  {| is_module := true; functional := false; stateless := false;
     run := copy_observation |}.

(** Modelled from the spec: [td0_return_estimate] of value/functional.py,
    section 4.1: target[t] = reward[t] + gamma^k (1 - done[t]) next_value[t]. *)
Definition td0_step (g nv r : Q) (d : bool) : Q :=
  r + g * (if d then 0 else 1) * nv.

Definition td0_return_estimate (gamma : discount)
    (next_state_value reward : list (list Q)) (done : list (list bool))
  : result (list (list Q)) :=
  g ← expand gamma reward;
  gn ← tensor_map2 pair g next_state_value;
  gnr ← tensor_map2 pair gn reward;
  tensor_map2 (fun '(g, nv, r) d => td0_step g nv r d) gnr done.

(** Modelled from the spec: the recursion of section 4.1 for TD(lambda),
    target[t] = reward[t] + gamma^k (1 - done[t])
                ((1 - lmbda) next_value[t] + lmbda target[t+1]),
    the last step bootstrapping from its next value; TD(1) is lmbda = 1. *)
Fixpoint td_lambda_trajectory (lmbda : Q) (steps : list (Q * Q * Q * bool))
  : list Q :=
  match steps with
  | [] => []
  | (g, nv, r, d) :: rest =>
      let later := td_lambda_trajectory lmbda rest in
      let successor := hd nv later in
      (r + g * (if d then 0 else 1) * ((1 - lmbda) * nv + lmbda * successor))
        :: later
  end.

Definition td_lambda_return_estimate (gamma : discount) (lmbda : Q)
    (next_state_value reward : list (list Q)) (done : list (list bool))
    (time_dim : Z) : result (list (list Q)) :=
  g ← expand gamma reward;
  gn ← tensor_map2 pair g next_state_value;
  gnr ← tensor_map2 pair gn reward;
  steps ← tensor_map2 pair gnr done;
  Ok (map (td_lambda_trajectory lmbda) steps).

Definition vec_td1_return_estimate (gamma : discount)
    (next_state_value reward : list (list Q)) (done : list (list bool))
    (time_dim : Z) : result (list (list Q)) :=
  td_lambda_return_estimate gamma 1 next_state_value reward done time_dim.

Definition example_estimator : estimator :=
  {| gamma := 99 # 100;
     lmbda := 95 # 100;
     value_network := Some copy_network;
     average_rewards := false;
     average_gae := false;
     vectorized := true;
     differentiable := false;
     advantage_key := ["advantage"%string];
     value_target_key := ["value_target"%string];
     value_key := ["state_value"%string];
     skip_existing := None |}.

Definition standardizing_estimator : estimator :=
  {| gamma := 99 # 100;
     lmbda := 95 # 100;
     value_network := Some copy_network;
     average_rewards := true;
     average_gae := true;
     vectorized := true;
     differentiable := false;
     advantage_key := ["adv"%string];
     value_target_key := ["target"%string];
     value_key := ["state_value"%string];
     skip_existing := None |}.

(** The trajectory of section 8: rewards 1, 0.5, -1, done at the last
    step, values 2, 1, 0 and next values 1, 0, 0. *)
Definition example_td : tensordict :=
  {| batch_size := [1; 3]%nat;
     entries :=
       <[["observation"%string] := TReal [[2 # 1; 1; 0]]]>
       (<[["next"%string; "observation"%string] := TReal [[1; 0; 0]]]>
       (<[["next"%string; "reward"%string] := TReal [[1; 1 # 2; -1 # 1]]]>
       (<[["next"%string; "done"%string] := TBool [[false; false; true]]]> ∅))) |}.

(** One trajectory with no time step at all: batch size [1, 0]. *)
Definition empty_time_td : tensordict :=
  {| batch_size := [1; 0]%nat;
     entries :=
       <[["observation"%string] := TReal [[]]]>
       (<[["next"%string; "observation"%string] := TReal [[]]]>
       (<[["next"%string; "reward"%string] := TReal [[]]]>
       (<[["next"%string; "done"%string] := TBool [[]]]> ∅))) |}.

(** A single transition without batch dimension. *)
Definition no_batch_td : tensordict :=
  {| batch_size := []; entries := entries empty_time_td |}.

Definition example_params : params :=
  {| values := <[["weight"%string] := [1]]> ∅; requires_grad := true |}.

End EstimatorExample.

(** ** More of [DistributionalDQNLoss.forward]: what reaches one atom, and
       the loss *)

Module ProjectionExtras.
Import DistributionalDQNLoss.

(** What the two scatter-adds of lines 389-396 send from one cell to atom
    [j]: [m_l += p (u - b)] when [l = j], [m_u += p (b - l)] when [u = j]. *)
Definition cell_mass (j : Z) (p : Q) (c : cell) : Q :=
  (if (cell_low c =? j)%Z then p * weight_low c else 0)
  + (if (cell_up c =? j)%Z then p * weight_up c else 0).

(** Line 399: [loss = -torch.sum(m * log_ps_a, 1)], the two factors of
    the same shape. *)
Definition cross_entropy (m log_ps_a : list (list Q)) : result (list Q) :=
  products ← Advantages.tensor_map2 Qmult m log_ps_a;
  Ok (map (fun row => - Qsum row) products).

(** One transition with a support of a single atom. *)
Definition single_atom_input : projection_input :=
  {| batch_size := 1;
     support := [3 # 1];
     reward := [Fin 0];
     done := [false];
     discount := [Fin (9 # 10)];
     pns_a := [[1]] |}.

End ProjectionExtras.

(** ** The log-probabilities of the taken action (lines 269-285 of dqn.py)
       and the value of the taken action (lines 190-200) *)

Module TakenAction.
Import DistributionalDQNLoss.

(** [t.expand] along one dimension to the size [n]: a dimension of size 1
    is repeated, any other size has to be [n] already. *)
Definition expand_dim {A} (n : nat) (l : list A) : result (list A) :=
  match l with
  | [x] => Ok (replicate n x)
  | _ => if (length l =? n)%nat then Ok l else Raise ShapeError
  end.

(** [row.masked_select(mask.to(torch.bool))]: the entries whose mask is
    not zero, in order. *)
Fixpoint select (mask : list Z) (row : list Q) : list Q :=
  match mask, row with
  | a :: mask', x :: row' =>
      if (a =? 0)%Z then select mask' row' else x :: select mask' row'
  | _, _ => []
  end.

(** [_log_ps_a_default]: the action mask of shape [N, A] is expanded over
    the atoms of [action_log_softmax] (shape [N, atoms, A]), the selected
    entries are flattened and viewed as [batch_size, atoms]; the view
    raises when the number of selected entries is not [batch_size * atoms]. *)
Definition _log_ps_a_default (action : list (list Z))
    (action_log_softmax : list (list (list Q))) (batch_size atoms : nat)
  : result (list (list Q)) :=
  action_expand ← expand_dim (length action_log_softmax) action;
  selected ←
    mapM_result
      (fun '(mask, dist) =>
         mapM_result
           (fun atom_row =>
              mask ← expand_dim (length atom_row) mask;
              Ok (select mask atom_row))
           dist)
      (zip action_expand action_log_softmax);
  let log_ps_a := concat (map (fun rows => concat rows) selected) in
  if (length log_ps_a =? batch_size * atoms)%nat
  then Ok (view batch_size atoms log_ps_a)
  else Raise ShapeError.

(** An index tensor of rank 1 ([N]) or 2 ([N, k]). *)
Inductive index_tensor : Type :=
  | Index1 (v : list Z)
  | Index2 (v : list (list Z)).

(** [torch.gather(row, -1, index=i)] on one row: no wrap-around. *)
Definition gather_last (row : list Q) (i : Z) : result Q :=
  if ((0 <=? i) && (i <? Z.of_nat (length row)))%Z then
    match row !! Z.to_nat i with
    | Some x => Ok x
    | None => Raise IndexError
    end
  else Raise IndexError.

(** The gather of [_log_ps_a_categorical] once the index has the shape
    [N, atoms, 1]: row [n] of the index reads row [n] of the input, which
    must exist. *)
Fixpoint gather_rows (column : list Z) (input : list (list (list Q)))
  : result (list (list Q)) :=
  match column, input with
  | [], _ => Ok []
  | a :: column', dist :: input' =>
      row ← mapM_result (fun atom_row => gather_last atom_row a) dist;
      rest ← gather_rows column' input';
      Ok (row :: rest)
  | _ :: _, [] => Raise ShapeError
  end.

(** [_log_ps_a_categorical]: an action of shape [N, 1], or of shape [N]
    (unsqueezed when its last dimension is not 1), indexes the action
    dimension for every atom.  Any other shape ends with an index whose
    rank differs from the rank of the input, which [gather] refuses; this
    includes an action of shape [1], whose last dimension is already 1. *)
Definition _log_ps_a_categorical (action : index_tensor)
    (action_log_softmax : list (list (list Q))) : result (list (list Q)) :=
  column ←
    match action with
    | Index2 v => mapM_result squeeze_last v
    | Index1 v => if (length v =? 1)%nat then Raise ShapeError else Ok v
    end;
  gather_rows column action_log_softmax.

(** A one-hot row of [A] entries with the 1 at index [a]. *)
Definition one_hot_row (A : nat) (a : Z) : list Z :=
  map (fun i => if (Z.of_nat i =? a)%Z then 1%Z else 0%Z) (seq 0 A).

(** The number of entries of a mask that are set. *)
Fixpoint set_entries (mask : list Z) : nat :=
  match mask with
  | [] => 0
  | a :: mask' => if (a =? 0)%Z then set_entries mask' else S (set_entries mask')
  end.

Definition total_set_entries (action : list (list Z)) : nat :=
  sum_list (map set_entries action).

(** A mask that sets two actions for the first transition and none for
    the second. *)
Definition two_and_none : list (list Z) := [[1; 1; 0]%Z; [0; 0; 0]%Z; [0; 0; 1]%Z].

(** The value of the taken action in [DQNLoss.forward], one-hot branch:
    [(pred_val * action.to(torch.float)).sum(-1)], both of shape [N, A]. *)
Definition pred_val_index_one_hot (action : list (list Z))
    (pred_val : list (list Q)) : result (list Q) :=
  products ← Advantages.tensor_map2 (fun v a => v * inject_Z a) pred_val action;
  Ok (map Qsum products).

(** The categorical branch for an action of shape [N]: its shape differs
    from the one of [pred_val], it is unsqueezed to [N, 1], gathered and
    squeezed back.  Row [n] of the index reads row [n] of [pred_val]. *)
Fixpoint pred_val_index_categorical (action : list Z)
    (pred_val : list (list Q)) : result (list Q) :=
  match action, pred_val with
  | [], _ => Ok []
  | a :: action', row :: pred_val' =>
      v ← gather_last row a;
      rest ← pred_val_index_categorical action' pred_val';
      Ok (v :: rest)
  | _ :: _, [] => Raise ShapeError
  end.

(** Three transitions, two atoms, three actions. *)
Definition example_log_softmax : list (list (list Q)) :=
  [[[-1 # 1; -2 # 1; -3 # 1]; [-4 # 1; -5 # 1; -6 # 1]];
   [[-7 # 1; -8 # 1; -9 # 1]; [-1 # 2; -1 # 3; -1 # 4]];
   [[-2 # 3; -3 # 4; -4 # 5]; [-5 # 6; -6 # 7; -7 # 8]]].

Definition example_pred_val : list (list Q) :=
  [[1; 2 # 1; 3 # 1]; [4 # 1; 5 # 1; 6 # 1]; [7 # 1; 8 # 1; 9 # 1]].

End TakenAction.

(** ** More of value/advantages.py: [GAE.value_estimate] *)

Module AdvantagesMore.
Import Advantages.

Section GAEValueEstimate.
Variable step_mdp : tensordict -> tensordict.

(** [GAE.value_estimate] (lines 941-983): the body of [GAE.forward]
    without the standardization and without the two writes; it always
    calls the vectorized functional and returns the value target.  The
    [params] entry of [**kwargs] is [kwargs]. *)
Definition GAE_value_estimate (self : estimator) (tensordict : tensordict)
    (params target_params kwargs : option params)
  : M (Advantages.tensordict * list (list Q)) :=
  if (batch_dims tensordict <? 1)%nat then raise BatchDimsError else
  reward ← lift (get_real tensordict ["next"; "reward"]);
  gamma ← lift (discount_of (gamma self)
                  (entries tensordict !! ["steps_to_next_obs"]) reward);
  needs_params ← lift (is_stateless self);
  if needs_params && negb (bool_decide (is_Some params))
  then raise MissingParams else
  let kwargs := match params with
                | Some _ => params
                | None => kwargs
                end in
  tensordict ←
    match value_network self with
    | Some net => call_network net kwargs tensordict
    | None => mret tensordict
    end;
  value ← lift (get_real tensordict (value_key self));
  let step_td := step_mdp tensordict in
  let kwargs := match target_params with
                | Some _ => target_params
                | None => detach <$> kwargs
                end in
  step_td ←
    match value_network self with
    | Some net => call_network net kwargs step_td
    | None => mret step_td
    end;
  next_value ← lift (get_real step_td (value_key self));
  done ← lift (get_bool tensordict ["next"; "done"]);
  let time_dim := (Z.of_nat (batch_dims tensordict) - 1)%Z in
  '(_, value_target) ← lift
    (vec_generalized_advantage_estimate gamma (lmbda self) value next_value
       reward done time_dim);
  mret (tensordict, value_target).
End GAEValueEstimate.

(** A functional, stateless module: it needs its parameters passed. *)
Definition stateless_network : network :=
  {| is_module := true; functional := true; stateless := true;
     run := EstimatorExample.copy_observation |}.

(** A plain callable, no [nn.Module]. *)
Definition plain_callable : network :=
  {| is_module := false; functional := false; stateless := false;
     run := EstimatorExample.copy_observation |}.

Definition with_network (self : estimator) (net : option network) : estimator :=
  {| gamma := gamma self;
     lmbda := lmbda self;
     value_network := net;
     average_rewards := average_rewards self;
     average_gae := average_gae self;
     vectorized := vectorized self;
     differentiable := differentiable self;
     advantage_key := advantage_key self;
     value_target_key := value_target_key self;
     value_key := value_key self;
     skip_existing := skip_existing self |}.

(** The example trajectory with the values already in place, for an
    estimator without network. *)
Definition precomputed_td : tensordict :=
  set (set EstimatorExample.example_td ["state_value"%string] (TReal [[2 # 1; 1; 0]]))
      ["next"%string; "state_value"%string] (TReal [[1; 0; 0]]).

End AdvantagesMore.
(** * Properties of the rounding *)

Module FloatFacts.

Lemma pow2_pos (e : Z) : 0 < pow2 e.
Proof. unfold pow2. now apply Qpower_0_lt. Qed.

Lemma pow2_add (a b : Z) : pow2 (a + b) == pow2 a * pow2 b.
Proof. unfold pow2. apply Qpower_plus. discriminate. Qed.

Lemma pow2_nat (n : Z) : (0 <= n)%Z -> pow2 n == inject_Z (2 ^ n).
Proof. intros H. unfold pow2. now rewrite Zpower_Qpower. Qed.

Lemma rne_near (x : Q) : Qabs (inject_Z (rne x) - x) <= 1 # 2.
Proof.
  unfold rne.
  assert (Hlo := Qfloor_le x). assert (Hhi := Qlt_floor x).
  rewrite inject_Z_plus in Hhi. change (inject_Z 1) with 1 in Hhi.
  apply Qabs_Qle_condition.
  destruct (Qcompare_spec (x - inject_Z (Qfloor x)) (1 # 2)) as [E | E | E].
  - destruct (Z.even (Qfloor x)).
    + split; lra.
    + rewrite inject_Z_plus. change (inject_Z 1) with 1. split; lra.
  - split; lra.
  - rewrite inject_Z_plus. change (inject_Z 1) with 1. split; lra.
Qed.

Lemma rne_nonneg (x : Q) : 0 <= x -> (0 <= rne x)%Z.
Proof.
  intros H. assert (Hf : (0 <= Qfloor x)%Z).
  { change 0%Z with (Qfloor 0). now apply Qfloor_resp_le. }
  unfold rne. destruct (Qcompare _ _); [destruct (Z.even _) | |]; lia.
Qed.

Lemma ilog2_le (x : Q) : 0 < x -> pow2 (ilog2 x) <= x.
Proof.
  intros Hx. unfold ilog2.
  set (n := Qnum x). set (d := Qden x).
  destruct (Qle_bool (pow2 (Z.log2 n - Z.log2 (Z.pos d))) x) eqn:E.
  - now apply Qle_bool_iff.
  - clear E.
    assert (Hn : (0 < n)%Z).
    { unfold Qlt in Hx. cbn in Hx. subst n. lia. }
    destruct (Z.log2_spec n Hn) as [Hn1 _].
    destruct (Z.log2_spec (Z.pos d) eq_refl) as [_ Hd2].
    assert (Hln := Z.log2_nonneg n). assert (Hld := Z.log2_nonneg (Z.pos d)).
    replace (Z.log2 n - Z.log2 (Z.pos d) - 1)%Z
      with (Z.log2 n + - (Z.succ (Z.log2 (Z.pos d))))%Z by lia.
    rewrite pow2_add. unfold pow2 at 2. rewrite Qpower_opp.
    fold (pow2 (Z.succ (Z.log2 (Z.pos d)))).
    rewrite !pow2_nat by lia.
    assert (Ex : x == inject_Z n / inject_Z (Z.pos d)).
    { subst n d. destruct x as [xn xd]. cbn. unfold Qeq, Qdiv, Qmult, Qinv, inject_Z.
      cbn. lia. }
    rewrite Ex.
    assert (H1 : inject_Z (2 ^ Z.log2 n) <= inject_Z n) by now rewrite <- Zle_Qle.
    assert (H2 : inject_Z (Z.pos d) <= inject_Z (2 ^ Z.succ (Z.log2 (Z.pos d))))
      by (rewrite <- Zle_Qle; lia).
    assert (H3 : 0 < inject_Z (Z.pos d)) by reflexivity.
    assert (H4 : 0 < inject_Z (2 ^ Z.log2 n)).
    { change 0 with (inject_Z 0). rewrite <- Zlt_Qlt. lia. }
    set (A := inject_Z (2 ^ Z.log2 n)) in *.
    set (B := inject_Z (2 ^ Z.succ (Z.log2 (Z.pos d)))) in *.
    set (N := inject_Z n) in *. set (D := inject_Z (Z.pos d)) in *.
    assert (HB : 0 < B) by lra.
    apply Qle_shift_div_l; [exact H3 |].
    apply Qle_trans with (A * (D / B)).
    + apply Qle_lteq. right. field. lra.
    + apply Qle_trans with (A * 1); [| lra].
      apply Qmult_le_l; [exact H4 |].
      apply Qle_shift_div_r; [exact HB | lra].
Qed.

Lemma ilog2_lt (x : Q) : 0 < x -> x < pow2 (ilog2 x + 1).
Proof.
  intros Hx. unfold ilog2.
  set (n := Qnum x). set (d := Qden x).
  destruct (Qle_bool (pow2 (Z.log2 n - Z.log2 (Z.pos d))) x) eqn:E.
  - clear E.
    assert (Hn : (0 < n)%Z).
    { unfold Qlt in Hx. cbn in Hx. subst n. lia. }
    destruct (Z.log2_spec n Hn) as [_ Hn2].
    destruct (Z.log2_spec (Z.pos d) eq_refl) as [Hd1 _].
    assert (Hln := Z.log2_nonneg n). assert (Hld := Z.log2_nonneg (Z.pos d)).
    replace (Z.log2 n - Z.log2 (Z.pos d) + 1)%Z
      with (Z.succ (Z.log2 n) + - Z.log2 (Z.pos d))%Z by lia.
    rewrite pow2_add. unfold pow2 at 2. rewrite Qpower_opp.
    fold (pow2 (Z.log2 (Z.pos d))).
    rewrite !pow2_nat by lia.
    assert (Ex : x == inject_Z n / inject_Z (Z.pos d)).
    { subst n d. destruct x as [xn xd]. cbn. unfold Qeq, Qdiv, Qmult, Qinv, inject_Z.
      cbn. lia. }
    rewrite Ex.
    assert (H1 : inject_Z n < inject_Z (2 ^ Z.succ (Z.log2 n)))
      by now rewrite <- Zlt_Qlt.
    assert (H2 : inject_Z (2 ^ Z.log2 (Z.pos d)) <= inject_Z (Z.pos d))
      by (rewrite <- Zle_Qle; lia).
    assert (H3 : 0 < inject_Z (Z.pos d)) by reflexivity.
    assert (H4 : 0 < inject_Z (2 ^ Z.log2 (Z.pos d))).
    { change 0 with (inject_Z 0). rewrite <- Zlt_Qlt. lia. }
    set (A := inject_Z (2 ^ Z.succ (Z.log2 n))) in *.
    set (B := inject_Z (2 ^ Z.log2 (Z.pos d))) in *.
    set (N := inject_Z n) in *. set (D := inject_Z (Z.pos d)) in *.
    assert (HA : 0 < A).
    { unfold A. change 0 with (inject_Z 0). rewrite <- Zlt_Qlt. lia. }
    apply Qlt_shift_div_r; [exact H3 |].
    apply Qlt_le_trans with A; [exact H1 |].
    assert (E : A * / B * D == A * (D / B)) by (field; lra).
    rewrite E.
    apply Qle_trans with (A * 1); [lra |].
    apply Qmult_le_l; [exact HA |].
    apply Qle_shift_div_l; [exact H4 | lra].
  - replace (Z.log2 n - Z.log2 (Z.pos d) - 1 + 1)%Z
      with (Z.log2 n - Z.log2 (Z.pos d))%Z by lia.
    destruct (Qlt_le_dec x (pow2 (Z.log2 n - Z.log2 (Z.pos d)))) as [H | H];
      [exact H |].
    apply Qle_bool_iff in H. congruence.
Qed.

(** [ilog2 x] is the one integer [l] with [2^l <= x < 2^(l+1)]. *)
Lemma ilog2_unique (x : Q) (l : Z) :
  pow2 l <= x -> x < pow2 (l + 1) -> ilog2 x = l.
Proof.
  intros Hlo Hhi.
  assert (Hx : 0 < x) by (assert (H := pow2_pos l); lra).
  assert (H1 := ilog2_le x Hx). assert (H2 := ilog2_lt x Hx).
  assert (Ha : pow2 l < pow2 (ilog2 x + 1)) by lra.
  assert (Hb : pow2 (ilog2 x) < pow2 (l + 1)) by lra.
  unfold pow2 in Ha, Hb.
  apply Qpower_lt_compat_l_inv in Ha; [| reflexivity].
  apply Qpower_lt_compat_l_inv in Hb; [| reflexivity].
  lia.
Qed.

Lemma ilog2_compat (x y : Q) : 0 < x -> x == y -> ilog2 x = ilog2 y.
Proof.
  intros Hx E. apply ilog2_unique.
  - rewrite E. apply ilog2_le. now rewrite <- E.
  - rewrite E. apply ilog2_lt. now rewrite <- E.
Qed.

Lemma rne_compat (x y : Q) : x == y -> rne x = rne y.
Proof.
  intros E. unfold rne. rewrite (Qfloor_comp _ _ E).
  assert (E2 : x - inject_Z (Qfloor y) == y - inject_Z (Qfloor y))
    by now rewrite E.
  now rewrite (Qcompare_comp _ _ E2 (1 # 2) (1 # 2) (Qeq_refl _)).
Qed.

(** Rounding depends on the value of a rational only, not on the fraction
    that denotes it. *)
Lemma round_fin_compat (f : format) (x y : Q) :
  x == y -> round_fin f x = round_fin f y.
Proof.
  intros E. unfold round_fin.
  assert (E0 : Qeq_bool x 0 = Qeq_bool y 0).
  { destruct (Qeq_bool x 0) eqn:Hx, (Qeq_bool y 0) eqn:Hy; auto.
    - apply Qeq_bool_iff in Hx. rewrite E in Hx. apply Qeq_bool_iff in Hx.
      congruence.
    - apply Qeq_bool_iff in Hy. rewrite <- E in Hy. apply Qeq_bool_iff in Hy.
      congruence. }
  rewrite <- E0. destruct (Qeq_bool x 0) eqn:Hx; [reflexivity |].
  assert (Hpos : 0 < Qabs x).
  { destruct (Qlt_le_dec 0 (Qabs x)) as [H | H]; [exact H |].
    apply Qabs_Qle_condition in H. assert (Hz : x == 0) by lra.
    apply Qeq_bool_iff in Hz. congruence. }
  assert (Ee : ulp_exponent f x = ulp_exponent f y).
  { unfold ulp_exponent. rewrite (ilog2_compat (Qabs x) (Qabs y) Hpos);
      [reflexivity | now rewrite E]. }
  rewrite <- Ee. set (e := ulp_exponent f x). apply Qred_complete.
  rewrite (rne_compat (x / pow2 e) (y / pow2 e)); [reflexivity | now rewrite E].
Qed.

Lemma round_compat (f : format) (x y : Q) : x == y -> round f x = round f y.
Proof. intros E. unfold round. now rewrite (round_fin_compat f x y E). Qed.

Lemma round32_zero (x : Q) : x == 0 -> round binary32 x = Fin 0.
Proof. intros E. now rewrite (round_compat binary32 x 0 E). Qed.

Lemma round_fin_error (f : format) (x : Q) :
  Qabs (round_fin f x - x) <= pow2 (- prec f) * Qabs x + pow2 (emin f - 1).
Proof.
  assert (Hu := pow2_pos (- prec f)). assert (He := pow2_pos (emin f - 1)).
  assert (Hx := Qabs_nonneg x).
  unfold round_fin. destruct (Qeq_bool x 0) eqn:E0.
  - apply Qeq_bool_iff in E0.
    assert (E : 0 - x == 0) by lra. rewrite E. change (Qabs 0) with 0.
    assert (0 <= pow2 (- prec f) * Qabs x) by (apply Qmult_le_0_compat; lra).
    lra.
  - set (e := ulp_exponent f x). rewrite Qred_correct.
    assert (Hp := pow2_pos e).
    assert (Ey : x == x / pow2 e * pow2 e) by (field; lra).
    set (y := x / pow2 e) in *.
    assert (Hk := rne_near y).
    assert (Ed : inject_Z (rne y) * pow2 e - x == (inject_Z (rne y) - y) * pow2 e).
    { rewrite Ey at 1. ring. }
    rewrite Ed, Qabs_Qmult, (Qabs_pos (pow2 e)) by lra.
    apply Qle_trans with ((1 # 2) * pow2 e).
    { apply Qmult_le_compat_r; [exact Hk | lra]. }
    assert (Ehalf : (1 # 2) * pow2 e == pow2 (e - 1)).
    { replace (e - 1)%Z with (e + -1)%Z by lia. rewrite pow2_add.
      change (pow2 (-1)) with (1 # 2). ring. }
    rewrite Ehalf. unfold e, ulp_exponent.
    destruct (Z.max_spec (ilog2 (Qabs x) - (prec f - 1)) (emin f)) as [[_ ->] | [_ ->]].
    + assert (0 <= pow2 (- prec f) * Qabs x).
      { apply Qmult_le_0_compat; lra. }
      lra.
    + assert (Hpos : 0 < Qabs x).
      { destruct (Qlt_le_dec 0 (Qabs x)) as [H | H]; [exact H |].
        assert (E : Qabs x == 0) by lra.
        apply Qabs_Qle_condition in H. assert (x == 0) by lra.
        apply Qeq_bool_iff in H0. congruence. }
      assert (Hl := ilog2_le _ Hpos).
      replace (ilog2 (Qabs x) - (prec f - 1) - 1)%Z
        with (- prec f + ilog2 (Qabs x))%Z by lia.
      rewrite pow2_add.
      assert (pow2 (- prec f) * pow2 (ilog2 (Qabs x)) <= pow2 (- prec f) * Qabs x).
      { apply Qmult_le_l; [exact Hu | exact Hl]. }
      lra.
Qed.

Lemma round_fin_nonneg (f : format) (x : Q) : 0 <= x -> 0 <= round_fin f x.
Proof.
  intros Hx. unfold round_fin. destruct (Qeq_bool x 0); [lra |].
  rewrite Qred_correct. set (e := ulp_exponent f x).
  assert (Hp := pow2_pos e).
  apply Qmult_le_0_compat; [| lra].
  change 0 with (inject_Z 0). rewrite <- Zle_Qle. apply rne_nonneg.
  apply Qle_shift_div_l; [exact Hp | lra].
Qed.

Lemma round_cases (f : format) (x : Q) :
  round f x = Fin (round_fin f x)
  \/ (round f x = PInf /\ 0 <= round_fin f x)
  \/ (round f x = NInf /\ round_fin f x < 0).
Proof.
  unfold round. destruct (Qle_bool (Qabs _) _); [now left | right].
  destruct (Qle_bool 0 (round_fin f x)) eqn:E.
  - left. split; [reflexivity | now apply Qle_bool_iff].
  - right. split; [reflexivity |].
    destruct (Qlt_le_dec (round_fin f x) 0) as [H | H]; [exact H |].
    apply Qle_bool_iff in H. congruence.
Qed.

Lemma round_nonneg (f : format) (x : Q) :
  0 <= x ->
  round f x = Fin (round_fin f x) \/ round f x = PInf.
Proof.
  intros Hx. assert (H := round_fin_nonneg f x Hx).
  destruct (round_cases f x) as [E | [[E _] | [_ E]]]; auto. lra.
Qed.

(** What one rounding can add to or take from a value that is not too
    small: the relative error [u] twice. *)
Lemma round_fin_relative (f : format) (x : Q) :
  0 <= x -> pow2 (emin f - 1) <= pow2 (- prec f) * x ->
  x * (1 - 2 * pow2 (- prec f)) <= round_fin f x
  /\ round_fin f x <= x * (1 + 2 * pow2 (- prec f)).
Proof.
  intros Hx Hsmall. assert (H := round_fin_error f x).
  rewrite (Qabs_pos x) in H by exact Hx.
  apply Qabs_Qle_condition in H. split; lra.
Qed.

End FloatFacts.
(** * Properties of the categorical projection *)

Module ProjectionFacts.
Import DistributionalDQNLoss ProjectionCells.

(** ** One cell: floor, ceil and the degenerate-bin fix *)

Lemma floor_ceil_gap (b : Q) :
  (Qfloor b <= Qceiling b <= Qfloor b + 1)%Z.
Proof.
  split.
  - rewrite Zle_Qle. apply Qle_floor_ceiling.
  - assert (H : inject_Z (Qceiling b - 1) < inject_Z (Qfloor b + 1)).
    { eapply Qlt_trans; [apply Qceiling_lt | apply Qlt_floor]. }
    rewrite <- Zlt_Qlt in H. lia.
Qed.

Lemma floor_nonneg (b : Q) : 0 <= b -> (0 <= Qfloor b)%Z.
Proof. intros H. change 0%Z with (Qfloor 0). now apply Qfloor_resp_le. Qed.

(** After the two masked updates the bins are one apart and enclose [b],
    wherever [b >= 0] lies. *)
Lemma fixed_bins (atoms : nat) (b : Q) :
  (2 <= atoms)%nat -> 0 <= b ->
  let low := fix_low (Qfloor b) (Qceiling b) in
  let up := fix_up atoms low (Qceiling b) in
  (0 <= low /\ up = low + 1 /\ low <= Qfloor b /\ Qceiling b <= up)%Z.
Proof.
  intros Hat H0.
  destruct (floor_ceil_gap b) as [Hfc Hcf].
  assert (Hf := floor_nonneg b H0).
  cbv zeta. unfold fix_low.
  destruct (Z.ltb_spec 0 (Qceiling b)), (Z.eqb_spec (Qfloor b) (Qceiling b));
    cbn [andb]; unfold fix_up;
    repeat match goal with
           | |- context [(?x <? ?y)%Z] => destruct (Z.ltb_spec x y)
           | |- context [(?x =? ?y)%Z] => destruct (Z.eqb_spec x y)
           end; cbn [andb]; lia.
Qed.

Lemma project_cell_good (atoms : nat) (Vmin delta_z Tz b : Q) :
  (2 <= atoms)%nat ->
  position Vmin delta_z Tz = Fin b -> 0 <= b ->
  let c := project_cell atoms Vmin delta_z Tz in
  cell_b c = b /\ good_cell c.
Proof.
  intros Hat Hb H0 c. subst c. unfold project_cell, good_cell. rewrite Hb.
  cbn [to_Q cell_low cell_up cell_b].
  destruct (fixed_bins atoms b Hat H0) as (Hl & Hu & Hlf & Hcu).
  split; [reflexivity |]. split; [auto |]. split.
  - eapply Qle_trans; [| apply Qfloor_le]. now rewrite <- Zle_Qle.
  - eapply Qle_trans; [apply Qle_ceiling |]. now rewrite <- Zle_Qle.
Qed.

Lemma weights_sum_one (c : cell) :
  (cell_up c = cell_low c + 1)%Z -> weight_low c + weight_up c == 1.
Proof.
  intros H. unfold weight_low, weight_up. rewrite H, inject_Z_plus.
  change (inject_Z 1) with 1. ring.
Qed.

Lemma good_cell_weights (c : cell) :
  good_cell c ->
  0 <= weight_low c /\ 0 <= weight_up c /\ weight_low c + weight_up c == 1.
Proof.
  intros [[_ Hu] [Hlo Hhi]]. unfold weight_low, weight_up in *.
  split; [lra |]. split; [lra |]. now apply weights_sum_one.
Qed.

Lemma leak_small (atoms : nat) :
  (Z.of_nat atoms <= 2 ^ 20)%Z -> 0 <= leak atoms /\ leak atoms <= 1 # 2.
Proof.
  intros H. unfold leak. change (pow2 (-21)) with (1 # 2097152).
  assert (H0 : 0 <= inject_Z (Z.of_nat atoms)).
  { change 0 with (inject_Z 0). rewrite <- Zle_Qle. lia. }
  assert (H1 : inject_Z (Z.of_nat atoms) <= inject_Z (2 ^ 20))
    by now rewrite <- Zle_Qle.
  change (inject_Z (2 ^ 20)) with (1048576 # 1) in H1. split; lra.
Qed.

(** A [b] at most half an atom past the last one keeps [low] in the row;
    [up] is then the last atom or the index after it, and whatever a cell
    sends there is at most the excess of [b]. *)
Lemma near_cell_bins (atoms : nat) (c : cell) :
  good_cell c ->
  cell_b c <= inject_Z (Z.of_nat atoms - 1) + leak atoms ->
  leak atoms <= 1 # 2 ->
  near_cell atoms c
  /\ (cell_up c <= Z.of_nat atoms)%Z
  /\ (cell_up c = Z.of_nat atoms -> weight_up c <= leak atoms).
Proof.
  intros Hg Hb Hleak. pose proof Hg as [[Hl Hu] [Hlo Hhi]].
  assert (Hlow : (cell_low c <= Z.of_nat atoms - 1)%Z).
  { destruct (Z.le_gt_cases (cell_low c) (Z.of_nat atoms - 1)) as [H | H];
      [exact H | exfalso].
    assert (H1 : inject_Z (Z.of_nat atoms - 1 + 1) <= inject_Z (cell_low c))
      by (rewrite <- Zle_Qle; lia).
    rewrite inject_Z_plus in H1. change (inject_Z 1) with 1 in H1. lra. }
  split; [now repeat split |]. split; [lia |].
  intros Hup. unfold weight_up.
  assert (E : cell_low c = (Z.of_nat atoms - 1)%Z) by lia.
  rewrite E. lra.
Qed.

End ProjectionFacts.

Module AccumulatorFacts.
Import DistributionalDQNLoss Accumulator.

Lemma length_add_at (m : list Q) i v : length (add_at m i v) = length m.
Proof.
  revert i. induction m as [| x m IH]; intros [| i]; cbn; auto.
Qed.

Lemma add_at_ge (m : list Q) i v : (length m <= i)%nat -> add_at m i v = m.
Proof.
  revert i. induction m as [| x m IH]; intros [| i] H; cbn in *; auto; try lia.
  f_equal. apply IH. lia.
Qed.

Lemma Qsum_add_at (m : list Q) i v :
  (i < length m)%nat -> Qsum (add_at m i v) == Qsum m + v.
Proof.
  revert i. induction m as [| x m IH]; intros [| i] H; cbn in *; try lia.
  - ring.
  - rewrite IH by lia. ring.
Qed.

Lemma take_add_at n (m : list Q) i v :
  take n (add_at m i v) = add_at (take n m) i v.
Proof.
  revert n i. induction m as [| x m IH]; intros [| n] [| i]; cbn; auto.
  f_equal. apply IH.
Qed.

Lemma drop_add_at_le a (m : list Q) i v :
  (a <= i)%nat -> drop a (add_at m i v) = add_at (drop a m) (i - a) v.
Proof.
  revert m i. induction a as [| a IH]; intros m i H.
  - cbn. now rewrite Nat.sub_0_r.
  - destruct m as [| x m]; [now destruct i |].
    destruct i as [| i]; [lia |]. cbn. apply IH. lia.
Qed.

Lemma drop_add_at_gt a (m : list Q) i v :
  (i < a)%nat -> drop a (add_at m i v) = drop a m.
Proof.
  revert m i. induction a as [| a IH]; intros m i H; [lia |].
  destruct m as [| x m]; [now destruct i |].
  destruct i as [| i]; cbn; [reflexivity |]. apply IH. lia.
Qed.

Lemma segment_add_at a len (m : list Q) i v :
  (i < length m)%nat ->
  Qsum (segment a len (add_at m i v))
  == Qsum (segment a len m) + (if hit a len (Z.of_nat i) then v else 0).
Proof.
  intros Hi. unfold segment, hit.
  destruct (Z.leb_spec (Z.of_nat a) (Z.of_nat i)) as [Hai | Hai]; cbn [andb].
  - rewrite drop_add_at_le, take_add_at by lia.
    destruct (Z.ltb_spec (Z.of_nat i) (Z.of_nat (a + len))) as [Hlt | Hge].
    + apply Qsum_add_at. rewrite length_take, length_drop. lia.
    + rewrite add_at_ge; [ring |]. rewrite length_take. lia.
  - rewrite drop_add_at_gt by lia. ring.
Qed.

Lemma index_add_segment (index : list Z) (tensor : list Q) :
  forall m m', index_add_ m index tensor = Ok m' ->
    length m' = length m
    /\ forall a len,
         Qsum (segment a len m') == Qsum (segment a len m) + hits a len index tensor.
Proof.
  revert tensor. induction index as [| i index IH]; intros [| v tensor] m m' H;
    cbn in H; try discriminate.
  - injection H as <-. split; [reflexivity |]. intros. cbn. ring.
  - destruct (Z.leb_spec 0 i) as [H0 |]; [| discriminate].
    destruct (Z.ltb_spec i (Z.of_nat (length m))) as [Hlt |]; [| discriminate].
    cbn in H. apply IH in H as [Hlen Hsum].
    rewrite length_add_at in Hlen. split; [exact Hlen |].
    intros a len. rewrite Hsum, segment_add_at by lia.
    cbn [hits]. rewrite Z2Nat.id by lia. ring.
Qed.

Lemma index_add_in_bounds (index : list Z) (tensor : list Q) :
  forall m, length index = length tensor ->
    Forall (fun i => (0 <= i < Z.of_nat (length m))%Z) index ->
    is_Ok (index_add_ m index tensor).
Proof.
  revert tensor. induction index as [| i index IH]; intros [| v tensor] m Hlen Hall;
    cbn in Hlen; try discriminate.
  - now exists m.
  - inversion Hall as [| ? ? Hi Hrest]; subst. cbn.
    destruct (Z.leb_spec 0 i); [| lia].
    destruct (Z.ltb_spec i (Z.of_nat (length m))); [| lia]. cbn.
    apply IH; [lia |]. now rewrite length_add_at.
Qed.

Lemma hits_app a len (i1 i2 : list Z) (v1 v2 : list Q) :
  length i1 = length v1 ->
  hits a len (i1 ++ i2) (v1 ++ v2) == hits a len i1 v1 + hits a len i2 v2.
Proof.
  revert v1. induction i1 as [| i i1 IH]; intros [| v v1] H; cbn in H;
    try discriminate.
  - cbn. ring.
  - cbn. rewrite IH by lia. ring.
Qed.

Lemma segment_zeros a len n : Qsum (segment a len (replicate n 0)) == 0.
Proof.
  unfold segment. rewrite drop_replicate, take_replicate.
  induction (len `min` (n - a))%nat as [| k IH]; cbn; [reflexivity |].
  rewrite IH. ring.
Qed.

Lemma index_add_Ok_bounds (index : list Z) (tensor : list Q) :
  forall m m', index_add_ m index tensor = Ok m' ->
    length index = length tensor
    /\ Forall (fun i => (0 <= i < Z.of_nat (length m))%Z) index.
Proof.
  revert tensor. induction index as [| i index IH]; intros [| v tensor] m m' H;
    cbn in H; try discriminate.
  - split; [reflexivity | constructor].
  - destruct (Z.leb_spec 0 i) as [H0 |]; [| discriminate].
    destruct (Z.ltb_spec i (Z.of_nat (length m))) as [Hlt |]; [| discriminate].
    cbn in H. apply IH in H as [Hlen Hall].
    rewrite length_add_at in Hall. split; [cbn; lia |].
    constructor; [lia | exact Hall].
Qed.

Lemma hits_everything (len : nat) (index : list Z) :
  forall tensor : list Q, length index = length tensor ->
    Forall (fun i => (0 <= i < Z.of_nat len)%Z) index ->
    hits 0 len index tensor == Qsum tensor.
Proof.
  induction index as [| i index IH]; intros [| v tensor] Hlen Hall;
    cbn in Hlen; try discriminate; [reflexivity |].
  inversion Hall as [| ? ? Hi Hrest]; subst. cbn [hits Qsum].
  rewrite IH by (auto; lia). unfold hit.
  destruct (Z.leb_spec (Z.of_nat 0) i); [| lia].
  destruct (Z.ltb_spec i (Z.of_nat (0 + len))); [| lia].
  cbn [andb]. reflexivity.
Qed.

Lemma Qsum_app (l1 l2 : list Q) : Qsum (l1 ++ l2) == Qsum l1 + Qsum l2.
Proof. induction l1 as [| x l1 IH]; cbn; [ring |]. rewrite IH. ring. Qed.

End AccumulatorFacts.
Module RowFacts.
Import DistributionalDQNLoss Accumulator AccumulatorFacts.

(** ** Which segment an index falls into *)

Lemma rows_apart (n k len : nat) :
  (n < k -> (n + 1) * len <= k * len)%nat
  /\ (k < n -> (k + 1) * len <= n * len)%nat.
Proof. split; intros H; apply Nat.mul_le_mono_r; lia. Qed.

(** An index of row [k] that is an atom of the row, or the one after its
    last atom, falls into row [n] when [n = k] and it is an atom, or when
    [n = k + 1] and it is the one after. *)
Lemma hit_near_row n k len (s : Z) :
  (0 < len)%nat -> (0 <= s <= Z.of_nat len)%Z ->
  hit (n * len) len (s + Z.of_nat (k * len))
  = ((n =? k)%nat && (s <? Z.of_nat len)%Z)
    || ((n =? S k)%nat && (s =? Z.of_nat len)%Z).
Proof.
  intros Hlen Hs. unfold hit.
  destruct (rows_apart n k len) as [Hlt _].
  destruct (rows_apart n (S k) len) as [_ Hgt].
  destruct (Nat.eqb_spec n k) as [Enk | Hnk];
    destruct (Nat.eqb_spec n (S k)) as [E | HnSk]; try lia; cbn [andb orb].
  - subst n.
    destruct (Z.leb_spec (Z.of_nat (k * len)) (s + Z.of_nat (k * len)));
      destruct (Z.ltb_spec (s + Z.of_nat (k * len)) (Z.of_nat (k * len + len)));
      destruct (Z.ltb_spec s (Z.of_nat len)); cbn; auto; lia.
  - subst n.
    destruct (Z.leb_spec (Z.of_nat (S k * len)) (s + Z.of_nat (k * len)));
      destruct (Z.ltb_spec (s + Z.of_nat (k * len)) (Z.of_nat (S k * len + len)));
      destruct (Z.eqb_spec s (Z.of_nat len)); cbn; auto; lia.
  - destruct (Nat.lt_ge_cases n k) as [H | H].
    + specialize (Hlt H).
      destruct (Z.leb_spec (Z.of_nat (n * len)) (s + Z.of_nat (k * len)));
        destruct (Z.ltb_spec (s + Z.of_nat (k * len)) (Z.of_nat (n * len + len)));
        cbn; auto; lia.
    + assert (H2 : (S k < n)%nat) by lia. specialize (Hgt H2).
      destruct (Z.leb_spec (Z.of_nat (n * len)) (s + Z.of_nat (k * len)));
        destruct (Z.ltb_spec (s + Z.of_nat (k * len)) (Z.of_nat (n * len + len)));
        cbn; auto; lia.
Qed.

(** The same for the single atom [j] of row [n]. *)
Lemma hit_near_entry n k len j (s : Z) :
  (j < len)%nat -> (0 <= s <= Z.of_nat len)%Z ->
  hit (n * len + j) 1 (s + Z.of_nat (k * len))
  = ((n =? k)%nat && (s =? Z.of_nat j)%Z)
    || ((n =? S k)%nat && ((s =? Z.of_nat len)%Z && (j =? 0)%nat)).
Proof.
  intros Hj Hs. unfold hit.
  destruct (rows_apart n k len) as [Hlt _].
  destruct (rows_apart n (S k) len) as [_ Hgt].
  destruct (Nat.eqb_spec n k) as [Enk | Hnk];
    destruct (Nat.eqb_spec n (S k)) as [E | HnSk]; try lia; cbn [andb orb].
  - subst n.
    destruct (Z.leb_spec (Z.of_nat (k * len + j)) (s + Z.of_nat (k * len)));
      destruct (Z.ltb_spec (s + Z.of_nat (k * len)) (Z.of_nat (k * len + j + 1)));
      destruct (Z.eqb_spec s (Z.of_nat j)); cbn; auto; lia.
  - subst n.
    destruct (Z.leb_spec (Z.of_nat (S k * len + j)) (s + Z.of_nat (k * len)));
      destruct (Z.ltb_spec (s + Z.of_nat (k * len)) (Z.of_nat (S k * len + j + 1)));
      destruct (Z.eqb_spec s (Z.of_nat len));
      destruct (Nat.eqb_spec j 0); cbn; auto; lia.
  - destruct (Nat.lt_ge_cases n k) as [H | H].
    + specialize (Hlt H).
      destruct (Z.leb_spec (Z.of_nat (n * len + j)) (s + Z.of_nat (k * len)));
        destruct (Z.ltb_spec (s + Z.of_nat (k * len)) (Z.of_nat (n * len + j + 1)));
        cbn; auto; lia.
    + assert (H2 : (S k < n)%nat) by lia. specialize (Hgt H2).
      destruct (Z.leb_spec (Z.of_nat (n * len + j)) (s + Z.of_nat (k * len)));
        destruct (Z.ltb_spec (s + Z.of_nat (k * len)) (Z.of_nat (n * len + j + 1)));
        cbn; auto; lia.
Qed.

(** ** Sums over the rows *)

Lemma row_sum_nil_r (share : Q -> cell -> Q) (ps : list Q) :
  row_sum share ps [] == 0.
Proof. unfold row_sum. now destruct ps. Qed.

Lemma row_sum_nil_l (share : Q -> cell -> Q) (row : list cell) :
  row_sum share [] row == 0.
Proof. reflexivity. Qed.

Lemma row_sum_ext (f g : Q -> cell -> Q) (P : cell -> Prop) (row : list cell) :
  forall ps : list Q, Forall P row ->
    (forall p c, P c -> f p c == g p c) ->
    row_sum f ps row == row_sum g ps row.
Proof.
  unfold row_sum. induction row as [| c row IH]; intros [| p ps] Hall Hfg;
    cbn; try reflexivity.
  inversion Hall as [| ? ? Hc Hrow]; subst.
  rewrite (Hfg p c Hc), (IH ps Hrow Hfg). reflexivity.
Qed.

Lemma row_sum_plus (f g : Q -> cell -> Q) (row : list cell) :
  forall ps : list Q,
    row_sum (fun p c => f p c + g p c) ps row
    == row_sum f ps row + row_sum g ps row.
Proof.
  unfold row_sum. induction row as [| c row IH]; intros [| p ps]; cbn;
    try ring.
  rewrite IH. ring.
Qed.

Lemma row_sum_zero (row : list cell) :
  forall ps : list Q, row_sum (fun _ _ => 0) ps row == 0.
Proof.
  unfold row_sum. induction row as [| c row IH]; intros [| p ps]; cbn;
    try reflexivity.
  rewrite IH. ring.
Qed.

Lemma row_sum_when (b1 b2 : bool) (f g : Q -> cell -> Q) (ps : list Q)
    (row : list cell) :
  row_sum (fun p c => (if b1 then f p c else 0) + (if b2 then g p c else 0))
    ps row
  == (if b1 then row_sum f ps row else 0) + (if b2 then row_sum g ps row else 0).
Proof.
  rewrite row_sum_plus. destruct b1, b2; rewrite ?row_sum_zero; reflexivity.
Qed.



Section Shares.
Variables (sel : cell -> Z) (w : cell -> Q) (len a l : nat).
Variable share : nat -> Q -> cell -> Q.
Variable P : cell -> Prop.
Hypothesis share_hit : forall k p c, P c ->
  (if hit a l (sel c + Z.of_nat (k * len)) then p * w c else 0) == share k p c.

Lemma hits_row_share k (row : list cell) :
  forall ps : list Q, length ps = length row -> Forall P row ->
    hits a l (map (fun c => (sel c + Z.of_nat (k * len))%Z) row)
         (zip_with (fun p c => p * w c) ps row)
    == row_sum (share k) ps row.
Proof using share_hit.
  unfold row_sum.
  induction row as [| c row IH]; intros [| p ps] Hlen Hall; cbn in Hlen;
    try discriminate; [reflexivity |].
  inversion Hall as [| ? ? Hc Hrow]; subst. cbn.
  rewrite (share_hit k p c Hc). rewrite IH by (auto; lia). reflexivity.
Qed.

Lemma hits_rows_share (cells : list (list cell)) :
  forall (pns : list (list Q)) (s : nat),
    Forall2 (fun ps row => length ps = length row) pns cells ->
    Forall (Forall P) cells ->
    hits a l
      (flat_index sel (map (fun k => Z.of_nat (k * len)) (seq s (length cells)))
         cells)
      (flat_weighted w pns cells)
    == rows_sum share s pns cells.
Proof using share_hit.
  induction cells as [| row cells IH]; intros pns s Hshape Hall;
    inversion Hshape as [| ps ? pns' ? Hlen Hshape']; subst; [reflexivity |].
  inversion Hall as [| ? ? Hrow Hcells]; subst.
  unfold flat_index, flat_weighted in *.
  cbn [length seq map zip_with concat rows_sum].
  rewrite hits_app by now rewrite length_map, length_zip_with_r_eq.
  rewrite hits_row_share by assumption.
  rewrite (IH pns' (S s) Hshape' Hcells). reflexivity.
Qed.
End Shares.

(** A share rule that gives row [n] one part of its own cells and another
    part of the cells of row [n - 1]. *)
Lemma rows_sum_two (f g : Q -> cell -> Q) (n : nat) (pns : list (list Q)) :
  forall (cells : list (list cell)) (s : nat),
    rows_sum (fun k p c => (if (n =? k)%nat then f p c else 0)
                           + (if (n =? S k)%nat then g p c else 0))
      s pns cells
    == (if (s <=? n)%nat
        then row_sum f (row_at pns (n - s)) (row_at cells (n - s)) else 0)
       + (if (s <? n)%nat
          then row_sum g (row_at pns (n - S s)) (row_at cells (n - S s))
          else 0).
Proof.
  induction pns as [| ps pns IH]; intros cells s.
  - cbn [rows_sum]. unfold row_at. rewrite !lookup_nil. cbn [default].
    destruct (s <=? n)%nat, (s <? n)%nat; rewrite ?row_sum_nil_l; reflexivity.
  - destruct cells as [| row cells].
    + cbn [rows_sum]. unfold row_at at 2 4. rewrite !lookup_nil. cbn [default].
      destruct (s <=? n)%nat, (s <? n)%nat; rewrite ?row_sum_nil_r; reflexivity.
    + cbn [rows_sum]. rewrite row_sum_when, IH. unfold row_at.
      destruct (Nat.eqb_spec n s) as [-> | Hns].
      * destruct (Nat.eqb_spec s (S s)); [lia |].
        destruct (Nat.leb_spec (S s) s); [lia |].
        destruct (Nat.ltb_spec (S s) s); [lia |].
        destruct (Nat.leb_spec s s); [| lia].
        destruct (Nat.ltb_spec s s); [lia |].
        rewrite Nat.sub_diag. simpl. ring.
      * destruct (Nat.eqb_spec n (S s)) as [-> | HnSs].
        -- destruct (Nat.leb_spec (S s) (S s)); [| lia].
           destruct (Nat.ltb_spec (S s) (S s)); [lia |].
           destruct (Nat.leb_spec s (S s)); [| lia].
           destruct (Nat.ltb_spec s (S s)); [| lia].
           rewrite Nat.sub_diag. replace (S s - s)%nat with 1%nat by lia.
           simpl. ring.
        -- destruct (Nat.leb_spec (S s) n);
             destruct (Nat.ltb_spec (S s) n);
             destruct (Nat.leb_spec s n);
             destruct (Nat.ltb_spec s n); try lia; try (simpl; ring).
           assert (E1 : (n - s = S (S (n - S (S s))))%nat) by lia.
           assert (E2 : (n - S s = S (n - S (S s)))%nat) by lia.
           rewrite E1, E2. simpl. ring.
Qed.

Section NearRows.
Variables (sel : cell -> Z) (w : cell -> Q) (len : nat).
Hypothesis len_pos : (0 < len)%nat.

(** What the cells of all rows send into row [n]: what its own cells keep,
    and what the cells of the row before it send past their end. *)
Lemma hits_near_rows n (cells : list (list cell)) (pns : list (list Q)) :
  Forall2 (fun ps row => length ps = length row) pns cells ->
  Forall (Forall (near_row sel len)) cells ->
  hits (n * len) len
    (flat_index sel (map (fun k => Z.of_nat (k * len)) (seq 0 (length cells)))
       cells)
    (flat_weighted w pns cells)
  == row_sum (kept sel w len) (row_at pns n) (row_at cells n)
     + match n with
       | O => 0
       | S k => row_sum (spilled sel w len) (row_at pns k) (row_at cells k)
       end.
Proof using len_pos.
  intros Hshape Hall.
  rewrite (hits_rows_share sel w len (n * len) len
             (fun k p c => (if (n =? k)%nat then kept sel w len p c else 0)
                           + (if (n =? S k)%nat then spilled sel w len p c else 0))
             (near_row sel len)); [| | exact Hshape | exact Hall].
  - rewrite rows_sum_two. cbn [Nat.leb]. rewrite Nat.sub_0_r.
    destruct n as [| k]; [reflexivity |].
    cbn [Nat.ltb Nat.leb]. now replace (S k - 1)%nat with k by lia.
  - intros k p c Hc. rewrite hit_near_row by (exact len_pos || exact Hc).
    unfold kept, spilled, near_row in *.
    destruct (Nat.eqb_spec n k), (Nat.eqb_spec n (S k)); try lia; cbn [andb orb];
      destruct (sel c <? Z.of_nat len)%Z eqn:E1;
      destruct (sel c =? Z.of_nat len)%Z eqn:E2; cbn; try ring; lia.
Qed.

(** What they send onto atom [j] of row [n]. *)
Lemma hits_near_entry n j (cells : list (list cell)) (pns : list (list Q)) :
  (j < len)%nat ->
  Forall2 (fun ps row => length ps = length row) pns cells ->
  Forall (Forall (near_row sel len)) cells ->
  hits (n * len + j) 1
    (flat_index sel (map (fun k => Z.of_nat (k * len)) (seq 0 (length cells)))
       cells)
    (flat_weighted w pns cells)
  == row_sum (landed sel w (Z.of_nat j)) (row_at pns n) (row_at cells n)
     + match n, j with
       | S k, O => row_sum (landed sel w (Z.of_nat len)) (row_at pns k)
                     (row_at cells k)
       | _, _ => 0
       end.
Proof using len_pos.
  intros Hj Hshape Hall.
  rewrite (hits_rows_share sel w len (n * len + j) 1
             (fun k p c =>
                (if (n =? k)%nat then landed sel w (Z.of_nat j) p c else 0)
                + (if (n =? S k)%nat
                   then (if (j =? 0)%nat then landed sel w (Z.of_nat len) p c
                         else 0)
                   else 0))
             (near_row sel len)); [| | exact Hshape | exact Hall].
  - rewrite rows_sum_two. cbn [Nat.leb]. rewrite Nat.sub_0_r.
    destruct n as [| k]; [destruct j; cbn; ring |].
    cbn [Nat.ltb Nat.leb]. replace (S k - 1)%nat with k by lia.
    destruct j as [| j']; cbn [Nat.eqb]; [reflexivity |].
    rewrite row_sum_zero. reflexivity.
  - intros k p c Hc. rewrite hit_near_entry by (exact Hj || exact Hc).
    unfold landed.
    destruct (Nat.eqb_spec n k), (Nat.eqb_spec n (S k)); try lia; cbn [andb orb];
      destruct (sel c =? Z.of_nat j)%Z;
      destruct (sel c =? Z.of_nat len)%Z;
      destruct (j =? 0)%nat; cbn; ring.
Qed.
End NearRows.

Lemma split_weights (row : list cell) :
  forall ps : list Q,
    Forall (fun c => (cell_up c = cell_low c + 1)%Z) row ->
    row_sum (fun p c => p * weight_low c) ps row
    + row_sum (fun p c => p * weight_up c) ps row
    == Qsum (take (length row) ps).
Proof.
  unfold row_sum.
  induction row as [| c row IH]; intros [| p ps] Hall; cbn; try ring.
  inversion Hall as [| ? ? Hc Hrow]; subst.
  rewrite <- (IH ps Hrow).
  assert (Hw := ProjectionFacts.weights_sum_one c Hc).
  transitivity (p * (weight_low c + weight_up c)
                + (Qsum (zip_with (fun p c => p * weight_low c) ps row)
                   + Qsum (zip_with (fun p c => p * weight_up c) ps row))).
  - ring.
  - rewrite Hw. ring.
Qed.

End RowFacts.
Module BellmanFacts.
Import DistributionalDQNLoss ProjectionInputs ProjectionCells FloatFacts.

Ltac step_result H :=
  match type of H with
  | context [match ?r with Ok _ => _ | Raise _ => _ end] =>
      let E := fresh "E" in destruct r eqn:E; [| discriminate H]
  end.

(** ** The extremes of the support *)

Lemma fold_min_le (l : list Q) : forall x, fold_left Qmin l x <= x.
Proof.
  induction l as [| y l IH]; intros x; cbn; [apply Qle_refl |].
  eapply Qle_trans; [apply IH | apply Q.le_min_l].
Qed.

Lemma fold_max_ge (l : list Q) : forall x, x <= fold_left Qmax l x.
Proof.
  induction l as [| y l IH]; intros x; cbn; [apply Qle_refl |].
  eapply Qle_trans; [apply Q.le_max_l | apply IH].
Qed.

Lemma tensor_min_le_max (l : list Q) (lo hi : Q) :
  tensor_min l = Ok lo -> tensor_max l = Ok hi -> lo <= hi.
Proof.
  destruct l as [| x l]; cbn; [discriminate |]. intros [= <-] [= <-].
  eapply Qle_trans; [apply fold_min_le | apply fold_max_ge].
Qed.

Lemma clamp_bounds (lo hi : Q) (x : fval) :
  lo <= hi -> isfinite (clamp lo hi x) = true ->
  lo <= to_Q (clamp lo hi x) <= hi.
Proof.
  intros Hle Hfin. destruct x as [q | | |]; cbn in *; try discriminate.
  - split; [apply Q.min_glb; [apply Q.le_max_r | exact Hle] | apply Q.le_min_r].
  - split; [exact Hle | apply Qle_refl].
  - split; [apply Q.min_glb; [apply Qle_refl | exact Hle] | apply Q.le_min_r].
Qed.

Lemma has_shape_spec {A} (rows cols_ : nat) (t : list (list A)) :
  has_shape rows cols_ t = true <->
  length t = rows /\ Forall (fun r => length r = cols_) t.
Proof.
  unfold has_shape. rewrite andb_true_iff, Nat.eqb_eq, forallb_forall, Forall_forall.
  split; intros [H1 H2]; (split; [exact H1 |]); intros r Hr.
  - apply Nat.eqb_eq, H2. now apply list_elem_of_In.
  - apply Nat.eqb_eq, H2. now apply list_elem_of_In.
Qed.

(** What a successful [bellman_support] returns. *)
Lemma bellman_support_Ok (inp : projection_input) Vmin delta_z Tz :
  bellman_support inp = Ok (Vmin, delta_z, Tz) ->
  exists Vmax,
    tensor_min (support inp) = Ok Vmin
    /\ tensor_max (support inp) = Ok Vmax
    /\ Vmin <= Vmax
    /\ (2 <= length (support inp))%nat
    /\ delta_z = python_delta_z Vmin Vmax (length (support inp))
    /\ length Tz = batch_size inp
    /\ Forall (fun row => length row = length (support inp)
                          /\ Forall (fun x => Vmin <= x <= Vmax) row) Tz.
Proof.
  intros H. unfold bellman_support, mbind, result_bind in H.
  destruct (tensor_min (support inp)) as [lo |] eqn:Emin; [| discriminate].
  destruct (tensor_max (support inp)) as [hi |] eqn:Emax; [| discriminate].
  destruct (Nat.eqb_spec (length (support inp) - 1) 0) as [| Hat];
    [discriminate |].
  unfold shifted_support, mbind, result_bind in H.
  destruct (columns (reward inp) (done inp) (discount inp)) as [cols |] eqn:Ecols;
    [| discriminate].
  destruct (has_shape _ _ (Tz_rows (support inp) cols)) eqn:Eshape;
    [| discriminate]. cbn [negb] in H.
  destruct (forallb _ _) eqn:Efin; [| discriminate]. cbn [negb] in H.
  injection H as <- <- <-.
  assert (Hle := tensor_min_le_max _ _ _ Emin Emax).
  apply has_shape_spec in Eshape as [Hrows _].
  exists hi. repeat split; auto; try lia.
  - now rewrite !length_map.
  - unfold Tz_rows in *. rewrite forallb_forall in Efin.
    rewrite !Forall_map. apply Forall_forall. intros [[r d] g] Hin.
    split; [now rewrite !length_map |].
    rewrite !Forall_map. apply Forall_forall. intros z Hz.
    apply clamp_bounds; [exact Hle |].
    specialize (Efin (map (clamp lo hi) (map (Tz_cell r d g) (support inp)))).
    rewrite forallb_forall in Efin. apply Efin.
    + apply in_map_iff. eexists. split; [reflexivity |].
      apply in_map_iff. exists (r, d, g). split; [reflexivity |].
      now apply list_elem_of_In.
    + apply in_map, in_map. now apply list_elem_of_In.
Qed.

(** ** The position [b] of a clamped element *)

Lemma python_delta_z_nonneg (Vmin Vmax : Q) (atoms : nat) :
  Vmin <= Vmax -> 0 <= python_delta_z Vmin Vmax atoms.
Proof.
  intros H. unfold python_delta_z. apply round_fin_nonneg.
  assert (H1 : 0 <= round_fin binary64 (Vmax - Vmin))
    by (apply round_fin_nonneg; lra).
  destruct (Nat.eq_dec (atoms - 1)%nat 0%nat) as [-> | Hne].
  - unfold Qdiv. change (/ inject_Z (Z.of_nat 0)) with 0. lra.
  - apply Qle_shift_div_l; [| lra].
    change 0 with (inject_Z 0). rewrite <- Zlt_Qlt. lia.
Qed.

Lemma inf_times_not_Fin (pos : bool) (a b : Q) : inf_times pos a <> Fin b.
Proof. unfold inf_times. destruct (a ?= 0), pos; discriminate. Qed.

(** A finite [b] is zero (an overflowing [delta_z]) or the rounded
    quotient of the rounded difference by a positive divisor. *)
Lemma position_Fin (Vmin delta_z Tz b : Q) :
  Vmin <= Tz -> 0 <= delta_z ->
  position Vmin delta_z Tz = Fin b ->
  (round binary32 delta_z = PInf /\ b = 0)
  \/ (0 < round_fin binary32 delta_z
      /\ b = round_fin binary32
               (round_fin binary32 (Tz + - Vmin) / round_fin binary32 delta_z)).
Proof.
  intros Htz Hdz. unfold position. cbn [fneg fadd].
  destruct (round_nonneg binary32 (Tz + - Vmin)) as [-> | ->]; [lra | |];
    destruct (round_nonneg binary32 delta_z Hdz) as [Ed | Ed]; rewrite Ed; cbn [fdiv].
  - destruct (Qeq_bool (round_fin binary32 delta_z) 0) eqn:E0.
    + intros H. now apply inf_times_not_Fin in H.
    + intros H. right.
      assert (Hd := round_fin_nonneg binary32 delta_z Hdz).
      assert (Hne : ~ round_fin binary32 delta_z == 0).
      { intros E. apply Qeq_bool_iff in E. congruence. }
      split; [lra |].
      destruct (round_cases binary32
                  (round_fin binary32 (Tz + - Vmin) / round_fin binary32 delta_z))
        as [E | [[E _] | [E _]]]; rewrite E in H; congruence.
  - intros [= <-]. now left.
  - destruct (Qle_bool 0 (round_fin binary32 delta_z)); discriminate.
  - discriminate.
Qed.

Lemma position_nonneg (Vmin delta_z Tz b : Q) :
  Vmin <= Tz -> 0 <= delta_z ->
  position Vmin delta_z Tz = Fin b -> 0 <= b.
Proof.
  intros Htz Hdz H.
  destruct (position_Fin _ _ _ _ Htz Hdz H) as [[_ ->] | [Hd ->]]; [lra |].
  apply round_fin_nonneg. apply Qle_shift_div_l; [exact Hd |].
  assert (0 <= round_fin binary32 (Tz + - Vmin))
    by (apply round_fin_nonneg; lra).
  lra.
Qed.

(** ** How far [b] can pass the last atom *)

Lemma round32_relative (x : Q) :
  pow2 (-126) <= x ->
  x * (1 - pow2 (-23)) <= round_fin binary32 x
  /\ round_fin binary32 x <= x * (1 + pow2 (-23)).
Proof.
  intros Hx. assert (H0 := pow2_pos (-126)).
  destruct (round_fin_relative binary32 x) as [Hlo Hhi]; [lra | |].
  - cbn [prec emin binary32]. change (-149 - 1)%Z with (-24 + -126)%Z.
    rewrite pow2_add. change (- (24))%Z with (-24)%Z.
    apply Qmult_le_l; [apply pow2_pos | exact Hx].
  - cbn [prec binary32] in Hlo, Hhi.
    change (2 * pow2 (- (24))) with (2 * pow2 (-1 + -23)) in Hlo, Hhi.
    assert (E : 2 * pow2 (-1 + -23) == pow2 (-23)).
    { rewrite pow2_add. change (pow2 (-1)) with (1 # 2). ring. }
    rewrite E in Hlo, Hhi. split; assumption.
Qed.

Lemma round64_relative (x : Q) :
  pow2 (-1022) <= x ->
  x * (1 - pow2 (-52)) <= round_fin binary64 x
  /\ round_fin binary64 x <= x * (1 + pow2 (-52)).
Proof.
  intros Hx. assert (H0 := pow2_pos (-1022)).
  destruct (round_fin_relative binary64 x) as [Hlo Hhi]; [lra | |].
  - cbn [prec emin binary64]. change (-1074 - 1)%Z with (-53 + -1022)%Z.
    rewrite pow2_add. change (- (53))%Z with (-53)%Z.
    apply Qmult_le_l; [apply pow2_pos | exact Hx].
  - cbn [prec binary64] in Hlo, Hhi.
    change (2 * pow2 (- (53))) with (2 * pow2 (-1 + -52)) in Hlo, Hhi.
    assert (E : 2 * pow2 (-1 + -52) == pow2 (-52)).
    { rewrite pow2_add. change (pow2 (-1)) with (1 # 2). ring. }
    rewrite E in Hlo, Hhi. split; assumption.
Qed.

Lemma round32_above (x : Q) :
  0 <= x -> round_fin binary32 x <= x * (1 + pow2 (-24)) + pow2 (-150).
Proof.
  intros Hx. assert (H := round_fin_error binary32 x).
  rewrite (Qabs_pos x) in H by exact Hx.
  apply Qabs_Qle_condition in H. cbn [prec emin binary32] in H.
  change (- (24))%Z with (-24)%Z in H. change (-149 - 1)%Z with (-150)%Z in H.
  lra.
Qed.

(** [delta_z], as Python computes it, times the number of gaps is the
    width of the support up to two roundings, and is no subnormal
    float32. *)
Lemma python_delta_z_lower (Vmin Vmax : Q) (atoms : nat) :
  let K := inject_Z (Z.of_nat (atoms - 1)) in
  1 <= K -> pow2 (-125) * K <= Vmax - Vmin ->
  (1 - pow2 (-52)) * (1 - pow2 (-52)) * (Vmax - Vmin)
  <= python_delta_z Vmin Vmax atoms * K
  /\ pow2 (-126) <= python_delta_z Vmin Vmax atoms.
Proof.
  intros K HK HR. unfold python_delta_z. fold K.
  set (R := Vmax - Vmin) in *.
  assert (H125 : pow2 (-125) == 1 # 42535295865117307932921825928971026432)
    by reflexivity.
  assert (H126 : pow2 (-126) == 1 # 85070591730234615865843651857942052864)
    by reflexivity.
  assert (H52 : pow2 (-52) == 1 # 4503599627370496) by reflexivity.
  assert (H1022 : pow2 (-1022) <= pow2 (-126)).
  { apply Qle_bool_iff. vm_compute. reflexivity. }
  rewrite H125 in HR. rewrite H126 in H1022 |- *. rewrite H52.
  assert (HR0 : (1 # 42535295865117307932921825928971026432) <= R).
  { assert ((1 # 42535295865117307932921825928971026432) * 1
            <= (1 # 42535295865117307932921825928971026432) * K)
      by (apply Qmult_le_l; [reflexivity | exact HK]).
    lra. }
  destruct (round64_relative R) as [Hlo _]; [lra |]. rewrite H52 in Hlo.
  set (R64 := round_fin binary64 R) in *.
  assert (HKpos : 0 < K) by lra.
  set (q := R64 / K).
  assert (Eq : q * K == R64) by (unfold q; field; lra).
  assert (Hq : (1 # 42535295865117307932921825928971026432)
               * (1 - (1 # 4503599627370496)) <= q).
  { apply Qle_shift_div_l; [exact HKpos |].
    assert ((1 # 42535295865117307932921825928971026432) * K
            * (1 - (1 # 4503599627370496))
            <= R * (1 - (1 # 4503599627370496)))
      by (apply Qmult_le_compat_r; [exact HR | lra]).
    lra. }
  destruct (round64_relative q) as [Hlo2 _]; [lra |]. rewrite H52 in Hlo2.
  set (dz := round_fin binary64 q) in *.
  split.
  - assert (q * (1 - (1 # 4503599627370496)) * K <= dz * K)
      by (apply Qmult_le_compat_r; [exact Hlo2 | lra]).
    assert (E2 : q * (1 - (1 # 4503599627370496)) * K
                 == R64 * (1 - (1 # 4503599627370496))).
    { rewrite <- Eq. ring. }
    assert (R * (1 - (1 # 4503599627370496)) * (1 - (1 # 4503599627370496))
            <= R64 * (1 - (1 # 4503599627370496)))
      by (apply Qmult_le_compat_r; [exact Hlo | lra]).
    lra.
  - assert ((1 # 42535295865117307932921825928971026432)
            * (1 - (1 # 4503599627370496)) * (1 - (1 # 4503599627370496))
            <= q * (1 - (1 # 4503599627370496)))
      by (apply Qmult_le_compat_r; [exact Hq | lra]).
    lra.
Qed.

(** On a support the float32 grid resolves, the [b] of an element clamped
    into [Vmin, Vmax] is at most [atoms - 1] plus [leak atoms]: the three
    roundings on the way (of [delta_z], of [Tz - Vmin] and of the quotient)
    can push it past the last atom, but not far. *)
Lemma position_bound (Vmin Vmax Tz b : Q) (atoms : nat) :
  let K := inject_Z (Z.of_nat (atoms - 1)) in
  1 <= K -> pow2 (-125) * K <= Vmax - Vmin ->
  Vmin <= Tz <= Vmax ->
  position Vmin (python_delta_z Vmin Vmax atoms) Tz = Fin b ->
  b <= K + (K + 1) * pow2 (-21).
Proof.
  intros K HK HR [Hlo Hhi] Hb.
  assert (H21 : pow2 (-21) == 1 # 2097152) by reflexivity.
  rewrite H21.
  assert (Hdz0 : 0 <= python_delta_z Vmin Vmax atoms)
    by (apply python_delta_z_nonneg; lra).
  destruct (position_Fin _ _ _ _ Hlo Hdz0 Hb) as [[_ ->] | [Hd ->]]; [lra |].
  destruct (python_delta_z_lower Vmin Vmax atoms HK HR) as [Hdz Hnorm].
  fold K in Hdz.
  set (dz := python_delta_z Vmin Vmax atoms) in *.
  set (R := Vmax - Vmin) in *.
  destruct (round32_relative dz Hnorm) as [Hdlo _].
  set (d := round_fin binary32 dz) in *.
  assert (Hx0 : 0 <= round_fin binary32 (Tz + - Vmin))
    by (apply round_fin_nonneg; lra).
  assert (Hx := round32_above (Tz + - Vmin)).
  set (x := round_fin binary32 (Tz + - Vmin)) in *.
  set (t := x / d).
  assert (Et : t * d == x) by (unfold t; field; lra).
  assert (Ht0 : 0 <= t) by (apply Qle_shift_div_l; [exact Hd | lra]).
  assert (Hbt := round32_above t Ht0).
  set (b := round_fin binary32 t) in *.
  assert (H52 : pow2 (-52) == 1 # 4503599627370496) by reflexivity.
  assert (H23 : pow2 (-23) == 1 # 8388608) by reflexivity.
  assert (H24 : pow2 (-24) == 1 # 16777216) by reflexivity.
  assert (H150 : pow2 (-150)
                 == 1 # 1427247692705959881058285969449495136382746624)
    by reflexivity.
  assert (H126 : pow2 (-126) == 1 # 85070591730234615865843651857942052864)
    by reflexivity.
  rewrite H52 in Hdz. rewrite H23 in Hdlo. rewrite H24, H150 in Hx, Hbt.
  rewrite H126 in Hnorm.
  assert (HKpos : 0 < K) by lra.
  assert (HR0 : 0 <= R) by (unfold R; lra).
  (* the divisor against the width of the support *)
  set (c := (1 - (1 # 4503599627370496)) * (1 - (1 # 4503599627370496))
            * (1 - (1 # 8388608))).
  assert (Hc : c * R <= d * K).
  { assert (H1 : dz * (1 - (1 # 8388608)) * K <= d * K)
      by (apply Qmult_le_compat_r; [exact Hdlo | lra]).
    assert (H2 : (1 - (1 # 4503599627370496)) * (1 - (1 # 4503599627370496))
                 * R * (1 - (1 # 8388608))
                 <= dz * K * (1 - (1 # 8388608)))
      by (apply Qmult_le_compat_r; [exact Hdz | lra]).
    unfold c. lra. }
  assert (Hdmin : (1 # 85070591730234615865843651857942052864)
                  * (1 - (1 # 8388608)) <= d).
  { assert ((1 # 85070591730234615865843651857942052864) * (1 - (1 # 8388608))
            <= dz * (1 - (1 # 8388608)))
      by (apply Qmult_le_compat_r; [exact Hnorm | lra]).
    lra. }
  (* the quotient *)
  assert (Hxa : x <= R * (1 + (1 # 16777216))
                     + (1 # 1427247692705959881058285969449495136382746624)).
  { assert (Tz + - Vmin <= R) by (unfold R; lra).
    assert ((Tz + - Vmin) * (1 + (1 # 16777216)) <= R * (1 + (1 # 16777216)))
      by (apply Qmult_le_compat_r; [assumption | lra]).
    assert (0 <= Tz + - Vmin) by lra. specialize (Hx H1). lra. }
  assert (Hct : c * t <= K * (1 + (1 # 16777216)) + (1 # 8388608)).
  { apply (Qmult_le_r _ _ d Hd).
    assert (E1 : c * t * d == c * x) by (rewrite <- Et; ring).
    rewrite E1.
    assert (Hcx : c * x <= c * (R * (1 + (1 # 16777216))
                                + (1 # 1427247692705959881058285969449495136382746624))).
    { apply Qmult_le_l; [unfold c; reflexivity | exact Hxa]. }
    assert (HcR : c * R * (1 + (1 # 16777216)) <= d * K * (1 + (1 # 16777216)))
      by (apply Qmult_le_compat_r; [exact Hc | lra]).
    assert (Hce : c * (1 # 1427247692705959881058285969449495136382746624)
                  <= (1 # 8388608) * d).
    { assert ((1 # 8388608) * ((1 # 85070591730234615865843651857942052864)
                               * (1 - (1 # 8388608)))
              <= (1 # 8388608) * d)
        by (apply Qmult_le_l; [reflexivity | exact Hdmin]).
      unfold c. lra. }
    lra. }
  (* the rounded quotient *)
  assert (Hcb : c * b <= c * (t * (1 + (1 # 16777216))
                              + (1 # 1427247692705959881058285969449495136382746624)))
    by (apply Qmult_le_l; [unfold c; reflexivity | exact Hbt]).
  assert (Hct2 : c * t * (1 + (1 # 16777216))
                 <= (K * (1 + (1 # 16777216)) + (1 # 8388608))
                    * (1 + (1 # 16777216)))
    by (apply Qmult_le_compat_r; [exact Hct | lra]).
  apply (Qmult_le_l _ _ c); [unfold c; reflexivity |].
  unfold c in *. lra.
Qed.

End BellmanFacts.
Module ProjectFacts.
Import DistributionalDQNLoss ProjectionInputs ProjectionCells Accumulator.
Import AccumulatorFacts RowFacts BellmanFacts.

(** ** What a returning call went through *)

Lemma project_Ok (inp : projection_input) (m : list (list Q)) :
  project inp = Ok m ->
  let N := batch_size inp in
  let atoms := length (support inp) in
  exists Vmin delta_z Tz m1 m2,
    let cells := cells_of atoms Vmin delta_z Tz in
    bellman_support inp = Ok (Vmin, delta_z, Tz)
    /\ projection_cells inp = cells
    /\ has_shape N atoms (pns_a inp) = true
    /\ Forall (Forall (fun tz => isfinite (position Vmin delta_z tz) = true)) Tz
    /\ index_add_ (replicate (N * atoms) 0)
         (flat_index cell_low (offset N atoms) cells)
         (flat_weighted weight_low (pns_a inp) cells) = Ok m1
    /\ index_add_ m1 (flat_index cell_up (offset N atoms) cells)
         (flat_weighted weight_up (pns_a inp) cells) = Ok m2
    /\ m = view N atoms m2.
Proof.
  intros H N atoms. unfold project, mbind, result_bind in H.
  destruct (bellman_support inp) as [[[Vmin dz] Tz] |] eqn:Hb; [| discriminate].
  fold N atoms in H.
  destruct (has_shape N atoms (pns_a inp)) eqn:Hp; [| discriminate].
  cbn [negb] in H.
  destruct (forallb _ Tz) eqn:Hfin; [| discriminate]. cbn [negb] in H.
  destruct (index_add_ (replicate _ _) _ _) as [m1 |] eqn:H1; [| discriminate].
  destruct (index_add_ m1 _ _) as [m2 |] eqn:H2; [| discriminate].
  injection H as <-. exists Vmin, dz, Tz, m1, m2. cbv zeta.
  split; [reflexivity |]. split.
  { unfold projection_cells. now rewrite Hb. }
  split; [reflexivity |]. split; [| auto].
  apply Forall_forall. intros row Hrow. apply Forall_forall. intros tz Htz.
  rewrite forallb_forall in Hfin.
  specialize (Hfin row (proj1 (list_elem_of_In _ _) Hrow)).
  rewrite forallb_forall in Hfin.
  exact (Hfin tz (proj1 (list_elem_of_In _ _) Htz)).
Qed.

Lemma finite_position (x : fval) : isfinite x = true -> exists b, x = Fin b.
Proof. destruct x; try discriminate. eauto. Qed.

(** The cells of a returning call: every [b] is finite and non-negative,
    the two bins are neighbours that enclose it. *)
Lemma cells_good (inp : projection_input) Vmin delta_z Tz :
  bellman_support inp = Ok (Vmin, delta_z, Tz) ->
  Forall (Forall (fun tz => isfinite (position Vmin delta_z tz) = true)) Tz ->
  let atoms := length (support inp) in
  let cells := cells_of atoms Vmin delta_z Tz in
  length cells = batch_size inp
  /\ Forall (fun row => length row = atoms) cells
  /\ Forall (Forall good_cell) cells.
Proof.
  intros Hb Hfin atoms cells.
  destruct (bellman_support_Ok inp _ _ _ Hb)
    as (Vmax & Hmin & Hmax & Hle & Hat & Hdz & Hrows & HTz).
  subst cells. unfold cells_of. split; [now rewrite length_map |]. split.
  - rewrite Forall_map. eapply Forall_impl; [exact HTz |].
    intros row [Hlen _]. now rewrite length_map.
  - rewrite Forall_map. apply Forall_lookup. intros n row Hrow.
    rewrite Forall_map. apply Forall_lookup. intros z tz Htz.
    rewrite Forall_lookup in HTz. destruct (HTz _ _ Hrow) as [_ Hin].
    rewrite Forall_lookup in Hin. specialize (Hin _ _ Htz).
    rewrite Forall_lookup in Hfin. specialize (Hfin _ _ Hrow).
    rewrite Forall_lookup in Hfin. specialize (Hfin _ _ Htz).
    destruct (finite_position _ Hfin) as [b Eb].
    assert (H0 : 0 <= b).
    { eapply position_nonneg; [| | exact Eb]; [apply Hin |].
      rewrite Hdz. now apply python_delta_z_nonneg. }
    exact (proj2 (ProjectionFacts.project_cell_good atoms _ _ _ _ Hat Eb H0)).
Qed.

Lemma leak_atoms (atoms : nat) :
  (1 <= atoms)%nat ->
  leak atoms == (inject_Z (Z.of_nat (atoms - 1)) + 1) * pow2 (-21).
Proof.
  intros H. unfold leak.
  replace (Z.of_nat atoms) with (Z.of_nat (atoms - 1) + 1)%Z by lia.
  rewrite inject_Z_plus. reflexivity.
Qed.

(** On a support the float32 grid resolves, moreover, no [b] is more than
    [leak atoms] past the last atom. *)
Lemma cells_near (inp : projection_input) Vmin delta_z Tz :
  valid_support (support inp) ->
  bellman_support inp = Ok (Vmin, delta_z, Tz) ->
  Forall (Forall (fun tz => isfinite (position Vmin delta_z tz) = true)) Tz ->
  let atoms := length (support inp) in
  Forall (Forall (near_cell atoms)) (cells_of atoms Vmin delta_z Tz).
Proof.
  intros [Hsize (lo & hi & Hlo & Hhi & Hwide)] Hb Hfin atoms.
  destruct (bellman_support_Ok inp _ _ _ Hb)
    as (Vmax & Hmin & Hmax & Hle & Hat & Hdz & Hrows & HTz).
  rewrite Hmin in Hlo. injection Hlo as <-.
  rewrite Hmax in Hhi. injection Hhi as <-.
  destruct (cells_good inp _ _ _ Hb Hfin) as (_ & _ & Hgood).
  fold atoms in Hgood, Hat, Hsize, Hwide, Hdz.
  destruct (ProjectionFacts.leak_small atoms) as [_ Hleak]; [lia |].
  assert (HK : 1 <= inject_Z (Z.of_nat (atoms - 1))).
  { change 1 with (inject_Z 1). rewrite <- Zle_Qle. lia. }
  unfold cells_of in *. rewrite Forall_map in Hgood |- *.
  apply Forall_lookup. intros n row Hrow.
  rewrite Forall_map. apply Forall_lookup. intros z tz Htz.
  rewrite Forall_lookup in Hgood. specialize (Hgood _ _ Hrow).
  rewrite Forall_map, Forall_lookup in Hgood. specialize (Hgood _ _ Htz).
  rewrite Forall_lookup in HTz. destruct (HTz _ _ Hrow) as [_ Hin].
  rewrite Forall_lookup in Hin. specialize (Hin _ _ Htz).
  rewrite Forall_lookup in Hfin. specialize (Hfin _ _ Hrow).
  rewrite Forall_lookup in Hfin. specialize (Hfin _ _ Htz).
  destruct (finite_position _ Hfin) as [b Eb].
  apply ProjectionFacts.near_cell_bins; [exact Hgood | | exact Hleak].
  assert (Ecb : cell_b (project_cell atoms Vmin delta_z tz) = b).
  { unfold project_cell. now rewrite Eb. }
  rewrite Ecb, leak_atoms by lia.
  replace (Z.of_nat atoms - 1)%Z with (Z.of_nat (atoms - 1)) by lia.
  rewrite Hdz in Eb.
  exact (position_bound Vmin Vmax tz b atoms HK Hwide Hin Eb).
Qed.

(** ** Shapes *)

Lemma flat_lengths (sel : cell -> Z) (w : cell -> Q) (cells : list (list cell)) :
  forall (offs : list Z) (pns : list (list Q)),
    length offs = length cells ->
    Forall2 (fun ps row => length ps = length row) pns cells ->
    length (flat_index sel offs cells) = length (flat_weighted w pns cells).
Proof.
  unfold flat_index, flat_weighted.
  induction cells as [| row cells IH]; intros [| off offs] pns Hoffs Hshape;
    inversion Hshape as [| ps ? pns' ? Hlen Hshape']; subst; cbn in *;
    try discriminate; [reflexivity |].
  rewrite !length_app, length_map, length_zip_with_r_eq by auto.
  f_equal. apply IH; [lia | exact Hshape'].
Qed.

Lemma same_shape_rows {A B} (rows cols_ : nat)
    (t1 : list (list A)) (t2 : list (list B)) :
  length t1 = rows -> Forall (fun r => length r = cols_) t1 ->
  length t2 = rows -> Forall (fun r => length r = cols_) t2 ->
  Forall2 (fun r1 r2 => length r1 = length r2) t1 t2.
Proof.
  intros H1 F1 H2 F2. apply Forall2_same_length_lookup_2; [congruence |].
  intros i r1 r2 Hr1 Hr2.
  rewrite Forall_lookup in F1. rewrite Forall_lookup in F2.
  rewrite (F1 _ _ Hr1), (F2 _ _ Hr2). reflexivity.
Qed.

Lemma view_lookup (N atoms : nat) (m : list Q) n row :
  view N atoms m !! n = Some row <->
  (n < N)%nat /\ row = segment (n * atoms) atoms m.
Proof.
  unfold view, segment.
  change (map ?f ?l) with (f <$> l). rewrite list_lookup_fmap.
  destruct (seq 0 N !! n) as [k |] eqn:E; cbn.
  - apply lookup_seq in E as [-> Hn]. cbn. split.
    + intros [= <-]. auto.
    + intros [_ ->]. reflexivity.
  - split; [discriminate |]. intros [Hn _].
    apply lookup_seq_lt with (j := 0%nat) in Hn. congruence.
Qed.

Lemma row_at_lookup {A} (t : list (list A)) n row :
  t !! n = Some row -> row_at t n = row.
Proof. unfold row_at. now intros ->. Qed.

(** ** What one row keeps and what it passes on *)

Lemma near_cell_low atoms c : near_cell atoms c -> near_row cell_low atoms c.
Proof. intros ([[? ?] _] & ? & _). unfold near_row. lia. Qed.

Lemma near_cell_up atoms c : near_cell atoms c -> near_row cell_up atoms c.
Proof. intros ([[? ?] _] & ? & _). unfold near_row. lia. Qed.

Lemma kept_low (atoms : nat) (ps : list Q) (row : list cell) :
  Forall (near_cell atoms) row ->
  row_sum (kept cell_low weight_low atoms) ps row
  == row_sum (fun p c => p * weight_low c) ps row
  /\ row_sum (spilled cell_low weight_low atoms) ps row == 0.
Proof.
  intros Hrow. split.
  - apply (row_sum_ext _ _ (near_cell atoms)); [exact Hrow |].
    intros p c (_ & Hl & _). unfold kept.
    destruct (Z.ltb_spec (cell_low c) (Z.of_nat atoms)); [reflexivity | lia].
  - rewrite (row_sum_ext _ (fun _ _ => 0) (near_cell atoms)); [| exact Hrow |].
    + apply row_sum_zero.
    + intros p c (_ & Hl & _). unfold spilled.
      destruct (Z.eqb_spec (cell_low c) (Z.of_nat atoms)); [lia | reflexivity].
Qed.

Lemma kept_up (atoms : nat) (ps : list Q) (row : list cell) :
  Forall (near_cell atoms) row ->
  row_sum (kept cell_up weight_up atoms) ps row
  == row_sum (fun p c => p * weight_up c) ps row
     - row_sum (spilled cell_up weight_up atoms) ps row.
Proof.
  intros Hrow.
  assert (E : row_sum (fun p c => p * weight_up c) ps row
              == row_sum (kept cell_up weight_up atoms) ps row
                 + row_sum (spilled cell_up weight_up atoms) ps row).
  { rewrite <- row_sum_plus.
    apply (row_sum_ext _ _ (near_cell atoms)); [exact Hrow |].
    intros p c ([[_ Hu] _] & Hl & _). unfold kept, spilled.
    destruct (Z.ltb_spec (cell_up c) (Z.of_nat atoms));
      destruct (Z.eqb_spec (cell_up c) (Z.of_nat atoms)); try lia; ring. }
  rewrite E. ring.
Qed.



(** ** The rows and the entries of the projected mass *)

Lemma segment_one (m : list Q) a x :
  m !! a = Some x -> Qsum (segment a 1 m) == x.
Proof.
  intros H. unfold segment. rewrite (drop_S _ _ _ H).
  change (take 1 (x :: drop (S a) m)) with [x]. cbn. ring.
Qed.

Section Returning.
Variables (inp : projection_input) (m : list (list Q)).
Hypothesis valid : valid_support (support inp).
Hypothesis returns : project inp = Ok m.

Local Abbreviation N := (batch_size inp).
Local Abbreviation atoms := (length (support inp)).

(** Row [n] of [m] holds the mass of row [n] of [pns_a], less what the row
    sends past its end, plus what the row before it sends past its own. *)
Lemma project_rows :
  length m = N
  /\ Forall (Forall (near_cell atoms)) (projection_cells inp)
  /\ forall n row ps, m !! n = Some row -> pns_a inp !! n = Some ps ->
       Qsum row == Qsum ps - spill inp n + spill_before inp n.
Proof using valid returns.
  destruct (project_Ok inp m returns)
    as (Vmin & dz & Tz & m1 & m2 & Hb & Hcells & Hp & Hfin & H1 & H2 & ->).
  cbv zeta in *.
  destruct (cells_good inp _ _ _ Hb Hfin) as (Hlen & Hcols & _).
  assert (Hnear := cells_near inp _ _ _ valid Hb Hfin). cbv zeta in Hnear.
  set (cells := cells_of atoms Vmin dz Tz) in *.
  split; [unfold view; now rewrite length_map, length_seq |].
  split; [now rewrite Hcells |].
  intros n row ps Hrow Hps. apply view_lookup in Hrow as [Hn ->].
  apply has_shape_spec in Hp as [HpN HpZ].
  assert (Hsame : Forall2 (fun ps row => length ps = length row) (pns_a inp) cells).
  { eapply same_shape_rows; eauto. }
  assert (Hoff : offset N atoms
                 = map (fun k => Z.of_nat (k * atoms)) (seq 0 (length cells))).
  { unfold offset. now rewrite Hlen. }
  assert (Hat : (0 < atoms)%nat).
  { destruct valid as [Hsize _]. lia. }
  destruct (index_add_segment _ _ _ _ H1) as [_ Hsum1].
  destruct (index_add_segment _ _ _ _ H2) as [_ Hsum2].
  rewrite Hsum2, Hsum1, segment_zeros, !Hoff.
  rewrite (hits_near_rows cell_low weight_low atoms Hat n cells (pns_a inp) Hsame)
    by (eapply Forall_impl; [exact Hnear |]; intros r Hr;
        eapply Forall_impl; [exact Hr |]; apply near_cell_low).
  rewrite (hits_near_rows cell_up weight_up atoms Hat n cells (pns_a inp) Hsame)
    by (eapply Forall_impl; [exact Hnear |]; intros r Hr;
        eapply Forall_impl; [exact Hr |]; apply near_cell_up).
  assert (Hn' : (n < length cells)%nat) by (rewrite Hlen; exact Hn).
  destruct (lookup_lt_is_Some_2 cells n Hn') as [crow Hcrow].
  assert (Hcn : Forall (near_cell atoms) crow).
  { rewrite Forall_lookup in Hnear. exact (Hnear _ _ Hcrow). }
  rewrite (row_at_lookup _ _ _ Hps), (row_at_lookup _ _ _ Hcrow).
  destruct (kept_low atoms ps crow Hcn) as [Ekl _].
  rewrite Ekl, (kept_up atoms ps crow Hcn).
  assert (Hlr : length ps = length crow).
  { rewrite Forall_lookup in HpZ. rewrite Forall_lookup in Hcols.
    rewrite (HpZ _ _ Hps), (Hcols _ _ Hcrow). reflexivity. }
  assert (Esum := split_weights crow ps).
  rewrite <- Hlr, firstn_all in Esum.
  assert (Eup : Forall (fun c => (cell_up c = cell_low c + 1)%Z) crow).
  { eapply Forall_impl; [exact Hcn |]. now intros c ([[_ ?] _] & _). }
  specialize (Esum Eup).
  assert (Espill : spill inp n == row_sum (spilled cell_up weight_up atoms) ps crow).
  { unfold spill. rewrite Hcells.
    now rewrite (row_at_lookup _ _ _ Hps), (row_at_lookup _ _ _ Hcrow). }
  rewrite Espill.
  destruct n as [| k].
  - cbn [spill_before]. lra.
  - cbn [spill_before]. unfold spill. rewrite Hcells.
    assert (Hk : Forall (near_cell atoms) (row_at cells k)).
    { unfold row_at. destruct (cells !! k) as [r |] eqn:Er; cbn [default];
        [| constructor].
      rewrite Forall_lookup in Hnear. exact (Hnear _ _ Er). }
    destruct (kept_low atoms (row_at (pns_a inp) k) (row_at cells k) Hk)
      as [_ Esl].
    rewrite Esl. lra.
Qed.

(** Entry [j] of row [n] holds what the cells of the row put on atom [j];
    the first entry also holds what the cells of the row before put on the
    index after their last atom. *)
Lemma project_entries :
  forall n j row x, m !! n = Some row -> row !! j = Some x ->
    x == row_sum (ProjectionExtras.cell_mass (Z.of_nat j))
           (row_at (pns_a inp) n) (row_at (projection_cells inp) n)
         + match n, j with
           | S k, O => row_sum (ProjectionExtras.cell_mass (Z.of_nat atoms))
                         (row_at (pns_a inp) k) (row_at (projection_cells inp) k)
           | _, _ => 0
           end.
Proof using valid returns.
  destruct (project_Ok inp m returns)
    as (Vmin & dz & Tz & m1 & m2 & Hb & Hcells & Hp & Hfin & H1 & H2 & ->).
  cbv zeta in *.
  destruct (cells_good inp _ _ _ Hb Hfin) as (Hlen & Hcols & _).
  assert (Hnear := cells_near inp _ _ _ valid Hb Hfin). cbv zeta in Hnear.
  rewrite Hcells. set (cells := cells_of atoms Vmin dz Tz) in *.
  intros n j row x Hrow Hx. apply view_lookup in Hrow as [Hn ->].
  apply has_shape_spec in Hp as [HpN HpZ].
  assert (Hsame : Forall2 (fun ps row => length ps = length row) (pns_a inp) cells).
  { eapply same_shape_rows; eauto. }
  assert (Hoff : offset N atoms
                 = map (fun k => Z.of_nat (k * atoms)) (seq 0 (length cells))).
  { unfold offset. now rewrite Hlen. }
  assert (Hat : (0 < atoms)%nat).
  { destruct valid as [Hsize _]. lia. }
  unfold segment in Hx.
  assert (Hj : (j < atoms)%nat).
  { apply lookup_lt_Some in Hx. rewrite length_take in Hx. lia. }
  rewrite lookup_take_lt, lookup_drop in Hx by exact Hj.
  destruct (index_add_segment _ _ _ _ H1) as [_ Hsum1].
  destruct (index_add_segment _ _ _ _ H2) as [_ Hsum2].
  rewrite <- (segment_one _ _ _ Hx), Hsum2, Hsum1, segment_zeros, !Hoff.
  rewrite (hits_near_entry cell_low weight_low atoms Hat n j cells (pns_a inp)
             Hj Hsame)
    by (eapply Forall_impl; [exact Hnear |]; intros r Hr;
        eapply Forall_impl; [exact Hr |]; apply near_cell_low).
  rewrite (hits_near_entry cell_up weight_up atoms Hat n j cells (pns_a inp)
             Hj Hsame)
    by (eapply Forall_impl; [exact Hnear |]; intros r Hr;
        eapply Forall_impl; [exact Hr |]; apply near_cell_up).
  assert (Emass : forall i (ps : list Q) (r : list cell),
             row_sum (landed cell_low weight_low i) ps r
             + row_sum (landed cell_up weight_up i) ps r
             == row_sum (ProjectionExtras.cell_mass i) ps r).
  { intros i ps r. rewrite <- row_sum_plus. reflexivity. }
  destruct n as [| k]; [rewrite <- Emass; ring |].
  destruct j as [| j']; rewrite <- !Emass; ring.
Qed.

End Returning.

End ProjectFacts.
(** * The claims about the categorical projection *)

Module ProjectionClaims.
Import DistributionalDQNLoss ProjectionInputs ProjectionCells Accumulator.
Import ProjectionExamples AccumulatorFacts RowFacts BellmanFacts ProjectFacts.

Lemma valid_support_0_19 : valid_support support_0_19.
Proof.
  split; [cbn; lia |]. exists 0, (19 # 1).
  split; [reflexivity |]. split; [reflexivity |].
  apply Qle_bool_iff. vm_compute. reflexivity.
Qed.






(** ** The degenerate-bin fix *)






End ProjectionClaims.

Module ScatterClaims.
Import DistributionalDQNLoss ProjectionInputs ProjectionCells Accumulator.
Import ProjectionExamples AccumulatorFacts RowFacts BellmanFacts ProjectFacts.

(** C10 does not hold of the code.  On the support of 8 atoms from 0 to
    19, [delta_z] is the binary64 number nearest to 19/7 and its float32
    cast 11384539/2^22 lies below 19/7; an element of [Tz] clamped onto
    [V_max = 19] gets [b = 19 / float32(delta_z)], which float32 rounds to
    7 + 2^-21, past the last atom 7.  So [low = 7] and [up = 8 = Z]: the
    index [up + n * Z] is the first index of row [n + 1].  With one row the
    second [index_add_] is out of bounds and the call raises; with two
    rows the mass [p * (b - low)] of row 0 is written onto atom 0 of
    row 1. *)
Lemma last_atom_overshoots :
  let dz := python_delta_z 0 (19 # 1) 8 in
  let c := project_cell 8 0 dz (19 # 1) in
  bellman_support last_atom_input
  = Ok (0, dz, [[19 # 1; 19 # 1; 19 # 1; 19 # 1; 19 # 1; 19 # 1; 19 # 1; 19 # 1]])
  /\ round binary32 dz = Fin (11384539 # 4194304)
  /\ (11384539 # 4194304) < 19 / 7
  /\ position 0 dz (19 # 1) = Fin (14680065 # 2097152)
  /\ inject_Z 7 < cell_b c
  /\ cell_low c = 7%Z /\ cell_up c = 8%Z
  /\ flat_index cell_up (offset 1 8) (projection_cells last_atom_input)
     = [8; 8; 8; 8; 8; 8; 8; 8]%Z
  /\ project last_atom_input = Raise IndexError
  /\ flat_index cell_up (offset 2 8) (projection_cells two_rows_input)
     = [8; 8; 8; 8; 8; 8; 8; 8; 9; 9; 9; 9; 9; 9; 9; 9]%Z
  /\ exists m, project two_rows_input = Ok m
               /\ map (map Qred) m
                  = [[0; 0; 0; 0; 0; 0; 0; 2097151 # 2097152];
                     [2097153 # 2097152; 0; 0; 0; 0; 0; 0; 0]].
Proof.
  cbv zeta. repeat split; try (vm_compute; reflexivity).
  eexists. split; vm_compute; reflexivity.
Qed.

(** ** Non-finite values *)

Lemma isfinite_clamp (lo hi : Q) (x : fval) :
  isfinite (clamp lo hi x) = false <-> x = NaN.
Proof. destruct x; cbn; split; congruence. Qed.

Lemma all_finite_clamped (lo hi : Q) (Tz : list (list fval)) :
  forallb (forallb isfinite) (map (map (clamp lo hi)) Tz) = false
  <-> Exists (Exists (fun x => x = NaN)) Tz.
Proof.
  induction Tz as [| row Tz IH]; cbn.
  - split; [discriminate | intros H; inversion H].
  - rewrite andb_false_iff, IH, Exists_cons.
    assert (Hrow : forallb isfinite (map (clamp lo hi) row) = false
                   <-> Exists (fun x => x = NaN) row).
    { clear. induction row as [| x row IHr]; cbn.
      - split; [discriminate | intros H; inversion H].
      - rewrite andb_false_iff, IHr, Exists_cons, isfinite_clamp. reflexivity. }
    rewrite Hrow. reflexivity.
Qed.

Lemma index_add_errors (index : list Z) (tensor : list Q) :
  forall m, index_add_ m index tensor <> Raise NonFiniteError.
Proof.
  revert tensor. induction index as [| i index IH]; intros [| v tensor] m; cbn;
    try discriminate.
  destruct (_ && _); [apply IH | discriminate].
Qed.

Lemma tensor_extremes_Ok (l : list Q) :
  (1 <= length l)%nat -> is_Ok (tensor_min l) /\ is_Ok (tensor_max l).
Proof.
  destruct l as [| x l]; cbn; [lia |]. intros _. split; eexists; reflexivity.
Qed.

Lemma shifted_support_shape (inp : projection_input) Tz :
  shifted_support inp = Ok Tz ->
  Forall (fun row => length row = length (support inp)) Tz.
Proof.
  unfold shifted_support, mbind, result_bind. intros H.
  destruct (columns _ _ _) as [cols |]; [| discriminate]. injection H as <-.
  unfold Tz_rows. rewrite Forall_map. apply Forall_forall.
  intros [[r d] g] _. now rewrite length_map.
Qed.

(** C3, as the specification words it, fails: a reward of +inf makes
    every element of [Tz] +inf before the clamp, the clamp moves them onto
    [V_max], the check that follows sees finite values only, and the call
    returns all the mass on the last atom. *)
Lemma infinite_reward_is_clamped :
  shifted_support infinite_reward_input = Ok [[PInf; PInf; PInf; PInf; PInf]]
  /\ isfinite PInf = false
  /\ exists m, project infinite_reward_input = Ok m
               /\ map (map Qred) m = [[0; 0; 0; 0; 1]].
Proof.
  split; [reflexivity |]. split; [reflexivity |].
  eexists. split; vm_compute; reflexivity.
Qed.

(** C3, amended.  When the support has at least two atoms and [Tz] has the
    shape [N, Z], the call raises "Tz has some non-finite elements" exactly
    when some element of [Tz] is nan; an infinite element is clamped onto
    [V_max] or [V_min] and does not raise it. *)
Theorem only_nan_raises (inp : projection_input) (Tz : list (list fval)) :
  (2 <= length (support inp))%nat ->
  shifted_support inp = Ok Tz -> length Tz = batch_size inp ->
  (project inp = Raise NonFiniteError
   <-> Exists (Exists (fun x => x = NaN)) Tz)
  /\ (forall lo hi, lo <= hi ->
        clamp lo hi PInf = Fin hi
        /\ clamp lo hi NInf = Fin (Qmin lo hi)
        /\ Qmin lo hi == lo).
Proof.
  intros Hat HTz Hrows. split.
  - destruct (tensor_extremes_Ok (support inp)) as [[Vmin Hmin] [Vmax Hmax]]; [lia |].
    assert (Hshape : has_shape (batch_size inp) (length (support inp)) Tz = true).
    { apply has_shape_spec. split; [exact Hrows |].
      now apply shifted_support_shape. }
    unfold project, bellman_support, mbind, result_bind.
    rewrite Hmin, Hmax, HTz, Hshape.
    destruct (Nat.eqb_spec (length (support inp) - 1) 0) as [| _]; [lia |].
    cbn [negb].
    destruct (forallb (forallb isfinite) (map (map (clamp Vmin Vmax)) Tz)) eqn:Efin;
      cbn [negb].
    + split.
      * intros H. exfalso.
        destruct (negb (has_shape _ _ (pns_a inp))); [discriminate |].
        destruct (negb (forallb _ _)); [discriminate |].
        destruct (index_add_ _ _ _) as [m1 |] eqn:E1.
        -- destruct (index_add_ m1 _ _) as [m2 |] eqn:E2; [discriminate |].
           injection H as ->. now apply index_add_errors in E2.
        -- injection H as ->. now apply index_add_errors in E1.
      * intros H. apply all_finite_clamped with (lo := Vmin) (hi := Vmax) in H.
        congruence.
    + split; [| reflexivity]. intros _.
      now apply all_finite_clamped in Efin.
  - intros lo hi Hle. cbn. repeat split. now apply Q.min_l.
Qed.

Lemma only_nan_raises_on_nan_reward :
  (project nan_reward_input = Raise NonFiniteError
   <-> Exists (Exists (fun x => x = NaN)) [[NaN; NaN; NaN; NaN; NaN]])
  /\ (forall lo hi, lo <= hi ->
        clamp lo hi PInf = Fin hi
        /\ clamp lo hi NInf = Fin (Qmin lo hi)
        /\ Qmin lo hi == lo).
Proof.
  apply (only_nan_raises nan_reward_input [[NaN; NaN; NaN; NaN; NaN]]).
  - cbn. lia.
  - reflexivity.
  - reflexivity.
Defined.

End ScatterClaims.

(** * The double-estimator target *)

Module DoubleEstimatorClaims.
Import DistributionalDQNLoss DoubleEstimatorExample.

Lemma mapM_result_Ok {A B} (f : A -> result B) (l : list A) :
  forall l', mapM_result f l = Ok l' <-> Forall2 (fun x y => f x = Ok y) l l'.
Proof.
  induction l as [| x l IH]; intros l'; cbn.
  - split.
    + intros [= <-]. constructor.
    + intros H. now inversion H.
  - unfold mbind, result_bind. split.
    + intros H. destruct (f x) as [y |] eqn:Ey; [| discriminate].
      destruct (mapM_result f l) as [ys |] eqn:Eys; [| discriminate].
      injection H as <-. constructor; [exact Ey | now apply IH].
    + intros H. inversion H as [| ? y ? ys Hy Hys]; subst.
      rewrite Hy. apply IH in Hys. fold (mapM_result f l). now rewrite Hys.
Qed.

Lemma py_index_nat {A} (l : list A) (n : nat) (a : A) :
  py_index l (Z.of_nat n) = Ok a <-> l !! n = Some a.
Proof.
  unfold py_index.
  destruct (Z.ltb_spec (Z.of_nat n) 0) as [| _]; [lia |].
  destruct (Z.leb_spec 0 (Z.of_nat n)) as [_ |]; [| lia].
  rewrite Nat2Z.id. cbn [andb].
  destruct (Z.ltb_spec (Z.of_nat n) (Z.of_nat (length l))) as [Hlt | Hge].
  - destruct (l !! n); split; congruence.
  - split; [discriminate |]. intros H. apply lookup_lt_Some in H. lia.
Qed.

Lemma py_index_map {A B} (f : A -> B) (l : list A) (i : Z) (b : B) :
  py_index (map f l) i = Ok b <-> exists a, py_index l i = Ok a /\ b = f a.
Proof.
  unfold py_index. rewrite length_map.
  destruct ((0 <=? _) && _)%Z.
  - change (map f l) with (f <$> l). rewrite list_lookup_fmap.
    destruct (l !! _) as [a |]; cbn.
    + split; [intros [= <-]; eauto | intros (a' & [= <-] & ->); reflexivity].
    + split; [discriminate | intros (? & ? & _); discriminate].
  - split; [discriminate | intros (? & ? & _); discriminate].
Qed.

Lemma select_actions_Ok (pns : list (list (list Q))) (N : nat) (index : list Z)
    (pns_a : list (list Q)) :
  select_actions pns N index = Ok pns_a ->
  length index = N /\ length pns_a = N
  /\ forall n row, pns_a !! n = Some row ->
       exists a dist, index !! n = Some a /\ pns !! n = Some dist
                      /\ Forall2 (fun atom_row v => py_index atom_row a = Ok v) dist row.
Proof.
  unfold select_actions. destruct (Nat.eqb_spec (length index) N) as [Hlen |];
    [| discriminate]. cbn [negb]. intros H. apply mapM_result_Ok in H.
  split; [exact Hlen |]. split.
  - apply Forall2_length in H. rewrite length_zip, length_seq in H. lia.
  - intros n row Hrow.
    destruct (Forall2_lookup_r _ _ _ _ _ H Hrow) as ([k a] & Hk & Hsel).
    apply lookup_zip_with_Some in Hk as (k' & a' & [= <- <-] & Hseq & Ha).
    apply lookup_seq in Hseq as [-> _]. cbn in Hsel.
    unfold mbind, result_bind in Hsel.
    destruct (py_index pns (Z.of_nat n)) as [dist |] eqn:Ed; [| discriminate].
    apply py_index_nat in Ed. apply mapM_result_Ok in Hsel.
    exists a, dist. auto.
Qed.

(** [argmax] returns the position of a maximal entry, and the first one. *)
Lemma argmax_from_spec (row : list Z) :
  forall (seen : list Z) (best : Z) (best_i : nat),
    seen !! best_i = Some best ->
    Forall (fun y => (y <= best)%Z) seen ->
    (forall j y, (j < best_i)%nat -> seen !! j = Some y -> (y < best)%Z) ->
    exists x,
      (seen ++ row) !! argmax_from best best_i (length seen) row = Some x
      /\ Forall (fun y => (y <= x)%Z) (seen ++ row)
      /\ (forall j y, (j < argmax_from best best_i (length seen) row)%nat ->
                      (seen ++ row) !! j = Some y -> (y < x)%Z).
Proof.
  induction row as [| x row IH]; intros seen best best_i Hbest Hall Hfirst.
  - cbn. rewrite app_nil_r. eauto.
  - cbn [argmax_from].
    replace (seen ++ x :: row) with ((seen ++ [x]) ++ row)
      by now rewrite <- app_assoc.
    replace (S (length seen)) with (length (seen ++ [x]))
      by (rewrite length_app; cbn; lia).
    destruct (Z.ltb_spec best x) as [Hlt | Hge]; apply IH.
    + rewrite lookup_app_r by lia. now rewrite Nat.sub_diag.
    + apply Forall_app. split; [| repeat constructor; lia].
      eapply Forall_impl; [exact Hall |]. cbn. intros; lia.
    + intros j y Hj Hy. rewrite lookup_app_l in Hy by lia.
      rewrite Forall_lookup in Hall. specialize (Hall _ _ Hy). cbn in Hall. lia.
    + rewrite lookup_app_l; [exact Hbest |]. eapply lookup_lt_Some, Hbest.
    + apply Forall_app. split; [exact Hall | repeat constructor; lia].
    + intros j y Hj Hy.
      assert (best_i < length seen)%nat by (eapply lookup_lt_Some, Hbest).
      rewrite lookup_app_l in Hy by lia. eauto.
Qed.

Lemma argmax_spec (row : list Z) (a : Z) :
  argmax row = Ok a ->
  exists x,
    (0 <= a)%Z
    /\ row !! Z.to_nat a = Some x
    /\ Forall (fun y => (y <= x)%Z) row
    /\ (forall j y, (j < Z.to_nat a)%nat -> row !! j = Some y -> (y < x)%Z).
Proof.
  destruct row as [| x0 row]; [discriminate |]. cbn. intros [= <-].
  destruct (argmax_from_spec row [x0] x0 0) as (x & Hx & Hall & Hfirst).
  - reflexivity.
  - repeat constructor. lia.
  - intros j y Hj. lia.
  - rewrite Nat2Z.id. exists x. split; [lia |]. auto.
Qed.

Section DoubleEstimator.
Context {tensordict params : Type}.
Variable value_network : tensordict -> params -> result tensordict.
Variable step_mdp : tensordict -> tensordict.
Variable get_action : tensordict -> result (list (list Z)).
Variable get_action_value : tensordict -> result (list (list (list Q))).
Variable exp : Q -> Q.

(** C4.  Whenever the target construction returns, the network was run
    on the next state with the online parameters, the action was read
    from that run (squeezed index for categorical actions, argmax of the
    one-hot row otherwise), the network was run again with the target
    parameters, and row [n] of [pns_a] is the exponential of the target
    run's distribution at the action selected for row [n]: selection by
    the online snapshot, evaluation by the target snapshot, on every
    path that returns. *)
Theorem double_estimator_selection (action_space : action_space_t)
    (online target : params) (N : nat) (td : tensordict)
    (pns_a : list (list Q)) :
  double_q_probabilities value_network step_mdp get_action get_action_value
    exp action_space online target N td = Ok pns_a ->
  exists next_online action next_target action_value,
    value_network (step_mdp td) online = Ok next_online
    /\ get_action next_online = Ok action
    /\ value_network next_online target = Ok next_target
    /\ get_action_value next_target = Ok action_value
    /\ length pns_a = N
    /\ forall n row, pns_a !! n = Some row ->
         exists chosen a dist,
           action !! n = Some chosen
           /\ match action_space with
              | categorical => squeeze_last chosen
              | one_hot => argmax chosen
              end = Ok a
           /\ action_value !! n = Some dist
           /\ Forall2 (fun atom_row v =>
                         exists x, py_index atom_row a = Ok x /\ v = exp x)
                dist row.
Proof.
  unfold double_q_probabilities, mbind, result_bind. intros H.
  destruct (value_network (step_mdp td) online) as [next_online |] eqn:E1;
    [| discriminate].
  destruct (get_action next_online) as [action |] eqn:E2; [| discriminate].
  destruct (match action_space with
            | categorical => mapM_result squeeze_last action
            | one_hot => mapM_result argmax action
            end) as [index |] eqn:E3; [| discriminate].
  destruct (value_network next_online target) as [next_target |] eqn:E4;
    [| discriminate].
  destruct (get_action_value next_target) as [action_value |] eqn:E5;
    [| discriminate].
  apply select_actions_Ok in H as (Hlen & HN & Hrows).
  exists next_online, action, next_target, action_value.
  do 5 (split; [first [assumption | reflexivity] |]).
  intros n row Hrow. destruct (Hrows n row Hrow) as (a & dist & Ha & Hd & Hsel).
  assert (Hchosen : exists chosen, action !! n = Some chosen
                    /\ match action_space with
                       | categorical => squeeze_last chosen
                       | one_hot => argmax chosen
                       end = Ok a).
  { destruct action_space; apply mapM_result_Ok in E3;
      destruct (Forall2_lookup_r _ _ _ _ _ E3 Ha) as (chosen & Hc & Hf); eauto. }
  destruct Hchosen as (chosen & Hc & Hf).
  change (map ?f ?l) with (f <$> l) in Hd. rewrite list_lookup_fmap in Hd.
  destruct (action_value !! n) as [dist0 |] eqn:Ed0; [| discriminate].
  injection Hd as <-.
  exists chosen, a, dist0. repeat (split; [assumption || reflexivity |]).
  apply Forall2_fmap_l in Hsel. eapply Forall2_impl; [exact Hsel |].
  intros atom_row v Hv. now apply py_index_map in Hv.
Qed.
End DoubleEstimator.

Lemma double_estimator_selection_example :
  exists pns_a,
    double_q_probabilities toy_network toy_step
      (fun td => Ok (toy_action td)) (fun td => Ok (toy_action_value td))
      toy_exp one_hot online_snapshot target_snapshot 1 online_snapshot
    = Ok pns_a
    /\ exists next_online action next_target action_value,
      toy_network (toy_step online_snapshot) online_snapshot = Ok next_online
      /\ Ok (toy_action next_online) = Ok action
      /\ toy_network next_online target_snapshot = Ok next_target
      /\ Ok (toy_action_value next_target) = Ok action_value
      /\ length pns_a = 1%nat
      /\ forall n row, pns_a !! n = Some row ->
           exists chosen a dist,
             action !! n = Some chosen
             /\ argmax chosen = Ok a
             /\ action_value !! n = Some dist
             /\ Forall2 (fun atom_row v =>
                           exists x, py_index atom_row a = Ok x /\ v = toy_exp x)
                  dist row.
Proof.
  eexists. split; [vm_compute; reflexivity |].
  apply (double_estimator_selection toy_network toy_step
           (fun td => Ok (toy_action td)) (fun td => Ok (toy_action_value td))
           toy_exp one_hot online_snapshot target_snapshot 1 online_snapshot).
  vm_compute. reflexivity.
Defined.

End DoubleEstimatorClaims.

(** * Properties of the estimator facades *)

Module EstimatorFacts.
Import Advantages EstimatorSpec.

(** ** Running the call-recording monad *)

Lemma bind_Ok {A B} (m : M A) (f : A -> M B) log b log' :
  (m ≫= f) log = Ok (b, log') ->
  exists a log1, m log = Ok (a, log1) /\ f a log1 = Ok (b, log').
Proof.
  unfold mbind, M_bind. destruct (m log) as [[a log1] |]; [| discriminate].
  intros H. eauto.
Qed.

Lemma lift_Ok {A} (r : result A) log a log' :
  lift r log = Ok (a, log') -> r = Ok a /\ log' = log.
Proof. unfold lift. destruct r; intros [=]; subst; auto. Qed.

Lemma ret_Ok {A} (x : A) log a log' :
  (mret x : M A) log = Ok (a, log') -> a = x /\ log' = log.
Proof. unfold mret, M_ret. intros [=]; subst; auto. Qed.

Lemma call_network_Ok net kwargs td log td' log' :
  call_network net kwargs td log = Ok (td', log') ->
  run net kwargs td = Ok td'
  /\ log' = log ++ [{| call_params := kwargs; call_input := td |}].
Proof.
  unfold call_network. destruct (run net kwargs td); intros [=]; subst; auto.
Qed.

(** ** Element-wise operations *)

Lemma zip_exact_Ok {A B} (xs : list A) (ys : list B) :
  forall l, zip_exact xs ys = Ok l <-> length xs = length ys /\ l = zip xs ys.
Proof.
  revert ys. induction xs as [| x xs IH]; intros [| y ys] l; cbn;
    try (split; [discriminate | intros [? _]; discriminate]).
  - split; [intros [= <-]; auto | intros [_ ->]; reflexivity].
  - unfold mbind, result_bind. destruct (zip_exact xs ys) as [rest |] eqn:E.
    + apply IH in E as [Hlen ->]. split.
      * intros [= <-]. auto.
      * intros [_ ->]. reflexivity.
    + split; [discriminate |]. intros [Hlen _].
      assert (zip_exact xs ys = Ok (zip xs ys)) by (apply IH; auto).
      congruence.
Qed.

Lemma map2_exact_Ok {A B C} (f : A -> B -> C) (xs : list A) (ys : list B) :
  forall l, map2_exact f xs ys = Ok l
            <-> length xs = length ys /\ l = zip_with f xs ys.
Proof.
  intros l. unfold map2_exact, mbind, result_bind.
  destruct (zip_exact xs ys) as [ps |] eqn:E.
  - apply zip_exact_Ok in E as [Hlen ->].
    assert (Hz : map (fun '(x, y) => f x y) (zip xs ys) = zip_with f xs ys).
    { clear. revert ys. induction xs as [| x xs IH]; intros [| y ys]; cbn;
        auto. f_equal. apply IH. }
    rewrite Hz. split; [intros [= <-]; auto | intros [_ ->]; reflexivity].
  - split; [discriminate |]. intros [Hlen _].
    assert (zip_exact xs ys = Ok (zip xs ys)) by (apply zip_exact_Ok; auto).
    congruence.
Qed.

Lemma tensor_map2_Ok {A B C} (f : A -> B -> C)
    (a : list (list A)) (b : list (list B)) :
  forall c, tensor_map2 f a b = Ok c
            <-> Forall2 (fun r1 r2 => length r1 = length r2) a b
                /\ c = zip_with (zip_with f) a b.
Proof.
  unfold tensor_map2, mbind, result_bind.
  revert b. induction a as [| r1 a IH]; intros [| r2 b] c; cbn;
    try (split; [discriminate | intros [H _]; inversion H]).
  - split; [intros [= <-]; auto | intros [_ ->]; reflexivity].
  - specialize (IH b). unfold mbind, result_bind in *.
    destruct (zip_exact a b) as [rows |] eqn:E; cbn.
    + destruct (map2_exact f r1 r2) as [r |] eqn:Er.
      * apply map2_exact_Ok in Er as [Hlen ->].
        destruct (DistributionalDQNLoss.mapM_result _ rows) as [rs |] eqn:Ers.
        -- destruct (IH rs) as [[HF ->] _]; [reflexivity |]. split.
           ++ intros [= <-]. auto.
           ++ intros [_ ->]. reflexivity.
        -- split; [discriminate |]. intros [HF _].
           inversion HF as [| ? ? ? ? _ HF']; subst.
           destruct (IH (zip_with (zip_with f) a b)) as [_ IH2].
           discriminate IH2. auto.
      * split; [discriminate |]. intros [HF _].
        inversion HF as [| ? ? ? ? Hlen _]; subst.
        assert (map2_exact f r1 r2 = Ok (zip_with f r1 r2))
          by (apply map2_exact_Ok; auto). congruence.
    + split; [discriminate |]. intros [HF _].
      inversion HF as [| ? ? ? ? _ HF']; subst.
      apply Forall2_length in HF'.
      assert (zip_exact a b = Ok (zip a b)) by (apply zip_exact_Ok; auto).
      congruence.
Qed.

#[global] Instance tensor_equal_equiv : Equivalence tensor_equal.
Proof. change (Equivalence (Forall2 (Forall2 Qeq))). apply _. Qed.

Lemma tensor_equal_map (f g : Q -> Q) (t : list (list Q)) :
  (forall x, f x == g x) -> tensor_equal (map (map f) t) (map (map g) t).
Proof.
  intros Hfg. unfold tensor_equal.
  induction t as [| row t IH]; cbn; constructor; [| exact IH].
  induction row as [| x row IHr]; cbn; constructor; auto.
Qed.

(** [(adv + value) - value] gives [adv] back, element by element. *)
Lemma tsub_tadd (adv value value_target : list (list Q)) :
  tadd adv value = Ok value_target ->
  exists difference,
    tsub value_target value = Ok difference /\ tensor_equal difference adv.
Proof.
  unfold tadd, tsub. intros H. apply tensor_map2_Ok in H as [Hshape ->].
  exists (zip_with (zip_with Qminus) (zip_with (zip_with Qplus) adv value) value).
  split.
  - apply tensor_map2_Ok. split; [| reflexivity].
    induction Hshape as [| r1 r2 a b Hlen _ IH]; cbn; constructor; [| exact IH].
    now rewrite length_zip_with_r_eq.
  - unfold tensor_equal.
    induction Hshape as [| r1 r2 a b Hlen _ IH]; cbn; constructor; [| exact IH].
    clear -Hlen. revert r2 Hlen.
    induction r1 as [| x r1 IHr]; intros [| y r2] Hlen; cbn in *;
      try discriminate; constructor.
    + unfold Qminus. ring.
    + apply IHr. lia.
Qed.

(** ** Mean and variance of a centred tensor *)

Lemma Qsum_map_ext (f g : Q -> Q) (xs : list Q) :
  (forall x, f x == g x) -> Qsum (map f xs) == Qsum (map g xs).
Proof.
  intros Hfg. induction xs as [| x xs IH]; cbn; [reflexivity |].
  now rewrite IH, Hfg.
Qed.

Lemma Qsum_shift (xs : list Q) (c : Q) :
  Qsum (map (fun x => x - c) xs)
  == Qsum xs - inject_Z (Z.of_nat (length xs)) * c.
Proof.
  induction xs as [| x xs IH]; [cbn; ring |].
  cbn [map Qsum length]. rewrite IH, Nat2Z.inj_succ.
  unfold Z.succ. rewrite inject_Z_plus. change (inject_Z 1) with 1. ring.
Qed.

Lemma mean_numerator (xs : list Q) :
  Qsum xs - inject_Z (Z.of_nat (length xs))
            * (Qsum xs / inject_Z (Z.of_nat (length xs))) == 0.
Proof.
  destruct xs as [| x xs].
  - cbn. unfold Qdiv. ring.
  - field. intros H. unfold Qeq in H. cbn in H. lia.
Qed.

Lemma mean_centred (t : list (list Q)) :
  mean (map (map (fun x => x - mean t)) t) == 0.
Proof.
  unfold mean at 1. rewrite <- concat_map, length_map, Qsum_shift.
  unfold mean, Qdiv at 1. rewrite mean_numerator. ring.
Qed.

Lemma var_centred (t : list (list Q)) :
  var (map (map (fun x => x - mean t)) t) == var t.
Proof.
  unfold var. rewrite <- concat_map, length_map, map_map.
  apply Qdiv_comp; [| reflexivity].
  apply Qsum_map_ext. intros x. rewrite mean_centred. ring.
Qed.

Lemma map_map_rows (f g : Q -> Q) (t : list (list Q)) :
  map (map g) (map (map f) t) = map (map (fun x => g (f x))) t.
Proof.
  rewrite map_map. apply map_ext. intros row. apply map_map.
Qed.

Lemma standardize_reward_spec (sqrt : Q -> Q) (reward : list (list Q)) :
  Proper (Qeq ==> Qeq) sqrt ->
  tensor_equal (standardize_reward sqrt reward) (standardize_spec sqrt reward).
Proof.
  intros Hsqrt. unfold standardize_reward, standardize_spec. cbv zeta.
  rewrite map_map_rows. apply tensor_equal_map. intros x.
  assert (Hstd : std sqrt (map (map (fun x => x - mean reward)) reward)
                 == std sqrt reward).
  { unfold std. apply Hsqrt, var_centred. }
  now rewrite Hstd.
Qed.

Lemma newton_sqrt_proper : Proper (Qeq ==> Qeq) EstimatorExample.newton_sqrt.
Proof.
  intros x y Hxy. unfold EstimatorExample.newton_sqrt, EstimatorExample.newton_step.
  now rewrite Hxy.
Qed.

End EstimatorFacts.

Module EstimatorRuns.
Import Advantages EstimatorSpec EstimatorFacts.

Section Runs.
Variable step_mdp : tensordict -> tensordict.
Variable sqrt : Q -> Q.
Variable td0_return_estimate :
  discount -> list (list Q) -> list (list Q) -> list (list bool) ->
  result (list (list Q)).
Variable vec_td1_return_estimate :
  discount -> list (list Q) -> list (list Q) -> list (list bool) -> Z ->
  result (list (list Q)).
Variable vec_td_lambda_return_estimate td_lambda_return_estimate :
  discount -> Q -> list (list Q) -> list (list Q) -> list (list bool) -> Z ->
  result (list (list Q)).

Local Abbreviation return_estimate :=
  (Advantages.return_estimate td0_return_estimate vec_td1_return_estimate
     vec_td_lambda_return_estimate td_lambda_return_estimate).
Local Abbreviation value_estimate :=
  (Advantages.value_estimate step_mdp sqrt td0_return_estimate
     vec_td1_return_estimate vec_td_lambda_return_estimate
     td_lambda_return_estimate).
Local Abbreviation forward :=
  (Advantages.forward step_mdp sqrt td0_return_estimate
     vec_td1_return_estimate vec_td_lambda_return_estimate
     td_lambda_return_estimate).

Lemma value_estimate_Ok k self td target_params kwargs log td' value_target log' :
  value_estimate k self td target_params kwargs log
  = Ok ((td', value_target), log') ->
  exists reward gamma step_td next_value done,
    get_real td ["next"; "reward"] = Ok reward
    /\ discount_of (Advantages.gamma self)
         (entries td !! ["steps_to_next_obs"]) reward = Ok gamma
    /\ td' = (if average_rewards self
              then set td ["next"; "reward"]
                     (TReal (standardize_reward sqrt reward))
              else td)
    /\ bootstrap_call step_mdp self
         (match target_params with Some _ => target_params | None => kwargs end)
         td' step_td log log'
    /\ get_real step_td (value_key self) = Ok next_value
    /\ get_bool td' ["next"; "done"] = Ok done
    /\ return_estimate k self gamma next_value
         (if average_rewards self then standardize_reward sqrt reward else reward)
         done (Z.of_nat (batch_dims td') - 1) = Ok value_target.
Proof.
  unfold Advantages.value_estimate, bootstrap_call. intros H.
  apply bind_Ok in H as (reward & l1 & H1 & H). apply lift_Ok in H1 as [Hr ->].
  apply bind_Ok in H as (g & l2 & H2 & H). apply lift_Ok in H2 as [Hg ->].
  exists reward, g.
  destruct (average_rewards self);
    apply bind_Ok in H as (step_td & l3 & H3 & H);
    apply bind_Ok in H as (nv & l4 & H4 & H); apply lift_Ok in H4 as [Hnv ->];
    apply bind_Ok in H as (d & l5 & H5 & H); apply lift_Ok in H5 as [Hd ->];
    apply bind_Ok in H as (vt & l6 & H6 & H); apply lift_Ok in H6 as [Hvt ->];
    apply ret_Ok in H as [[= -> ->] ->];
    exists step_td, nv, d;
    (split; [exact Hr |]); (split; [exact Hg |]); (split; [reflexivity |]);
    (split; [| split; [exact Hnv |]; split; [exact Hd |]; exact Hvt]);
    (destruct (value_network self) as [net |];
     [now apply call_network_Ok in H3 | now apply ret_Ok in H3]).
Qed.

Lemma forward_Ok k self td params target_params log td' log' :
  forward k self td params target_params log = Ok (td', log') ->
  (1 <= batch_dims td)%nat
  /\ exists td1 log1 value td2 value_target advantage,
       current_call (match k with TD0 => true | _ => false end) self
         (current_kwargs k params) td td1 log log1
       /\ get_real td1 (value_key self) = Ok value
       /\ value_estimate k self td1 (default_target params target_params)
            None log1 = Ok ((td2, value_target), log')
       /\ tsub value_target value = Ok advantage
       /\ td' = set (set td2 (fst (written_keys k self)) (TReal advantage))
                  (snd (written_keys k self)) (TReal value_target).
Proof.
  unfold Advantages.forward. intros H.
  destruct (Nat.ltb_spec (batch_dims td) 1) as [| Hdims]; [discriminate |].
  split; [exact Hdims |].
  apply bind_Ok in H as (needs & l0 & H0 & H). apply lift_Ok in H0 as [_ ->].
  destruct (needs && negb (bool_decide (is_Some params))); [discriminate |].
  apply bind_Ok in H as (td1 & log1 & Hcur & H).
  apply bind_Ok in H as (value & l2 & H2 & H). apply lift_Ok in H2 as [Hv ->].
  apply bind_Ok in H as ([td2 value_target] & l3 & Hest & H).
  apply bind_Ok in H as (advantage & l4 & H4 & H). apply lift_Ok in H4 as [Ha ->].
  assert (Hfin : td' = set (set td2 (fst (written_keys k self)) (TReal advantage))
                         (snd (written_keys k self)) (TReal value_target)
                 /\ log' = l3).
  { unfold written_keys.
    destruct k; cbn [fst snd]; apply ret_Ok in H as [-> ->]; auto. }
  destruct Hfin as [-> ->].
  exists td1, log1, value, td2, value_target, advantage.
  split; [| split; [exact Hv |]; split; [exact Hest |]; split;
            [exact Ha | reflexivity]].
  unfold current_call, current_kwargs.
  destruct (value_network self) as [net |].
  - now apply call_network_Ok in Hcur.
  - destruct k; [discriminate | |]; apply ret_Ok in Hcur as [-> ->]; auto.
Qed.

Lemma GAE_forward_Ok self td params target_params log td' log' :
  GAE_forward step_mdp sqrt self td params target_params log = Ok (td', log') ->
  (1 <= batch_dims td)%nat
  /\ exists reward gamma td1 log1 value step_td next_value done adv value_target,
       get_real td ["next"; "reward"] = Ok reward
       /\ discount_of (Advantages.gamma self)
            (entries td !! ["steps_to_next_obs"]) reward = Ok gamma
       /\ current_call false self params td td1 log log1
       /\ get_real td1 (value_key self) = Ok value
       /\ bootstrap_call step_mdp self
            (match target_params with
             | Some _ => target_params
             | None => detach <$> params
             end) td1 step_td log1 log'
       /\ get_real step_td (value_key self) = Ok next_value
       /\ get_bool td1 ["next"; "done"] = Ok done
       /\ generalized_advantage_estimate gamma (lmbda self) value next_value
            reward done (Z.of_nat (batch_dims td1) - 1) = Ok (adv, value_target)
       /\ td' = set (set td1 (advantage_key self)
                       (TReal (if average_gae self
                               then standardize_gae sqrt adv else adv)))
                  (value_target_key self) (TReal value_target).
Proof.
  unfold GAE_forward. intros H.
  destruct (Nat.ltb_spec (batch_dims td) 1) as [| Hdims]; [discriminate |].
  split; [exact Hdims |].
  apply bind_Ok in H as (reward & l1 & H1 & H). apply lift_Ok in H1 as [Hr ->].
  apply bind_Ok in H as (g & l2 & H2 & H). apply lift_Ok in H2 as [Hg ->].
  apply bind_Ok in H as (needs & l0 & H0 & H). apply lift_Ok in H0 as [_ ->].
  destruct (needs && negb (bool_decide (is_Some params))); [discriminate |].
  apply bind_Ok in H as (td1 & log1 & Hcur & H).
  apply bind_Ok in H as (value & l3 & H3 & H). apply lift_Ok in H3 as [Hv ->].
  apply bind_Ok in H as (step_td & l4 & Hboot & H).
  apply bind_Ok in H as (nv & l5 & H5 & H). apply lift_Ok in H5 as [Hnv ->].
  apply bind_Ok in H as (d & l6 & H6 & H). apply lift_Ok in H6 as [Hd ->].
  apply bind_Ok in H as ([adv vt] & l7 & H7 & H). apply lift_Ok in H7 as [Hgae ->].
  apply ret_Ok in H as [-> ->].
  exists reward, g, td1, log1, value, step_td, nv, d, adv, vt.
  split; [exact Hr |]. split; [exact Hg |].
  split; [| split; [exact Hv |]; split;
            [| split; [exact Hnv |]; split; [exact Hd |]; split; [| reflexivity]]].
  - unfold current_call. destruct (value_network self) as [net |].
    + now apply call_network_Ok in Hcur.
    + apply ret_Ok in Hcur as [-> ->]. auto.
  - unfold bootstrap_call. destruct (value_network self) as [net |].
    + now apply call_network_Ok in Hboot.
    + now apply ret_Ok in Hboot as [-> ->].
  - unfold vec_generalized_advantage_estimate in Hgae.
    now destruct (vectorized self).
Qed.
End Runs.

End EstimatorRuns.

(** * The claims about the estimator facades *)

Module EstimatorClaims.
Import Advantages EstimatorSpec EstimatorFacts EstimatorRuns EstimatorExample.

Lemma entries_set_eq td k t : entries (set td k t) !! k = Some t.
Proof. unfold set. cbn. apply lookup_insert_eq. Qed.

Lemma entries_set_ne td k k' t :
  k <> k' -> entries (set td k t) !! k' = entries td !! k'.
Proof. intros H. unfold set. cbn. now apply lookup_insert_ne. Qed.

Lemma gae_value_target gamma lmbda value next_value reward done time_dim adv vt :
  generalized_advantage_estimate gamma lmbda value next_value reward done time_dim
  = Ok (adv, vt) ->
  tadd adv value = Ok vt.
Proof.
  unfold generalized_advantage_estimate, mbind, result_bind. intros H.
  repeat match type of H with
         | match ?r with Ok _ => _ | Raise _ => _ end = _ =>
             destruct r eqn:?; [| discriminate H]
         end.
  injection H as <- <-. assumption.
Qed.

Section Claims.
Variable step_mdp : tensordict -> tensordict.
Variable sqrt : Q -> Q.
Variable td0_return_estimate :
  discount -> list (list Q) -> list (list Q) -> list (list bool) ->
  result (list (list Q)).
Variable vec_td1_return_estimate :
  discount -> list (list Q) -> list (list Q) -> list (list bool) -> Z ->
  result (list (list Q)).
Variable vec_td_lambda_return_estimate td_lambda_return_estimate :
  discount -> Q -> list (list Q) -> list (list Q) -> list (list bool) -> Z ->
  result (list (list Q)).

Local Abbreviation return_estimate :=
  (Advantages.return_estimate td0_return_estimate vec_td1_return_estimate
     vec_td_lambda_return_estimate td_lambda_return_estimate).
Local Abbreviation value_estimate :=
  (Advantages.value_estimate step_mdp sqrt td0_return_estimate
     vec_td1_return_estimate vec_td_lambda_return_estimate
     td_lambda_return_estimate).
Local Abbreviation forward :=
  (Advantages.forward step_mdp sqrt td0_return_estimate
     vec_td1_return_estimate vec_td_lambda_return_estimate
     td_lambda_return_estimate).
Local Abbreviation GAE_forward := (Advantages.GAE_forward step_mdp sqrt).

(** C5, amended.  The guard of every [forward] tests the number of
    batch dimensions: a tensordict without any batch dimension is
    rejected by TD0, TD1, TD(lambda) and GAE alike, before the network is
    called.  The length of the time dimension is not looked at. *)
Theorem no_batch_dimension_is_rejected self td params target_params log :
  (batch_dims td < 1)%nat ->
  (forall k, forward k self td params target_params log = Raise BatchDimsError)
  /\ GAE_forward self td params target_params log = Raise BatchDimsError.
Proof.
  intros H. unfold Advantages.forward, Advantages.GAE_forward.
  destruct (Nat.ltb_spec (batch_dims td) 1) as [_ |]; [| lia].
  split; [intros k |]; reflexivity.
Qed.


(** C7.  In [value_estimate] of TD0, TD1 and TD(lambda), with
    [average_rewards] on, the ("next", "reward") entry of the tensordict
    is replaced by the standardized reward, which equals
    (reward - mean(reward)) / max(std(reward), 1e-4) over the whole batch,
    every other entry is kept, and the return functional receives the
    standardized reward; with the flag off the tensordict is returned
    unchanged and the functional receives the reward as read. *)
Theorem reward_standardization k self td target_params kwargs log
    td' value_target log' :
  Proper (Qeq ==> Qeq) sqrt ->
  value_estimate k self td target_params kwargs log
  = Ok ((td', value_target), log') ->
  exists reward gamma next_value done,
    get_real td ["next"; "reward"] = Ok reward
    /\ if average_rewards self then
         entries td' !! ["next"; "reward"]
         = Some (TReal (standardize_reward sqrt reward))
         /\ (forall key, key <> ["next"; "reward"] ->
               entries td' !! key = entries td !! key)
         /\ tensor_equal (standardize_reward sqrt reward)
              (standardize_spec sqrt reward)
         /\ return_estimate k self gamma next_value
              (standardize_reward sqrt reward) done
              (Z.of_nat (batch_dims td') - 1) = Ok value_target
       else
         td' = td
         /\ return_estimate k self gamma next_value reward done
              (Z.of_nat (batch_dims td') - 1) = Ok value_target.
Proof.
  intros Hsqrt H.
  apply value_estimate_Ok in H
    as (reward & g & step_td & nv & d & Hr & _ & Htd & _ & _ & _ & Hret).
  exists reward, g, nv, d. split; [exact Hr |].
  destruct (average_rewards self).
  - subst td'. split; [apply entries_set_eq |]. split.
    + intros key Hkey. apply entries_set_ne. congruence.
    + split; [now apply standardize_reward_spec | exact Hret].
  - auto.
Qed.

(** C8.  [forward] of TD0 and TD1 does not depend on the configured
    [advantage_key] and [value_target_key]: it writes the advantage
    [value_target - value] under "advantage" and the target under
    "value_target".  [forward] of TD(lambda) writes under the configured
    keys. *)
Theorem literal_output_keys self td params target_params log :
  (forall k advantage_key value_target_key, k <> TDLambda ->
      forward k (with_keys self advantage_key value_target_key) td params
        target_params log
      = forward k self td params target_params log)
  /\ (forall k td' log', k <> TDLambda ->
        forward k self td params target_params log = Ok (td', log') ->
        exists value value_target advantage,
          tsub value_target value = Ok advantage
          /\ entries td' !! ["value_target"] = Some (TReal value_target)
          /\ entries td' !! ["advantage"] = Some (TReal advantage))
  /\ (forall td' log',
        forward TDLambda self td params target_params log = Ok (td', log') ->
        exists value value_target advantage,
          tsub value_target value = Ok advantage
          /\ entries td' !! value_target_key self = Some (TReal value_target)
          /\ (advantage_key self <> value_target_key self ->
              entries td' !! advantage_key self = Some (TReal advantage))).
Proof.
  split; [| split].
  - intros k ak vk Hk. destruct k; [reflexivity | reflexivity | contradiction].
  - intros k td' log' Hk H.
    apply forward_Ok in H
      as (_ & td1 & log1 & value & td2 & vt & adv & _ & _ & _ & Hsub & ->).
    exists value, vt, adv. split; [exact Hsub |].
    destruct k; [| | contradiction]; cbn [written_keys fst snd];
      (split; [apply entries_set_eq |]);
      (rewrite entries_set_ne by discriminate; apply entries_set_eq).
  - intros td' log' H.
    apply forward_Ok in H
      as (_ & td1 & log1 & value & td2 & vt & adv & _ & _ & _ & Hsub & ->).
    exists value, vt, adv. split; [exact Hsub |].
    cbn [written_keys fst snd]. split; [apply entries_set_eq |].
    intros Hne. rewrite entries_set_ne by congruence. apply entries_set_eq.
Qed.

(** C9.  In every returning run of [GAE.forward] the functional is given
    the value the network predicts on the input ([value], read under
    [value_key] after the current-step call), the next value read after
    the bootstrap call, and the reward, the discount and the done flags
    of the input; it returns the advantage [adv] and the value target,
    which is [adv + value].  That target is what is written under
    [value_target_key], also when [average_gae] standardizes the
    advantage afterwards: the written target minus the value gives the
    advantage as it was before standardization.  With [average_gae] off
    the written advantage is [adv] and equals target minus value; with it
    on (and at least two elements, below which [std] is nan in torch) the
    written advantage is the standardized one, and equals target minus
    value exactly when standardization leaves the advantage unchanged. *)
Theorem gae_target_precedes_standardization self td params target_params log
    td' log' :
  GAE_forward self td params target_params log = Ok (td', log') ->
  advantage_key self <> value_target_key self ->
  exists reward gamma td1 log1 value step_td next_value done adv value_target
         written difference,
    get_real td ["next"; "reward"] = Ok reward
    /\ discount_of (Advantages.gamma self)
         (entries td !! ["steps_to_next_obs"]) reward = Ok gamma
    /\ current_call false self params td td1 log log1
    /\ get_real td1 (value_key self) = Ok value
    /\ bootstrap_call step_mdp self
         (match target_params with
          | Some _ => target_params
          | None => detach <$> params
          end) td1 step_td log1 log'
    /\ get_real step_td (value_key self) = Ok next_value
    /\ get_bool td1 ["next"; "done"] = Ok done
    /\ (if vectorized self
        then vec_generalized_advantage_estimate gamma (lmbda self) value
               next_value reward done (Z.of_nat (batch_dims td1) - 1)
        else generalized_advantage_estimate gamma (lmbda self) value
               next_value reward done (Z.of_nat (batch_dims td1) - 1))
       = Ok (adv, value_target)
    /\ tadd adv value = Ok value_target
    /\ entries td' !! value_target_key self = Some (TReal value_target)
    /\ entries td' !! advantage_key self = Some (TReal written)
    /\ tsub value_target value = Ok difference
    /\ tensor_equal difference adv
    /\ (average_gae self = false ->
        written = adv /\ tensor_equal written difference)
    /\ (average_gae self = true -> (2 <= length (concat adv))%nat ->
        written = standardize_gae sqrt adv
        /\ (tensor_equal written difference
            <-> tensor_equal (standardize_gae sqrt adv) adv)).
Proof.
  intros H Hkeys.
  apply GAE_forward_Ok in H
    as (_ & reward & g & td1 & log1 & value & step_td & nv & d & adv & vt
        & Hr & Hg & Hcur & Hv & Hboot & Hnv & Hd & Hgae & ->).
  apply gae_value_target in Hgae as Hadd.
  destruct (tsub_tadd _ _ _ Hadd) as (difference & Hsub & Hdiff).
  exists reward, g, td1, log1, value, step_td, nv, d, adv, vt,
    (if average_gae self then standardize_gae sqrt adv else adv), difference.
  split; [exact Hr |]. split; [exact Hg |]. split; [exact Hcur |].
  split; [exact Hv |]. split; [exact Hboot |]. split; [exact Hnv |].
  split; [exact Hd |].
  split; [unfold vec_generalized_advantage_estimate;
          now destruct (vectorized self) |].
  split; [exact Hadd |]. split; [apply entries_set_eq |].
  split; [rewrite entries_set_ne by congruence; apply entries_set_eq |].
  split; [exact Hsub |]. split; [exact Hdiff |].
  split.
  - intros ->. split; [reflexivity | now symmetry].
  - intros -> _. split; [reflexivity |]. now rewrite Hdiff.
Qed.
End Claims.

End EstimatorClaims.

(** * The estimators on the concrete setting *)

Module EstimatorRunsOnExamples.
Import Advantages EstimatorSpec EstimatorFacts EstimatorExample EstimatorClaims.

Local Abbreviation forward :=
  (Advantages.forward shift newton_sqrt td0_return_estimate
     vec_td1_return_estimate td_lambda_return_estimate
     td_lambda_return_estimate).
Local Abbreviation value_estimate :=
  (Advantages.value_estimate shift newton_sqrt td0_return_estimate
     vec_td1_return_estimate td_lambda_return_estimate
     td_lambda_return_estimate).
Local Abbreviation return_estimate :=
  (Advantages.return_estimate td0_return_estimate vec_td1_return_estimate
     td_lambda_return_estimate td_lambda_return_estimate).
Local Abbreviation GAE_forward := (Advantages.GAE_forward shift newton_sqrt).

(** C5, as the specification words it, fails: a batch of one trajectory
    with zero time steps (batch size [1, 0]) passes the guard of
    [TD0Estimator.forward]; the network is invoked twice and the call
    returns a tensordict with an (empty) advantage. *)
Lemma zero_time_steps_are_accepted :
  batch_size empty_time_td = [1; 0]%nat
  /\ batch_dims empty_time_td = 2%nat
  /\ exists td' log',
       forward TD0 example_estimator empty_time_td None None [] = Ok (td', log')
       /\ length log' = 2%nat
       /\ entries td' !! ["advantage"] = Some (TReal [[]]).
Proof.
  split; [reflexivity |]. split; [reflexivity |].
  destruct (forward TD0 example_estimator empty_time_td None None [])
    as [[td' log'] | e] eqn:E.
  - exists td', log'. split; [reflexivity |].
    vm_compute in E. injection E as <- <-. split; reflexivity.
  - vm_compute in E. discriminate E.
Qed.

Lemma no_batch_dimension_example :
  (forall k, forward k example_estimator no_batch_td None None []
             = Raise BatchDimsError)
  /\ GAE_forward example_estimator no_batch_td None None []
     = Raise BatchDimsError.
Proof.
  apply (no_batch_dimension_is_rejected shift newton_sqrt td0_return_estimate
           vec_td1_return_estimate td_lambda_return_estimate
           td_lambda_return_estimate example_estimator no_batch_td None None []).
  cbn. lia.
Defined.


Lemma reward_standardization_example :
  exists td' value_target log',
    value_estimate TD0 standardizing_estimator example_td None None []
    = Ok ((td', value_target), log')
    /\ exists reward gamma next_value done,
         get_real example_td ["next"; "reward"] = Ok reward
         /\ entries td' !! ["next"; "reward"]
            = Some (TReal (standardize_reward newton_sqrt reward))
         /\ (forall key, key <> ["next"; "reward"] ->
               entries td' !! key = entries example_td !! key)
         /\ tensor_equal (standardize_reward newton_sqrt reward)
              (standardize_spec newton_sqrt reward)
         /\ return_estimate TD0 standardizing_estimator gamma next_value
              (standardize_reward newton_sqrt reward) done
              (Z.of_nat (batch_dims td') - 1) = Ok value_target.
Proof.
  destruct (value_estimate TD0 standardizing_estimator example_td None None [])
    as [[[td' value_target] log'] | e] eqn:E.
  - exists td', value_target, log'. split; [reflexivity |].
    exact (reward_standardization shift newton_sqrt td0_return_estimate
             vec_td1_return_estimate td_lambda_return_estimate
             td_lambda_return_estimate TD0 standardizing_estimator example_td
             None None [] td' value_target log' newton_sqrt_proper E).
  - vm_compute in E. discriminate E.
Defined.

(** TD0 constructed with the keys "adv" and "target" still writes
    "advantage" and "value_target", and nothing under its own keys. *)
Example td0_writes_the_literal_keys :
  exists td' log',
    forward TD0 standardizing_estimator example_td None None [] = Ok (td', log')
    /\ advantage_key standardizing_estimator = ["adv"]
    /\ value_target_key standardizing_estimator = ["target"]
    /\ entries td' !! ["adv"] = None
    /\ entries td' !! ["target"] = None
    /\ is_Some (entries td' !! ["advantage"])
    /\ is_Some (entries td' !! ["value_target"]).
Proof.
  destruct (forward TD0 standardizing_estimator example_td None None [])
    as [[td' log'] | e] eqn:E.
  - exists td', log'. split; [reflexivity |].
    vm_compute in E. injection E as <- <-.
    repeat split; try reflexivity; eexists; reflexivity.
  - vm_compute in E. discriminate E.
Qed.

Lemma gae_target_example :
  exists td' log',
    GAE_forward standardizing_estimator example_td None None [] = Ok (td', log')
    /\ exists reward gamma td1 log1 value step_td next_value done adv
              value_target written difference,
         get_real example_td ["next"; "reward"] = Ok reward
         /\ discount_of (99 # 100) (entries example_td !! ["steps_to_next_obs"])
              reward = Ok gamma
         /\ current_call false standardizing_estimator None example_td td1 [] log1
         /\ get_real td1 ["state_value"] = Ok value
         /\ bootstrap_call shift standardizing_estimator None td1 step_td log1 log'
         /\ get_real step_td ["state_value"] = Ok next_value
         /\ get_bool td1 ["next"; "done"] = Ok done
         /\ vec_generalized_advantage_estimate gamma (95 # 100) value
              next_value reward done (Z.of_nat (batch_dims td1) - 1)
            = Ok (adv, value_target)
         /\ tadd adv value = Ok value_target
         /\ entries td' !! ["target"] = Some (TReal value_target)
         /\ entries td' !! ["adv"] = Some (TReal written)
         /\ tsub value_target value = Ok difference
         /\ tensor_equal difference adv
         /\ (true = false -> written = adv /\ tensor_equal written difference)
         /\ (true = true -> (2 <= length (concat adv))%nat ->
             written = standardize_gae newton_sqrt adv
             /\ (tensor_equal written difference
                 <-> tensor_equal (standardize_gae newton_sqrt adv) adv)).
Proof.
  destruct (GAE_forward standardizing_estimator example_td None None [])
    as [[td' log'] | e] eqn:E.
  - exists td', log'. split; [reflexivity |].
    apply (gae_target_precedes_standardization shift newton_sqrt
             standardizing_estimator example_td None None [] td' log' E).
    discriminate.
  - vm_compute in E. discriminate E.
Defined.

(** On the trajectory of the example, standardization changes the
    advantage, and the written advantage is not target minus value. *)
Example gae_equation_fails_after_standardization :
  exists td' log' written value_target value difference,
    GAE_forward standardizing_estimator example_td None None [] = Ok (td', log')
    /\ entries td' !! ["adv"] = Some (TReal written)
    /\ entries td' !! ["target"] = Some (TReal value_target)
    /\ entries td' !! ["state_value"] = Some (TReal value)
    /\ tsub value_target value = Ok difference
    /\ ~ tensor_equal written difference.
Proof.
  destruct (GAE_forward standardizing_estimator example_td None None [])
    as [[td' log'] | e] eqn:E.
  - vm_compute in E. injection E as <- <-.
    eexists _, _, _, _, _, _. split; [reflexivity |].
    split; [reflexivity |]. split; [reflexivity |]. split; [reflexivity |].
    split; [vm_compute; reflexivity |].
    intros H. inversion H as [| ? ? ? ? Hrow _]; subst.
    inversion Hrow as [| ? ? ? ? Hx _]; subst.
    vm_compute in Hx. discriminate Hx.
  - vm_compute in E. discriminate E.
Qed.

End EstimatorRunsOnExamples.

(** * Further properties of the categorical projection *)

Module ProjectionMore.
Import DistributionalDQNLoss ProjectionInputs ProjectionCells Accumulator.
Import ProjectionExamples ProjectionExtras.
Import AccumulatorFacts RowFacts BellmanFacts ProjectFacts.

Lemma add_at_nonneg (m : list Q) i v :
  Forall (fun x => 0 <= x) m -> 0 <= v -> Forall (fun x => 0 <= x) (add_at m i v).
Proof.
  intros Hm Hv. revert i. induction Hm as [| x m Hx Hm IH]; intros i; cbn.
  - constructor.
  - destruct i as [| i]; constructor; auto.
    replace 0 with (0 + 0) by reflexivity. now apply Qplus_le_compat.
Qed.

Lemma index_add_nonneg (index : list Z) (tensor : list Q) :
  forall m m', Forall (fun x => 0 <= x) m -> Forall (fun x => 0 <= x) tensor ->
    index_add_ m index tensor = Ok m' -> Forall (fun x => 0 <= x) m'.
Proof.
  revert tensor. induction index as [| i index IH]; intros [| v tensor] m m' Hm Hv H;
    cbn in H; try discriminate.
  - now injection H as <-.
  - destruct (_ && _); [| discriminate]. inversion Hv; subst.
    eapply IH; [| | exact H]; auto. now apply add_at_nonneg.
Qed.

Lemma flat_weighted_nonneg (w : cell -> Q) (cells : list (list cell)) :
  forall pns : list (list Q),
    Forall (Forall (fun p => 0 <= p)) pns ->
    Forall (Forall (fun c => 0 <= w c)) cells ->
    Forall (fun x => 0 <= x) (flat_weighted w pns cells).
Proof.
  unfold flat_weighted.
  induction cells as [| row cells IH]; intros [| ps pns] Hp Hc; cbn;
    try constructor.
  inversion Hp as [| ? ? Hps Hpns]; inversion Hc as [| ? ? Hrow Hcells]; subst.
  apply Forall_app. split; [| now apply IH].
  clear -Hps Hrow. revert ps Hps.
  induction Hrow as [| c row Hc _ IHr]; intros [| p ps] Hps; cbn;
    try constructor; inversion Hps; subst.
  - now apply Qmult_le_0_compat.
  - now apply IHr.
Qed.

Lemma replicate_nonneg n : Forall (fun x => 0 <= x) (replicate n 0).
Proof. apply Forall_replicate. apply Qle_refl. Qed.

Lemma view_shape (N atoms : nat) (m : list Q) :
  length m = (N * atoms)%nat ->
  Forall (fun row => length row = atoms) (view N atoms m).
Proof.
  intros Hlen. unfold view. rewrite Forall_map. apply Forall_forall.
  intros n Hn. apply elem_of_seq in Hn.
  rewrite length_take, length_drop. nia.
Qed.

Lemma view_nonneg (N atoms : nat) (m : list Q) :
  Forall (fun x => 0 <= x) m ->
  Forall (Forall (fun x => 0 <= x)) (view N atoms m).
Proof.
  intros Hm. unfold view. rewrite Forall_map. apply Forall_forall. intros n _.
  now apply Forall_take, Forall_drop.
Qed.

Lemma concat_view (atoms : nat) (m : list Q) :
  forall N s : nat,
    concat (map (fun n => take atoms (drop (n * atoms) m)) (seq s N))
    = take (N * atoms) (drop (s * atoms) m).
Proof.
  induction N as [| N IH]; intros s; [reflexivity |].
  cbn [seq map concat]. rewrite IH.
  replace (S s * atoms)%nat with (s * atoms + atoms)%nat by lia.
  rewrite <- drop_drop, take_take_drop. f_equal.
Qed.

Lemma flat_weighted_total (cells : list (list cell)) :
  forall pns : list (list Q),
    Forall2 (fun ps row => length ps = length row) pns cells ->
    Forall (Forall good_cell) cells ->
    Qsum (flat_weighted weight_low pns cells)
    + Qsum (flat_weighted weight_up pns cells)
    == Qsum (concat pns).
Proof.
  unfold flat_weighted.
  induction cells as [| row cells IH]; intros pns Hshape Hgood;
    inversion Hshape as [| ps ? pns' ? Hlen Hshape']; subst; [reflexivity |].
  inversion Hgood as [| ? ? Hrow Hcells]; subst.
  cbn [zip_with concat]. rewrite !Qsum_app, <- (IH pns' Hshape' Hcells).
  assert (E := split_weights row ps). rewrite <- Hlen, firstn_all in E.
  unfold row_sum in E. rewrite <- E.
  - ring.
  - eapply Forall_impl; [exact Hrow |]. now intros c [[_ ?] _].
Qed.

(** What every returning call gives when the probabilities are not
    negative: the shape [N, Z] and entries that are not negative. *)
Lemma project_nonneg (inp : projection_input) (m : list (list Q)) :
  project inp = Ok m ->
  Forall (Forall (fun p => 0 <= p)) (pns_a inp) ->
  length m = batch_size inp
  /\ Forall (fun row => length row = length (support inp)
                        /\ Forall (fun x => 0 <= x) row) m.
Proof.
  intros Hm Hnn.
  destruct (project_Ok inp m Hm)
    as (Vmin & dz & Tz & m1 & m2 & Hb & _ & Hp & Hfin & H1 & H2 & ->).
  cbv zeta in *.
  destruct (cells_good inp _ _ _ Hb Hfin) as (_ & _ & Hgood).
  destruct (index_add_segment _ _ _ _ H1) as [Hlen1 _].
  destruct (index_add_segment _ _ _ _ H2) as [Hlen2 _].
  rewrite length_replicate in Hlen1.
  assert (Hm2 : Forall (fun x => 0 <= x) m2).
  { eapply index_add_nonneg; [| | exact H2].
    - eapply index_add_nonneg; [apply replicate_nonneg | | exact H1].
      apply flat_weighted_nonneg; [exact Hnn |].
      eapply Forall_impl; [exact Hgood |]. intros row Hrow.
      eapply Forall_impl; [exact Hrow |]. intros c Hc.
      now destruct (ProjectionFacts.good_cell_weights c Hc).
    - apply flat_weighted_nonneg; [exact Hnn |].
      eapply Forall_impl; [exact Hgood |]. intros row Hrow.
      eapply Forall_impl; [exact Hrow |]. intros c Hc.
      now destruct (ProjectionFacts.good_cell_weights c Hc) as (_ & ? & _). }
  split.
  - unfold view. now rewrite length_map, length_seq.
  - apply Forall_and. split.
    + apply view_shape. congruence.
    + now apply view_nonneg.
Qed.

(** X1.  Whenever the call returns, on non-negative probabilities the
    projected mass has the shape [N, Z] and no negative entry, and the mass
    of the whole batch is the one that went in: what a row loses to the
    index after its last atom, the next row gains. *)
Theorem projected_mass_shape_sign_total (inp : projection_input)
    (m : list (list Q)) :
  project inp = Ok m ->
  Forall (Forall (fun p => 0 <= p)) (pns_a inp) ->
  length m = batch_size inp
  /\ Forall (fun row => length row = length (support inp)
                        /\ Forall (fun x => 0 <= x) row) m
  /\ Qsum (concat m) == Qsum (concat (pns_a inp)).
Proof.
  intros Hm Hnn.
  destruct (project_nonneg inp m Hm Hnn) as [Hlen Hrows].
  split; [exact Hlen |]. split; [exact Hrows |].
  destruct (project_Ok inp m Hm)
    as (Vmin & dz & Tz & m1 & m2 & Hb & _ & Hp & Hfin & H1 & H2 & ->).
  cbv zeta in *.
  destruct (cells_good inp _ _ _ Hb Hfin) as (Hclen & Hcols & Hgood).
  set (N := batch_size inp) in *. set (atoms := length (support inp)) in *.
  set (cells := cells_of atoms Vmin dz Tz) in *.
  apply has_shape_spec in Hp as [HpN HpZ].
  assert (Hsame : Forall2 (fun ps row => length ps = length row) (pns_a inp) cells).
  { eapply same_shape_rows; eauto. }
  destruct (index_add_segment _ _ _ _ H1) as [Hlen1 Hsum1].
  destruct (index_add_segment _ _ _ _ H2) as [Hlen2 Hsum2].
  rewrite length_replicate in Hlen1.
  destruct (index_add_Ok_bounds _ _ _ _ H1) as [Hl1 Hb1].
  destruct (index_add_Ok_bounds _ _ _ _ H2) as [Hl2 Hb2].
  rewrite length_replicate in Hb1. rewrite Hlen1 in Hb2.
  unfold view. rewrite concat_view.
  change (0 * atoms)%nat with 0%nat. rewrite drop_0.
  rewrite <- Hlen1, <- Hlen2, firstn_all.
  assert (Eseg : m2 = segment 0 (N * atoms) m2).
  { unfold segment. cbn [drop]. now rewrite <- Hlen1, <- Hlen2, firstn_all. }
  rewrite Eseg, Hsum2, Hsum1, segment_zeros.
  rewrite (hits_everything _ _ _ Hl1 Hb1), (hits_everything _ _ _ Hl2 Hb2).
  rewrite <- (flat_weighted_total cells (pns_a inp) Hsame Hgood). ring.
Qed.

Lemma projected_mass_example :
  exists m,
    project two_rows_input = Ok m
    /\ length m = 2%nat
    /\ Forall (fun row => length row = 8%nat /\ Forall (fun x => 0 <= x) row) m
    /\ Qsum (concat m) == Qsum (concat (pns_a two_rows_input)).
Proof.
  destruct (project two_rows_input) as [m |] eqn:E.
  - exists m. split; [reflexivity |].
    apply (projected_mass_shape_sign_total two_rows_input m E).
    repeat constructor; discriminate.
  - vm_compute in E. discriminate E.
Defined.

(** X4.  A support of fewer than two atoms stops the call before anything
    else is looked at: [support.min()] fails on an empty support, and
    [delta_z = (Vmax - Vmin) / (atoms - 1)] divides by zero on a single
    atom. *)
Theorem support_needs_two_atoms (inp : projection_input) :
  (length (support inp) < 2)%nat ->
  project inp
  = Raise (if (length (support inp) =? 0)%nat then EmptyReduction
           else ZeroDivision).
Proof.
  unfold project, bellman_support, mbind, result_bind.
  destruct (support inp) as [| z [| z' s]]; cbn; intros H;
    [reflexivity | reflexivity | lia].
Qed.

Lemma support_needs_two_atoms_example :
  project single_atom_input = Raise ZeroDivision.
Proof. apply (support_needs_two_atoms single_atom_input). cbn. lia. Defined.

(** ** The cross-entropy loss *)

Lemma Qmult_nonneg_nonpos (x l : Q) : 0 <= x -> l <= 0 -> x * l <= 0.
Proof.
  intros Hx Hl. apply Qle_minus_iff.
  assert (E : 0 + - (x * l) == x * - l) by ring. rewrite E.
  apply Qmult_le_0_compat; [exact Hx |].
  apply (Qopp_le_compat l 0) in Hl. exact Hl.
Qed.

Lemma Qsum_products_nonpos (row logp : list Q) :
  Forall (fun x => 0 <= x) row -> Forall (fun x => x <= 0) logp ->
  Qsum (zip_with Qmult row logp) <= 0.
Proof.
  intros Hrow. revert logp.
  induction Hrow as [| x row Hx _ IH]; intros [| l logp] Hl; cbn;
    try apply Qle_refl.
  inversion Hl as [| ? ? Hl0 Hls]; subst.
  replace 0 with (0 + 0) by reflexivity.
  apply Qplus_le_compat; [now apply Qmult_nonneg_nonpos | now apply IH].
Qed.

Lemma cross_entropy_nonneg (m logp : list (list Q)) (loss : list Q) :
  Forall (Forall (fun x => 0 <= x)) m ->
  Forall (Forall (fun x => x <= 0)) logp ->
  cross_entropy m logp = Ok loss ->
  length loss = length m /\ Forall (fun x => 0 <= x) loss.
Proof.
  intros Hm Hl H. unfold cross_entropy, mbind, result_bind in H.
  destruct (Advantages.tensor_map2 Qmult m logp) as [products |] eqn:E;
    [| discriminate].
  injection H as <-. apply EstimatorFacts.tensor_map2_Ok in E as [Hshape ->].
  rewrite length_map. split.
  - apply Forall2_length in Hshape. rewrite length_zip_with_l_eq; auto.
  - rewrite Forall_map. clear Hshape. revert logp Hl.
    induction Hm as [| row m Hrow _ IH]; intros [| l logp] Hl; cbn;
      try constructor; inversion Hl; subst.
    + apply (Qopp_le_compat _ 0). now apply Qsum_products_nonpos.
    + now apply IH.
Qed.

(** X5.  Whenever the projection returns on non-negative probabilities,
    the per-sample loss of line 399, computed from the projected mass and
    from log-probabilities (values at most 0) of the same shape, is defined
    and is one non-negative number per transition: the priority the loss
    writes back is never negative. *)
Theorem projected_loss_is_nonnegative (inp : projection_input)
    (m log_ps_a : list (list Q)) :
  project inp = Ok m ->
  Forall (Forall (fun p => 0 <= p)) (pns_a inp) ->
  has_shape (batch_size inp) (length (support inp)) log_ps_a = true ->
  Forall (Forall (fun x => x <= 0)) log_ps_a ->
  exists loss,
    cross_entropy m log_ps_a = Ok loss
    /\ length loss = batch_size inp
    /\ Forall (fun x => 0 <= x) loss.
Proof.
  intros Hm Hnn Hshape Hlog.
  destruct (project_nonneg inp m Hm Hnn) as (Hlen & Hrows).
  apply Forall_and in Hrows as [Hcols Hpos].
  apply has_shape_spec in Hshape as [HlN HlZ].
  destruct (Advantages.tensor_map2 Qmult m log_ps_a) as [products |] eqn:E.
  - assert (Hce : cross_entropy m log_ps_a
                  = Ok (map (fun row => - Qsum row) products)).
    { unfold cross_entropy, mbind, result_bind. now rewrite E. }
    destruct (cross_entropy_nonneg _ _ _ Hpos Hlog Hce) as [Hl Hp].
    exists (map (fun row => - Qsum row) products).
    repeat split; auto. congruence.
  - exfalso.
    assert (Hok : Advantages.tensor_map2 Qmult m log_ps_a
                  = Ok (zip_with (zip_with Qmult) m log_ps_a)).
    { apply EstimatorFacts.tensor_map2_Ok. split; [| reflexivity].
      eapply same_shape_rows; eauto. }
    congruence.
Qed.

Lemma projected_loss_example :
  exists m loss,
    project two_rows_input = Ok m
    /\ cross_entropy m
         [[-1 # 1; -2 # 1; -1 # 1; -3 # 1; -1 # 1; -2 # 1; -1 # 1; -1 # 2];
          [-1 # 4; -2 # 1; -1 # 1; -3 # 1; -1 # 1; -2 # 1; -1 # 1; -1 # 1]]
       = Ok loss
    /\ length loss = 2%nat
    /\ Forall (fun x => 0 <= x) loss.
Proof.
  destruct (project two_rows_input) as [m |] eqn:E.
  - exists m.
    destruct (projected_loss_is_nonnegative two_rows_input m
                [[-1 # 1; -2 # 1; -1 # 1; -3 # 1; -1 # 1; -2 # 1; -1 # 1; -1 # 2];
                 [-1 # 4; -2 # 1; -1 # 1; -3 # 1; -1 # 1; -2 # 1; -1 # 1; -1 # 1]]
                E) as (loss & H).
    + repeat constructor; discriminate.
    + reflexivity.
    + repeat constructor; discriminate.
    + exists loss. split; [reflexivity | exact H].
  - vm_compute in E. discriminate E.
Defined.

End ProjectionMore.
Module ProjectionEntries.
Import DistributionalDQNLoss ProjectionInputs ProjectionCells Accumulator.
Import ProjectionExamples ProjectionExtras.
Import FloatFacts AccumulatorFacts RowFacts BellmanFacts ProjectFacts.

(** ** One entry of the projected mass *)

(** On a bin whose [low] is an atom, what lands on the index after the last
    atom is the share of [up] alone. *)
Lemma cell_mass_past_row (atoms : nat) (ps : list Q) (row : list cell) :
  Forall (near_cell atoms) row ->
  row_sum (cell_mass (Z.of_nat atoms)) ps row
  == row_sum (spilled cell_up weight_up atoms) ps row.
Proof.
  intros Hrow. apply (row_sum_ext _ _ (near_cell atoms)); [exact Hrow |].
  intros p c (_ & Hl & _). unfold cell_mass, spilled.
  destruct (Z.eqb_spec (cell_low c) (Z.of_nat atoms)); [lia |]. ring.
Qed.

Lemma row_at_near (atoms : nat) (cells : list (list cell)) (k : nat) :
  Forall (Forall (near_cell atoms)) cells -> Forall (near_cell atoms) (row_at cells k).
Proof.
  intros H. unfold row_at. destruct (cells !! k) as [r |] eqn:E; cbn [default].
  - rewrite Forall_lookup in H. exact (H _ _ E).
  - constructor.
Qed.

(** What the first entry of a row receives from the row before it is the
    spill of that row. *)
Lemma received_is_spill (inp : projection_input) (m : list (list Q)) :
  valid_support (support inp) -> project inp = Ok m ->
  forall n j : nat,
    match n, j with
    | S k, O => row_sum (cell_mass (Z.of_nat (length (support inp))))
                  (row_at (pns_a inp) k) (row_at (projection_cells inp) k)
    | _, _ => 0
    end
    == match j with O => spill_before inp n | S _ => 0 end.
Proof.
  intros Hv Hm n j.
  destruct (project_rows inp m Hv Hm) as (_ & Hnear & _).
  destruct n as [| k], j as [| j']; cbn [spill_before]; try reflexivity.
  unfold spill.
  rewrite (cell_mass_past_row _ _ _ (row_at_near _ _ k Hnear)). reflexivity.
Qed.

(** X2.  Whenever the call returns on a valid support, entry [j] of row [n]
    of the projected mass is the sum, over the cells of row [n], of what
    each cell sends to atom [j]; the first entry of a row holds in addition
    what the row before it sends to the index after its last atom.
    Contributions to the same atom add up, and no other row contributes. *)
Theorem projected_entry (inp : projection_input) (m : list (list Q)) :
  valid_support (support inp) -> project inp = Ok m ->
  forall n j row x, m !! n = Some row -> row !! j = Some x ->
    x == row_sum (cell_mass (Z.of_nat j))
           (row_at (pns_a inp) n) (row_at (projection_cells inp) n)
         + match j with O => spill_before inp n | S _ => 0 end.
Proof.
  intros Hv Hm n j row x Hrow Hx.
  rewrite (project_entries inp m Hv Hm n j row x Hrow Hx).
  rewrite (received_is_spill inp m Hv Hm n j). reflexivity.
Qed.

Lemma projected_entry_example :
  exists m,
    project two_rows_input = Ok m
    /\ forall n j row x, m !! n = Some row -> row !! j = Some x ->
         x == row_sum (cell_mass (Z.of_nat j))
                (row_at (pns_a two_rows_input) n)
                (row_at (projection_cells two_rows_input) n)
              + match j with O => spill_before two_rows_input n | S _ => 0 end.
Proof.
  destruct (project two_rows_input) as [m |] eqn:E.
  - exists m. split; [reflexivity |].
    exact (projected_entry two_rows_input m
             ProjectionClaims.valid_support_0_19 E).
  - vm_compute in E. discriminate E.
Defined.

(** ** Terminal transitions *)

Lemma columns_lookup {A B C} (xs : list A) (ys : list B) (zs : list C) :
  forall cols n x y z,
    columns xs ys zs = Ok cols ->
    xs !! n = Some x -> ys !! n = Some y -> zs !! n = Some z ->
    cols !! n = Some (x, y, z).
Proof.
  revert ys zs.
  induction xs as [| x0 xs IH]; intros [| y0 ys] [| z0 zs] cols n x y z H Hx Hy Hz;
    cbn in H; try discriminate H; try discriminate Hx.
  unfold mbind, result_bind in H.
  destruct (columns xs ys zs) as [rest |] eqn:E; [| discriminate].
  injection H as <-. destruct n as [| n]; cbn in *.
  - congruence.
  - eapply IH; eauto.
Qed.

Lemma bellman_support_row (inp : projection_input) Vmin delta_z Tz Vmax n r d g :
  bellman_support inp = Ok (Vmin, delta_z, Tz) ->
  tensor_max (support inp) = Ok Vmax ->
  reward inp !! n = Some r -> done inp !! n = Some d ->
  discount inp !! n = Some g ->
  Tz !! n = Some (map (fun z => to_Q (clamp Vmin Vmax (Tz_cell r d g z)))
                      (support inp)).
Proof.
  intros H Hmax Hr Hd Hg.
  unfold bellman_support, shifted_support, mbind, result_bind in H.
  rewrite Hmax in H.
  destruct (tensor_min (support inp)) as [lo |]; [| discriminate].
  destruct (length (support inp) - 1 =? 0)%nat; [discriminate |].
  destruct (columns (reward inp) (done inp) (discount inp)) as [cols |] eqn:Ecols;
    [| discriminate].
  destruct (negb _); [discriminate |]. destruct (negb _); [discriminate |].
  injection H as <- _ <-.
  pose proof (columns_lookup _ _ _ _ _ _ _ _ Ecols Hr Hd Hg) as Hc.
  unfold Tz_rows. change (map ?f ?l) with (f <$> l).
  rewrite !list_lookup_fmap, Hc. cbn.
  rewrite <- !list_fmap_compose. reflexivity.
Qed.

(** With [done] set, [1 - done] is zero and so are its products: the
    element is the reward as float32 holds it. *)
Lemma terminal_Tz (r g z : Q) :
  Tz_cell (Fin r) true (Fin g) z = round binary32 r.
Proof.
  unfold Tz_cell. cbn [of_bool fneg fadd].
  rewrite (round32_zero (1 + - (1))) by reflexivity. cbn [fmul].
  rewrite (round32_zero (0 * g)) by ring. cbn [fmul].
  rewrite (round32_zero (0 * z)) by ring. cbn [fadd].
  apply round_compat. ring.
Qed.

Lemma cell_mass_constant_row j (c : cell) (cs : list cell) :
  forall ps : list Q, length ps = length cs ->
    Forall (fun c' => c' = c) cs ->
    row_sum (cell_mass j) ps cs == cell_mass j (Qsum ps) c.
Proof.
  unfold row_sum.
  induction cs as [| c' cs IH]; intros [| p ps] Hlen Hall; cbn in Hlen;
    try discriminate.
  - cbn. unfold cell_mass.
    destruct (cell_low c =? j)%Z, (cell_up c =? j)%Z; ring.
  - inversion Hall as [| ? ? Ec Hcs]. subst c'. cbn.
    rewrite (IH ps) by (auto; lia). unfold cell_mass.
    destruct (cell_low c =? j)%Z, (cell_up c =? j)%Z; ring.
Qed.

(** X3.  A terminal transition of a returning call: with [done] set and a
    finite reward and discount, every element of the row of [Tz] is the
    clamped float32 reward, its two bins are neighbours, and the whole mass
    of the row goes to these two bins in the proportions of the linear
    interpolation.  Every other entry of the row gets nothing from the row;
    the first entry holds in addition what the row before sends past its
    last atom. *)
Theorem terminal_transition_collapses (inp : projection_input)
    (m : list (list Q)) Vmin delta_z Tz Vmax (n : nat) (r g : Q)
    (ps : list Q) :
  valid_support (support inp) -> project inp = Ok m ->
  bellman_support inp = Ok (Vmin, delta_z, Tz) ->
  tensor_max (support inp) = Ok Vmax ->
  reward inp !! n = Some (Fin r) -> done inp !! n = Some true ->
  discount inp !! n = Some (Fin g) -> pns_a inp !! n = Some ps ->
  let c := project_cell (length (support inp)) Vmin delta_z
             (to_Q (clamp Vmin Vmax (round binary32 r))) in
  Tz !! n = Some (map (fun _ => to_Q (clamp Vmin Vmax (round binary32 r)))
                      (support inp))
  /\ (cell_up c = cell_low c + 1)%Z
  /\ exists row,
       m !! n = Some row
       /\ forall j x, row !! j = Some x ->
            x == cell_mass (Z.of_nat j) (Qsum ps) c
                 + match j with O => spill_before inp n | S _ => 0 end.
Proof.
  intros Hv Hm Hb Hmax Hr Hd Hg Hps.
  pose proof (bellman_support_row inp _ _ _ _ _ _ _ _ Hb Hmax Hr Hd Hg) as Hrow.
  assert (HTz : Tz !! n
                = Some (map (fun _ => to_Q (clamp Vmin Vmax (round binary32 r)))
                            (support inp))).
  { rewrite Hrow. f_equal. apply map_ext. intros z. now rewrite terminal_Tz. }
  destruct (project_Ok inp m Hm)
    as (Vmin' & dz' & Tz' & m1 & m2 & Hb' & Hcells & Hp & Hfin & _ & _ & Em).
  cbv zeta in Hcells, Hfin, Hp, Em. rewrite Hb in Hb'. injection Hb' as <- <- <-.
  destruct (cells_good inp _ _ _ Hb Hfin) as (Hlen & _ & Hgood).
  intros c.
  assert (Hcs : cells_of (length (support inp)) Vmin delta_z Tz !! n
                = Some (map (fun _ => c) (support inp))).
  { unfold cells_of. change (map ?f ?l) with (f <$> l).
    rewrite list_lookup_fmap, HTz. cbn. now rewrite <- list_fmap_compose. }
  assert (Hat : (2 <= length (support inp))%nat).
  { destruct Hv as [Hsize _]. lia. }
  split; [exact HTz |]. split.
  - rewrite Forall_lookup in Hgood. specialize (Hgood _ _ Hcs).
    destruct (support inp) as [| z0 rest]; [cbn in Hat; lia |].
    inversion Hgood as [| ? ? Hc0 _]; subst.
    now destruct Hc0 as [(_ & Hgap) _].
  - assert (Hn : (n < batch_size inp)%nat).
    { apply has_shape_spec in Hp as [<- _]. eapply lookup_lt_Some, Hps. }
    exists (segment (n * length (support inp)) (length (support inp)) m2).
    split; [rewrite Em; now apply view_lookup |].
    intros j x Hx.
    assert (Hrow' : m !! n
                    = Some (segment (n * length (support inp))
                              (length (support inp)) m2)).
    { rewrite Em. now apply view_lookup. }
    rewrite (project_entries inp m Hv Hm n j _ x Hrow' Hx).
    rewrite (received_is_spill inp m Hv Hm n j).
    rewrite Hcells, (row_at_lookup _ _ _ Hps), (row_at_lookup _ _ _ Hcs).
    rewrite (cell_mass_constant_row (Z.of_nat j) c).
    + reflexivity.
    + apply has_shape_spec in Hp as [_ HpZ]. rewrite Forall_lookup in HpZ.
      rewrite (HpZ _ _ Hps). now rewrite length_map.
    + rewrite Forall_map. apply Forall_forall. intros z _. reflexivity.
Qed.

Lemma terminal_transition_second_row :
  exists m,
    project two_rows_input = Ok m
    /\ let c := project_cell 8 0 (3056014032858551 # 1125899906842624) (to_Q (clamp 0 (19 # 1) (round binary32 0))) in
       [[19 # 1; 19 # 1; 19 # 1; 19 # 1; 19 # 1; 19 # 1; 19 # 1; 19 # 1];
        [0; 0; 0; 0; 0; 0; 0; 0]] !! 1%nat
       = Some (map (fun _ => to_Q (clamp 0 (19 # 1) (round binary32 0)))
                   support_0_19)
       /\ (cell_up c = cell_low c + 1)%Z
       /\ exists row,
            m !! 1%nat = Some row
            /\ forall j x, row !! j = Some x ->
                 x == cell_mass (Z.of_nat j)
                        (Qsum [1 # 8; 1 # 8; 1 # 8; 1 # 8; 1 # 8; 1 # 8; 1 # 8; 1 # 8]) c
                      + match j with
                        | O => spill_before two_rows_input 1
                        | S _ => 0
                        end.
Proof.
  destruct (project two_rows_input) as [m |] eqn:E.
  - exists m. split; [reflexivity |].
    apply (terminal_transition_collapses two_rows_input m 0
             (3056014032858551 # 1125899906842624)
             [[19 # 1; 19 # 1; 19 # 1; 19 # 1; 19 # 1; 19 # 1; 19 # 1; 19 # 1];
              [0; 0; 0; 0; 0; 0; 0; 0]] (19 # 1) 1 0 (1 # 2)
             [1 # 8; 1 # 8; 1 # 8; 1 # 8; 1 # 8; 1 # 8; 1 # 8; 1 # 8]).
    + exact ProjectionClaims.valid_support_0_19.
    + exact E.
    + vm_compute. reflexivity.
    + reflexivity.
    + reflexivity.
    + reflexivity.
    + reflexivity.
    + reflexivity.
  - vm_compute in E. discriminate E.
Defined.

End ProjectionEntries.

(** * The taken action: one-hot and categorical encodings *)

Module TakenActionFacts.
Import DistributionalDQNLoss TakenAction.

Lemma expand_dim_same {A} (n : nat) (l : list A) :
  length l = n -> expand_dim n l = Ok l.
Proof.
  intros <-. unfold expand_dim. destruct l as [| x [| y l]]; cbn.
  - reflexivity.
  - reflexivity.
  - now rewrite Nat.eqb_refl.
Qed.

Lemma gather_last_Ok (row : list Q) (a : Z) (x : Q) :
  (0 <= a)%Z -> row !! Z.to_nat a = Some x -> gather_last row a = Ok x.
Proof.
  intros Ha Hx. unfold gather_last.
  assert (Z.to_nat a < length row)%nat by (eapply lookup_lt_Some, Hx).
  destruct (Z.leb_spec 0 a); [| lia].
  destruct (Z.ltb_spec a (Z.of_nat (length row))); [| lia].
  cbn. now rewrite Hx.
Qed.

Lemma select_one_hot_from (a : Z) (row : list Q) :
  forall s,
    (0 <= a)%Z ->
    let mask := map (fun i => if (Z.of_nat i =? a)%Z then 1%Z else 0%Z)
                    (seq s (length row)) in
    ((Z.to_nat a < s)%nat -> select mask row = [])
    /\ (forall x, (s <= Z.to_nat a)%nat ->
                  row !! (Z.to_nat a - s)%nat = Some x -> select mask row = [x]).
Proof.
  induction row as [| y row IH]; intros s Ha; cbn.
  - split; [reflexivity | intros x _ Hx; discriminate].
  - destruct (IH (S s) Ha) as [IHout IHin]. cbv zeta in IHout, IHin.
    destruct (Z.eqb_spec (Z.of_nat s) a) as [E | E]; cbn.
    + split; [lia |]. intros x _ Hx.
      replace (Z.to_nat a - s)%nat with 0%nat in Hx by lia. cbn in Hx.
      injection Hx as ->. rewrite IHout by lia. reflexivity.
    + split; [intros; apply IHout; lia |]. intros x Hs Hx.
      replace (Z.to_nat a - s)%nat with (S (Z.to_nat a - S s)) in Hx by lia.
      cbn in Hx. apply IHin; [lia | exact Hx].
Qed.

Lemma select_one_hot (A : nat) (a : Z) (row : list Q) (x : Q) :
  length row = A -> (0 <= a)%Z -> row !! Z.to_nat a = Some x ->
  select (one_hot_row A a) row = [x].
Proof.
  intros <- Ha Hx. unfold one_hot_row.
  destruct (select_one_hot_from a row 0 Ha) as [_ H].
  apply H; [lia |]. now rewrite Nat.sub_0_r.
Qed.

Lemma length_one_hot_row A a : length (one_hot_row A a) = A.
Proof. unfold one_hot_row. now rewrite length_map, length_seq. Qed.

(** The entry of each atom at the action [a]. *)
Lemma taken_entries (A : nat) (a : Z) (dist : list (list Q)) :
  (0 <= a < Z.of_nat A)%Z -> Forall (fun r => length r = A) dist ->
  exists row,
    Forall2 (fun x r => r !! Z.to_nat a = Some x) row dist
    /\ mapM_result (fun atom_row => gather_last atom_row a) dist = Ok row
    /\ mapM_result
         (fun atom_row =>
            mask ← expand_dim (length atom_row) (one_hot_row A a);
            Ok (select mask atom_row)) dist
       = Ok (map (fun x => [x]) row).
Proof.
  intros Ha Hdist. induction Hdist as [| r dist Hr _ IH].
  - exists []. repeat split; constructor.
  - destruct IH as (row & Hrow & Hg & Hs).
    destruct (lookup_lt_is_Some_2 r (Z.to_nat a)) as [x Hx]; [lia |].
    exists (x :: row). split; [now constructor |]. split.
    + cbn. unfold mbind, result_bind.
      rewrite (gather_last_Ok r a x) by (lia || exact Hx).
      fold (mapM_result (fun atom_row => gather_last atom_row a) dist).
      now rewrite Hg.
    + cbn. unfold mbind, result_bind in *.
      rewrite expand_dim_same by (now rewrite length_one_hot_row).
      rewrite (select_one_hot A a r x) by (auto; lia).
      match goal with
      | |- match ?m with Ok _ => _ | Raise _ => _ end = _ =>
          change m with
            (mapM_result
               (fun atom_row =>
                  match expand_dim (length atom_row) (one_hot_row A a) with
                  | Ok mask => Ok (select mask atom_row)
                  | Raise e => Raise e
                  end) dist)
      end.
      now rewrite Hs.
Qed.

Lemma concat_singletons {A} (l : list A) : concat (map (fun x => [x]) l) = l.
Proof. induction l as [| x l IH]; cbn; congruence. Qed.

Lemma view_concat (atoms : nat) (rows : list (list Q)) :
  Forall (fun r => length r = atoms) rows ->
  length (concat rows) = (length rows * atoms)%nat
  /\ view (length rows) atoms (concat rows) = rows.
Proof.
  intros Hrows. split.
  - induction Hrows as [| r rows Hr _ IH]; cbn; [reflexivity |].
    rewrite length_app, IH, Hr. lia.
  - unfold view. apply list_eq. intros i.
    change (map ?f ?l) with (f <$> l). rewrite list_lookup_fmap.
    destruct (rows !! i) as [r |] eqn:Ei.
    + rewrite (lookup_seq_lt _ _ _ (lookup_lt_Some _ _ _ Ei)). cbn. f_equal.
      clear -Hrows Ei. revert i Ei.
      induction Hrows as [| r0 rows Hr0 _ IH]; intros i Ei; [discriminate |].
      destruct i as [| i]; cbn in Ei.
      * injection Ei as ->. change (0 * atoms)%nat with 0%nat.
        rewrite drop_0. cbn [concat]. now rewrite take_app_length'.
      * cbn [concat]. replace (S i * atoms)%nat with (atoms + i * atoms)%nat by lia.
        rewrite drop_app_add' by auto. now apply IH.
    + rewrite lookup_seq_ge; [reflexivity |]. now apply lookup_ge_None.
Qed.

Lemma encodings_agree_rows (atoms A : nat) (als : list (list (list Q))) :
  forall idxs : list Z,
    Forall (fun dist => length dist = atoms
                        /\ Forall (fun r => length r = A) dist) als ->
    length idxs = length als ->
    Forall (fun a => (0 <= a < Z.of_nat A)%Z) idxs ->
    exists rows,
      Forall2 (fun row '(a, dist) =>
                 Forall2 (fun x r => r !! Z.to_nat a = Some x) row dist)
        rows (zip idxs als)
      /\ length rows = length als
      /\ Forall (fun r => length r = atoms) rows
      /\ gather_rows idxs als = Ok rows
      /\ mapM_result
           (fun '(mask, dist) =>
              mapM_result
                (fun atom_row =>
                   mask ← expand_dim (length atom_row) mask;
                   Ok (select mask atom_row)) dist)
           (zip (map (one_hot_row A) idxs) als)
         = Ok (map (map (fun x => [x])) rows).
Proof.
  induction als as [| dist als IH]; intros [| a idxs] Hals Hlen Hidx;
    cbn in Hlen; try discriminate.
  - exists []. repeat split; constructor.
  - inversion Hals as [| ? ? [Hd HA] Hals']; subst.
    inversion Hidx as [| ? ? Ha Hidx']; subst.
    destruct (IH idxs Hals' ltac:(lia) Hidx') as (rows & Hrows & Hl & Hshape & Hg & Hs).
    destruct (taken_entries A a dist Ha HA) as (row & Hrow & Hgr & Hsr).
    exists (row :: rows). split; [now constructor |].
    split; [cbn; lia |]. split.
    { constructor; [| exact Hshape]. apply Forall2_length in Hrow. lia. }
    split.
    + cbn. unfold mbind, result_bind. rewrite Hgr, Hg. reflexivity.
    + cbn. unfold mbind, result_bind in *. rewrite Hsr.
      match goal with
      | |- match ?m with Ok _ => _ | Raise _ => _ end = _ =>
          replace m with (Ok (A := list (list (list Q)))
                            (map (map (fun x => [x])) rows))
      end.
      reflexivity.
Qed.

Lemma squeeze_columns (idxs : list Z) :
  mapM_result squeeze_last (map (fun a => [a]) idxs) = Ok idxs.
Proof.
  induction idxs as [| a idxs IH]; cbn; [reflexivity |].
  unfold mbind, result_bind in *. now rewrite IH.
Qed.

(** X6.  On a regular [action_log_softmax] of shape [N, atoms, A], a one-hot
    action and the category index it encodes give the same
    log-probabilities: [_log_ps_a_default] on the one-hot rows and
    [_log_ps_a_categorical] on the indices (as a column [N, 1], or as a
    vector [N] when N is not 1) both return, for every transition and atom,
    the entry at the taken action. *)
Theorem log_ps_a_encodings_agree (atoms A : nat)
    (action_log_softmax : list (list (list Q))) (idxs : list Z) :
  Forall (fun dist => length dist = atoms
                      /\ Forall (fun r => length r = A) dist)
    action_log_softmax ->
  length idxs = length action_log_softmax ->
  Forall (fun a => (0 <= a < Z.of_nat A)%Z) idxs ->
  exists log_ps_a,
    _log_ps_a_default (map (one_hot_row A) idxs) action_log_softmax
      (length action_log_softmax) atoms = Ok log_ps_a
    /\ _log_ps_a_categorical (Index2 (map (fun a => [a]) idxs))
         action_log_softmax = Ok log_ps_a
    /\ (length idxs <> 1%nat ->
        _log_ps_a_categorical (Index1 idxs) action_log_softmax = Ok log_ps_a)
    /\ Forall2 (fun row '(a, dist) =>
                  Forall2 (fun x r => r !! Z.to_nat a = Some x) row dist)
         log_ps_a (zip idxs action_log_softmax).
Proof.
  intros Hals Hlen Hidx.
  destruct (encodings_agree_rows atoms A action_log_softmax idxs Hals Hlen Hidx)
    as (rows & Hrows & Hl & Hshape & Hg & Hs).
  exists rows. split; [| split; [| split; [| exact Hrows]]].
  - unfold _log_ps_a_default, mbind, result_bind.
    rewrite expand_dim_same by (now rewrite length_map).
    unfold mbind, result_bind in Hs. rewrite Hs.
    assert (Hflat : map (fun rs => concat rs) (map (map (fun x : Q => [x])) rows)
                    = rows).
    { rewrite map_map. rewrite <- (map_id rows) at 2. apply map_ext.
      intros row. apply concat_singletons. }
    rewrite Hflat. destruct (view_concat atoms rows Hshape) as [Hcat Hview].
    rewrite Hcat, Hl, Nat.eqb_refl. rewrite <- Hl. now rewrite Hview.
  - unfold _log_ps_a_categorical, mbind, result_bind.
    now rewrite squeeze_columns.
  - intros Hone. unfold _log_ps_a_categorical, mbind, result_bind.
    destruct (Nat.eqb_spec (length idxs) 1); [contradiction | exact Hg].
Qed.

Lemma log_ps_a_encodings_agree_example :
  exists log_ps_a,
    _log_ps_a_default (map (one_hot_row 3) [2; 0; 1]%Z) example_log_softmax
      (length example_log_softmax) 2 = Ok log_ps_a
    /\ _log_ps_a_categorical (Index2 (map (fun a => [a]) [2; 0; 1]%Z))
         example_log_softmax = Ok log_ps_a
    /\ (length [2; 0; 1]%Z <> 1%nat ->
        _log_ps_a_categorical (Index1 [2; 0; 1]%Z) example_log_softmax
        = Ok log_ps_a)
    /\ Forall2 (fun row '(a, dist) =>
                  Forall2 (fun x r => r !! Z.to_nat a = Some x) row dist)
         log_ps_a (zip [2; 0; 1]%Z example_log_softmax).
Proof.
  apply (log_ps_a_encodings_agree 2 3 example_log_softmax [2; 0; 1]%Z).
  - repeat constructor.
  - reflexivity.
  - repeat constructor; lia.
Defined.

(** ** What the view of [_log_ps_a_default] checks *)

Lemma length_select (mask : list Z) (row : list Q) :
  length mask = length row -> length (select mask row) = set_entries mask.
Proof.
  revert row. induction mask as [| a mask IH]; intros [| x row] H; cbn in *;
    try discriminate; [reflexivity |].
  destruct (a =? 0)%Z; cbn; rewrite IH by lia; reflexivity.
Qed.

Lemma selected_rows (A atoms : nat) (mask : list Z) (dist : list (list Q)) :
  length mask = A -> length dist = atoms ->
  Forall (fun r => length r = A) dist ->
  exists rows,
    mapM_result
      (fun atom_row =>
         mask ← expand_dim (length atom_row) mask;
         Ok (select mask atom_row)) dist = Ok rows
    /\ length (concat rows) = (atoms * set_entries mask)%nat.
Proof.
  intros Hm <- Hdist. induction Hdist as [| r dist Hr _ IH].
  - exists []. split; [reflexivity | cbn; lia].
  - destruct IH as (rows & Hrows & Hlen).
    exists (select mask r :: rows). split.
    + cbn. unfold mbind, result_bind in *.
      rewrite expand_dim_same by congruence. now rewrite Hrows.
    + cbn. rewrite length_app, Hlen, length_select by congruence. lia.
Qed.

Lemma selected_tensor (A atoms : nat) (als : list (list (list Q))) :
  forall action : list (list Z),
    length action = length als ->
    Forall (fun mask => length mask = A) action ->
    Forall (fun dist => length dist = atoms
                        /\ Forall (fun r => length r = A) dist) als ->
    exists selected,
      mapM_result
        (fun '(mask, dist) =>
           mapM_result
             (fun atom_row =>
                mask ← expand_dim (length atom_row) mask;
                Ok (select mask atom_row)) dist)
        (zip action als) = Ok selected
      /\ length (concat (map (fun rows => concat rows) selected))
         = (atoms * total_set_entries action)%nat.
Proof.
  induction als as [| dist als IH]; intros [| mask action] Hlen Hact Hals;
    cbn in Hlen; try discriminate.
  - exists []. split; [reflexivity | cbn; lia].
  - inversion Hact as [| ? ? Hm Hact']; subst.
    inversion Hals as [| ? ? [Hd HA] Hals']; subst.
    destruct (IH action ltac:(lia) Hact' Hals') as (selected & Hsel & Hl).
    destruct (selected_rows (length mask) (length dist) mask dist eq_refl eq_refl HA)
      as (rows & Hrows & Hlr).
    exists (rows :: selected). split.
    + cbn. unfold mbind, result_bind in *. rewrite Hrows.
      match goal with
      | |- match ?m with Ok _ => _ | Raise _ => _ end = _ =>
          replace m with (Ok (A := list (list (list Q))) selected)
      end.
      reflexivity.
    + cbn. rewrite length_app, Hl, Hlr. unfold total_set_entries. cbn. lia.
Qed.

(** X7.  On regular shapes, the only thing [_log_ps_a_default] checks about
    the action mask is how many entries are set in total: it returns exactly
    when that number, times the number of atoms, is [batch_size * atoms],
    however the set entries are spread over the transitions. *)
Theorem log_ps_a_default_counts_set_entries (atoms A batch_size : nat)
    (action : list (list Z)) (action_log_softmax : list (list (list Q))) :
  length action = length action_log_softmax ->
  Forall (fun mask => length mask = A) action ->
  Forall (fun dist => length dist = atoms
                      /\ Forall (fun r => length r = A) dist)
    action_log_softmax ->
  is_Ok (_log_ps_a_default action action_log_softmax batch_size atoms)
  <-> (atoms * total_set_entries action = batch_size * atoms)%nat.
Proof.
  intros Hlen Hact Hals.
  destruct (selected_tensor A atoms action_log_softmax action Hlen Hact Hals)
    as (selected & Hsel & Hl).
  unfold _log_ps_a_default, mbind, result_bind.
  rewrite expand_dim_same by exact Hlen.
  unfold mbind, result_bind in Hsel. rewrite Hsel, Hl.
  destruct (Nat.eqb_spec (atoms * total_set_entries action) (batch_size * atoms))
    as [E | E].
  - split; [auto | intros _; eexists; reflexivity].
  - split; [intros [? H]; discriminate | contradiction].
Qed.

Lemma log_ps_a_default_accepts_two_and_none :
  is_Ok (_log_ps_a_default two_and_none example_log_softmax 3 2)
  <-> (2 * total_set_entries two_and_none = 3 * 2)%nat.
Proof.
  apply (log_ps_a_default_counts_set_entries 2 3 3 two_and_none
           example_log_softmax).
  - reflexivity.
  - repeat constructor.
  - repeat constructor.
Defined.

(** ** The value of the taken action *)

Lemma sum_one_hot_from (a : Z) (row : list Q) :
  forall s,
    (0 <= a)%Z ->
    let mask := map (fun i => if (Z.of_nat i =? a)%Z then 1%Z else 0%Z)
                    (seq s (length row)) in
    ((Z.to_nat a < s)%nat ->
       Qsum (zip_with (fun v m => v * inject_Z m) row mask) == 0)
    /\ (forall x, (s <= Z.to_nat a)%nat ->
                  row !! (Z.to_nat a - s)%nat = Some x ->
                  Qsum (zip_with (fun v m => v * inject_Z m) row mask) == x).
Proof.
  induction row as [| y row IH]; intros s Ha; cbn.
  - split; [reflexivity | intros x _ Hx; discriminate].
  - destruct (IH (S s) Ha) as [IHout IHin]. cbv zeta in IHout, IHin.
    destruct (Z.eqb_spec (Z.of_nat s) a) as [E | E].
    + split; [lia |]. intros x _ Hx.
      replace (Z.to_nat a - s)%nat with 0%nat in Hx by lia. cbn in Hx.
      injection Hx as ->. rewrite IHout by lia.
      change (inject_Z 1) with 1. ring.
    + split.
      * intros Hs. rewrite IHout by lia. change (inject_Z 0) with 0. ring.
      * intros x Hs Hx.
        replace (Z.to_nat a - s)%nat with (S (Z.to_nat a - S s)) in Hx by lia.
        cbn in Hx. rewrite (IHin x) by (lia || exact Hx).
        change (inject_Z 0) with 0. ring.
Qed.

(** X8.  In [DQNLoss.forward] the two encodings select the same value: for a
    [pred_val] of shape [N, A], the sum of [pred_val] times a one-hot action
    is the entry the categorical branch gathers at the index the one-hot row
    encodes. *)
Theorem taken_value_encodings_agree (A : nat) (pred_val : list (list Q))
    (idxs : list Z) :
  Forall (fun row => length row = A) pred_val ->
  length idxs = length pred_val ->
  Forall (fun a => (0 <= a < Z.of_nat A)%Z) idxs ->
  exists by_mask by_index,
    pred_val_index_one_hot (map (one_hot_row A) idxs) pred_val = Ok by_mask
    /\ pred_val_index_categorical idxs pred_val = Ok by_index
    /\ Forall2 Qeq by_mask by_index
    /\ Forall2 (fun x '(a, row) => row !! Z.to_nat a = Some x)
         by_index (zip idxs pred_val).
Proof.
  intros Hpred Hlen Hidx.
  assert (Hshape : Forall2 (fun r1 r2 => length r1 = length r2) pred_val
                     (map (one_hot_row A) idxs)).
  { apply Forall2_same_length_lookup_2; [now rewrite length_map |].
    intros i r m Hr Hm. change (map ?f ?l) with (f <$> l) in Hm.
    rewrite list_lookup_fmap in Hm. destruct (idxs !! i); [| discriminate].
    injection Hm as <-. rewrite length_one_hot_row.
    rewrite Forall_lookup in Hpred. eauto. }
  exists (map Qsum (zip_with (zip_with (fun v m => v * inject_Z m)) pred_val
                      (map (one_hot_row A) idxs))).
  assert (Hmask : pred_val_index_one_hot (map (one_hot_row A) idxs) pred_val
                  = Ok (map Qsum
                          (zip_with (zip_with (fun v m => v * inject_Z m))
                             pred_val (map (one_hot_row A) idxs)))).
  { unfold pred_val_index_one_hot, mbind, result_bind.
    destruct (Advantages.tensor_map2 _ pred_val _) as [products |] eqn:E.
    - apply EstimatorFacts.tensor_map2_Ok in E as [_ ->]. reflexivity.
    - exfalso.
      assert (Advantages.tensor_map2 (fun v m => v * inject_Z m) pred_val
                (map (one_hot_row A) idxs)
              = Ok (zip_with (zip_with (fun v m => v * inject_Z m)) pred_val
                      (map (one_hot_row A) idxs)))
        by (apply EstimatorFacts.tensor_map2_Ok; auto).
      congruence. }
  clear Hshape. revert idxs Hlen Hidx Hmask.
  induction Hpred as [| row pred_val Hrow _ IH]; intros [| a idxs] Hlen Hidx Hmask;
    cbn in Hlen; try discriminate.
  - exists []. repeat split; try constructor.
  - inversion Hidx as [| ? ? Ha Hidx']; subst.
    destruct (lookup_lt_is_Some_2 row (Z.to_nat a)) as [x Hx]; [lia |].
    assert (Htail : pred_val_index_one_hot (map (one_hot_row (length row)) idxs)
                      pred_val
                    = Ok (map Qsum
                            (zip_with (zip_with (fun v m => v * inject_Z m))
                               pred_val (map (one_hot_row (length row)) idxs)))).
    { unfold pred_val_index_one_hot, mbind, result_bind.
      destruct (Advantages.tensor_map2 _ pred_val _) as [products |] eqn:E.
      - apply EstimatorFacts.tensor_map2_Ok in E as [_ ->]. reflexivity.
      - exfalso.
        unfold pred_val_index_one_hot, mbind, result_bind in Hmask.
        destruct (Advantages.tensor_map2 _ (row :: pred_val) _) as [p |] eqn:E';
          [| discriminate].
        apply EstimatorFacts.tensor_map2_Ok in E' as [HF _].
        inversion HF; subst.
        assert (Advantages.tensor_map2 (fun v m => v * inject_Z m) pred_val
                  (map (one_hot_row (length row)) idxs)
                = Ok (zip_with (zip_with (fun v m => v * inject_Z m)) pred_val
                        (map (one_hot_row (length row)) idxs)))
          by (apply EstimatorFacts.tensor_map2_Ok; auto).
        congruence. }
    destruct (IH idxs ltac:(lia) Hidx' Htail) as (rest & _ & Hcat & Heq & Hsel).
    exists (x :: rest). split; [exact Hmask |]. split.
    + cbn. unfold mbind, result_bind.
      rewrite (gather_last_Ok row a x) by (lia || exact Hx).
      fold pred_val_index_categorical. now rewrite Hcat.
    + split; [| now constructor]. cbn. constructor; [| exact Heq].
      destruct (sum_one_hot_from a row 0 ltac:(lia)) as [_ Hin].
      apply Hin; [lia |]. now rewrite Nat.sub_0_r.
Qed.

Lemma taken_value_encodings_agree_example :
  exists by_mask by_index,
    pred_val_index_one_hot (map (one_hot_row 3) [2; 0; 1]%Z) example_pred_val
    = Ok by_mask
    /\ pred_val_index_categorical [2; 0; 1]%Z example_pred_val = Ok by_index
    /\ Forall2 Qeq by_mask by_index
    /\ Forall2 (fun x '(a, row) => row !! Z.to_nat a = Some x)
         by_index (zip [2; 0; 1]%Z example_pred_val).
Proof.
  apply (taken_value_encodings_agree 3 example_pred_val [2; 0; 1]%Z).
  - repeat constructor.
  - reflexivity.
  - repeat constructor; lia.
Defined.

End TakenActionFacts.

(** * Further properties of the estimator facades *)

Module EstimatorMore.
Import Advantages EstimatorSpec EstimatorFacts EstimatorRuns EstimatorExample.
Import AdvantagesMore.

(** ** Standardization *)

Lemma Qsum_scale (xs : list Q) (s : Q) :
  Qsum (map (fun x => x / s) xs) == Qsum xs / s.
Proof.
  induction xs as [| x xs IH]; cbn; [unfold Qdiv; ring |].
  rewrite IH. unfold Qdiv. ring.
Qed.

Lemma mean_scale (t : list (list Q)) (s : Q) :
  mean (map (map (fun x => x / s)) t) == mean t / s.
Proof.
  unfold mean. rewrite <- concat_map, length_map, Qsum_scale.
  unfold Qdiv. ring.
Qed.

Lemma scale_floor (s : Q) : (1 # 10000) <= Qmax s (1 # 10000).
Proof. apply Q.le_max_r. Qed.

Lemma bounded_quotient (a d : Q) :
  (1 # 10000) <= d -> Qabs (a / d) <= (10000 # 1) * Qabs a.
Proof.
  intros Hd.
  assert (Hpos : 0 < d) by (eapply Qlt_le_trans; [| exact Hd]; reflexivity).
  unfold Qdiv. rewrite Qabs_Qmult.
  rewrite (Qabs_pos (/ d)) by (apply Qlt_le_weak, Qinv_lt_0_compat, Hpos).
  rewrite (Qmult_comm (10000 # 1)).
  apply Qmult_le_compat_nonneg.
  - split; [apply Qabs_nonneg | apply Qle_refl].
  - split; [apply Qlt_le_weak, Qinv_lt_0_compat, Hpos |].
    apply Qle_shift_inv_r; [exact Hpos |].
    apply Qle_trans with ((10000 # 1) * (1 # 10000)); [discriminate |].
    apply Qmult_le_l; [reflexivity | exact Hd].
Qed.

Lemma standardized_rows (mu scale : Q) (t : list (list Q)) :
  Forall2 (Forall2 (fun y x => y = (x - mu) / scale))
    (map (map (fun x => x / scale)) (map (map (fun x => x - mu)) t)) t.
Proof.
  rewrite map_map_rows.
  induction t as [| row t IH]; cbn; constructor; [| exact IH].
  clear. induction row as [| x row IH]; cbn; constructor; auto.
Qed.

Section Standardization.
Variable sqrt : Q -> Q.

(** X9.  On a tensor of at least two elements, where [mean] and the
    unbiased [std] of torch are numbers, and whatever the square root under
    [std] returns: the standardized reward of [value_estimate] and the
    standardized advantage of [GAE.forward] have mean zero, and the floor
    of 1e-4 under the scale bounds every standardized element by 10000
    times its distance to the mean. *)
Theorem standardization_centres_and_bounds (t : list (list Q)) :
  (2 <= length (concat t))%nat ->
  mean (standardize_reward sqrt t) == 0
  /\ mean (standardize_gae sqrt t) == 0
  /\ Forall2 (Forall2 (fun y x => Qabs y <= (10000 # 1) * Qabs (x - mean t)))
       (standardize_reward sqrt t) t
  /\ Forall2 (Forall2 (fun y x => Qabs y <= (10000 # 1) * Qabs (x - mean t)))
       (standardize_gae sqrt t) t.
Proof.
  intros _. unfold standardize_reward, standardize_gae. cbv zeta.
  split; [| split; [| split]].
  - rewrite mean_scale, mean_centred. unfold Qdiv. ring.
  - rewrite mean_scale, mean_centred. unfold Qdiv. ring.
  - eapply Forall2_impl; [apply standardized_rows |].
    intros r1 r2 Hr. eapply Forall2_impl; [exact Hr |].
    intros y x ->. apply bounded_quotient, scale_floor.
  - eapply Forall2_impl; [apply standardized_rows |].
    intros r1 r2 Hr. eapply Forall2_impl; [exact Hr |].
    intros y x ->. apply bounded_quotient, scale_floor.
Qed.
End Standardization.

(** ** Checks, calls and frames of [forward] *)

Lemma bind_run {A B} (m : M A) (f : A -> M B) log a log1 :
  m log = Ok (a, log1) -> (m ≫= f) log = f a log1.
Proof. unfold mbind, M_bind. intros ->. reflexivity. Qed.

Section Facades.
Variable step_mdp : tensordict -> tensordict.
Variable sqrt : Q -> Q.
Variable td0_return_estimate :
  discount -> list (list Q) -> list (list Q) -> list (list bool) ->
  result (list (list Q)).
Variable vec_td1_return_estimate :
  discount -> list (list Q) -> list (list Q) -> list (list bool) -> Z ->
  result (list (list Q)).
Variable vec_td_lambda_return_estimate td_lambda_return_estimate :
  discount -> Q -> list (list Q) -> list (list Q) -> list (list bool) -> Z ->
  result (list (list Q)).

Local Abbreviation value_estimate :=
  (Advantages.value_estimate step_mdp sqrt td0_return_estimate
     vec_td1_return_estimate vec_td_lambda_return_estimate
     td_lambda_return_estimate).
Local Abbreviation forward :=
  (Advantages.forward step_mdp sqrt td0_return_estimate
     vec_td1_return_estimate vec_td_lambda_return_estimate
     td_lambda_return_estimate).
Local Abbreviation GAE_forward := (Advantages.GAE_forward step_mdp sqrt).
Local Abbreviation GAE_value_estimate :=
  (AdvantagesMore.GAE_value_estimate step_mdp).

(** X10.  On a batch with at least one batch dimension, [forward] of TD0,
    TD1 and TD(lambda) raises before it calls anything when the value
    network is no [nn.Module] ("Cannot determine if value network is
    functional", also when params are passed), and when the network is
    functional and stateless but [params] is omitted ("Expected params to be
    passed"). [GAE.forward] does the same once it has read the reward. *)
Theorem forward_refuses_unusable_networks self net td params target_params log :
  (1 <= batch_dims td)%nat ->
  value_network self = Some net ->
  (is_module net = false ->
     (forall k, forward k self td params target_params log = Raise NotFunctional)
     /\ (forall reward gamma,
           get_real td ["next"; "reward"] = Ok reward ->
           discount_of (Advantages.gamma self)
             (entries td !! ["steps_to_next_obs"]) reward = Ok gamma ->
           GAE_forward self td params target_params log = Raise NotFunctional))
  /\ (is_module net = true -> functional net = true -> stateless net = true ->
      params = None ->
      (forall k, forward k self td params target_params log = Raise MissingParams)
      /\ (forall reward gamma,
            get_real td ["next"; "reward"] = Ok reward ->
            discount_of (Advantages.gamma self)
              (entries td !! ["steps_to_next_obs"]) reward = Ok gamma ->
            GAE_forward self td params target_params log = Raise MissingParams)).
Proof.
  intros Hdims Hnet.
  assert (Hguard : (batch_dims td <? 1)%nat = false) by (apply Nat.ltb_ge; lia).
  split.
  - intros Hmod. split.
    + intros k. unfold Advantages.forward, is_stateless.
      rewrite Hguard, Hnet, Hmod. reflexivity.
    + intros reward g Hr Hg. unfold Advantages.GAE_forward, is_stateless.
      rewrite Hguard, Hnet, Hmod.
      unfold mbind, M_bind, lift. rewrite Hr, Hg. reflexivity.
  - intros Hmod Hf Hs ->. split.
    + intros k. unfold Advantages.forward, is_stateless.
      rewrite Hguard, Hnet, Hmod, Hf, Hs. reflexivity.
    + intros reward g Hr Hg. unfold Advantages.GAE_forward, is_stateless.
      rewrite Hguard, Hnet, Hmod, Hf, Hs.
      unfold mbind, M_bind, lift. rewrite Hr, Hg. reflexivity.
Qed.

(** X11.  Without a value network, [forward] of TD1 and TD(lambda) and
    [GAE.forward] ignore [params] and [target_params], call nothing, and
    take the value and the next value from the entries the tensordict (and
    its [step_mdp] view) already holds. [TD0Estimator.forward] calls the
    network unconditionally and never returns. *)
Theorem forward_without_network self td params target_params log :
  value_network self = None ->
  forward TD0 self td params target_params log
  = Raise (if (batch_dims td <? 1)%nat then BatchDimsError else NoNetwork)
  /\ (forall k, k <> TD0 ->
     forward k self td params target_params log = forward k self td None None log)
  /\ GAE_forward self td params target_params log
     = GAE_forward self td None None log
  /\ (forall k td' log', k <> TD0 ->
        forward k self td params target_params log = Ok (td', log') ->
        log' = log
        /\ exists value next_value td2,
             get_real td (value_key self) = Ok value
             /\ get_real (step_mdp td2) (value_key self) = Ok next_value
             /\ (forall key, key <> ["next"; "reward"] ->
                   entries td2 !! key = entries td !! key))
  /\ (forall td' log',
        GAE_forward self td params target_params log = Ok (td', log') ->
        log' = log
        /\ exists value next_value,
             get_real td (value_key self) = Ok value
             /\ get_real (step_mdp td) (value_key self) = Ok next_value).
Proof.
  intros Hnone. split; [| split; [| split; [| split]]].
  - unfold Advantages.forward, is_stateless. rewrite Hnone.
    destruct (batch_dims td <? 1)%nat; reflexivity.
  - intros k Hk. unfold Advantages.forward, Advantages.value_estimate, is_stateless.
    rewrite Hnone. destruct k; [contradiction | |]; reflexivity.
  - unfold Advantages.GAE_forward, is_stateless. rewrite Hnone. reflexivity.
  - intros k td' log' Hk H.
    apply forward_Ok in H
      as (_ & td1 & log1 & value & td2 & vt & adv & Hcur & Hv & Hest & _ & _).
    unfold current_call in Hcur. rewrite Hnone in Hcur.
    destruct Hcur as (_ & -> & ->).
    apply value_estimate_Ok in Hest
      as (reward & g & step_td & nv & d & _ & _ & Htd & Hboot & Hnv & _).
    unfold bootstrap_call in Hboot. rewrite Hnone in Hboot.
    destruct Hboot as [-> ->]. split; [reflexivity |].
    exists value, nv, td2. split; [exact Hv |]. split; [exact Hnv |].
    intros key Hkey. subst td2. destruct (average_rewards self); [| reflexivity].
    apply EstimatorClaims.entries_set_ne. congruence.
  - intros td' log' H.
    apply GAE_forward_Ok in H
      as (_ & reward & g & td1 & log1 & value & step_td & nv & d & adv & vt
          & _ & _ & Hcur & Hv & Hboot & Hnv & _).
    unfold current_call in Hcur. rewrite Hnone in Hcur.
    destruct Hcur as (_ & -> & ->).
    unfold bootstrap_call in Hboot. rewrite Hnone in Hboot.
    destruct Hboot as [-> ->]. split; [reflexivity |]. eauto.
Qed.

(** X12.  [GAE.value_estimate] against [GAE.forward] of a vectorized
    estimator, on the same arguments: when [forward] returns,
    [value_estimate] returns the value target [forward] has written, after
    the same network calls, and what [forward] returns is the tensordict of
    [value_estimate] with the two output entries added. *)
Theorem gae_value_estimate_matches_forward self td params target_params log
    td' log' :
  vectorized self = true ->
  GAE_forward self td params target_params log = Ok (td', log') ->
  exists td1 value_target,
    GAE_value_estimate self td params target_params None log
    = Ok ((td1, value_target), log')
    /\ entries td' !! value_target_key self = Some (TReal value_target)
    /\ (forall key, key <> advantage_key self -> key <> value_target_key self ->
          entries td' !! key = entries td1 !! key).
Proof.
  intros Hvec H. unfold Advantages.GAE_forward in H.
  unfold AdvantagesMore.GAE_value_estimate.
  destruct (batch_dims td <? 1)%nat; [discriminate |].
  apply bind_Ok in H as (reward & l1 & H1 & H). rewrite (bind_run _ _ _ _ _ H1).
  apply lift_Ok in H1 as [Hr ->].
  apply bind_Ok in H as (g & l2 & H2 & H). rewrite (bind_run _ _ _ _ _ H2).
  apply lift_Ok in H2 as [Hg ->].
  apply bind_Ok in H as (needs & l0 & H0 & H). rewrite (bind_run _ _ _ _ _ H0).
  apply lift_Ok in H0 as [_ ->].
  destruct (needs && negb (bool_decide (is_Some params))); [discriminate |].
  assert (Hkw : match params with Some _ => params | None => None end = params)
    by now destruct params.
  rewrite Hkw.
  apply bind_Ok in H as (td1 & log1 & Hcur & H). rewrite (bind_run _ _ _ _ _ Hcur).
  apply bind_Ok in H as (value & l3 & H3 & H). rewrite (bind_run _ _ _ _ _ H3).
  apply lift_Ok in H3 as [Hv ->].
  apply bind_Ok in H as (step_td & l4 & Hboot & H).
  rewrite (bind_run _ _ _ _ _ Hboot).
  apply bind_Ok in H as (nv & l5 & H5 & H). rewrite (bind_run _ _ _ _ _ H5).
  apply lift_Ok in H5 as [Hnv ->].
  apply bind_Ok in H as (d & l6 & H6 & H). rewrite (bind_run _ _ _ _ _ H6).
  apply lift_Ok in H6 as [Hd ->].
  rewrite Hvec in H.
  apply bind_Ok in H as ([adv vt] & l7 & H7 & H). rewrite (bind_run _ _ _ _ _ H7).
  apply lift_Ok in H7 as [Hgae ->].
  apply ret_Ok in H as [-> ->].
  exists td1, vt. split; [reflexivity |]. split.
  - apply EstimatorClaims.entries_set_eq.
  - intros key Ha Ht. rewrite !EstimatorClaims.entries_set_ne by congruence.
    reflexivity.
Qed.
End Facades.

End EstimatorMore.

(** * The added estimator facts on the concrete setting *)

Module EstimatorMoreOnExamples.
Import Advantages EstimatorSpec EstimatorFacts EstimatorExample AdvantagesMore
  EstimatorMore.

Local Abbreviation forward :=
  (Advantages.forward shift newton_sqrt td0_return_estimate
     vec_td1_return_estimate td_lambda_return_estimate
     td_lambda_return_estimate).
Local Abbreviation GAE_forward := (Advantages.GAE_forward shift newton_sqrt).
Local Abbreviation GAE_value_estimate :=
  (AdvantagesMore.GAE_value_estimate shift).

Lemma standardization_example :
  let t := [[1; 1 # 2; -1 # 1]; [3 # 1; 0; 2 # 1]] in
  (2 <= length (concat t))%nat
  /\ mean (standardize_reward newton_sqrt t) == 0
  /\ mean (standardize_gae newton_sqrt t) == 0
  /\ Forall2 (Forall2 (fun y x => Qabs y <= (10000 # 1) * Qabs (x - mean t)))
       (standardize_reward newton_sqrt t) t
  /\ Forall2 (Forall2 (fun y x => Qabs y <= (10000 # 1) * Qabs (x - mean t)))
       (standardize_gae newton_sqrt t) t.
Proof.
  assert (H : (2 <= length (concat [[1; 1 # 2; -1 # 1]; [3 # 1; 0; 2 # 1]]%Q))%nat)
    by (cbn; lia).
  split; [exact H |].
  exact (standardization_centres_and_bounds newton_sqrt
           [[1; 1 # 2; -1 # 1]; [3 # 1; 0; 2 # 1]] H).
Defined.

Lemma unusable_networks_example :
  (forall k, forward k (with_network example_estimator (Some plain_callable))
               example_td (Some example_params) None [] = Raise NotFunctional)
  /\ GAE_forward (with_network example_estimator (Some plain_callable))
       example_td (Some example_params) None [] = Raise NotFunctional
  /\ (forall k, forward k (with_network example_estimator (Some stateless_network))
                  example_td None None [] = Raise MissingParams)
  /\ GAE_forward (with_network example_estimator (Some stateless_network))
       example_td None None [] = Raise MissingParams.
Proof.
  assert (Hdims : (1 <= batch_dims example_td)%nat) by (cbn; lia).
  destruct (forward_refuses_unusable_networks shift newton_sqrt
              td0_return_estimate vec_td1_return_estimate
              td_lambda_return_estimate td_lambda_return_estimate
              (with_network example_estimator (Some plain_callable))
              plain_callable example_td (Some example_params) None []
              Hdims eq_refl) as [Hplain _].
  destruct (Hplain eq_refl) as [Hf Hg].
  destruct (forward_refuses_unusable_networks shift newton_sqrt
              td0_return_estimate vec_td1_return_estimate
              td_lambda_return_estimate td_lambda_return_estimate
              (with_network example_estimator (Some stateless_network))
              stateless_network example_td None None []
              Hdims eq_refl) as [_ Hstateless].
  destruct (Hstateless eq_refl eq_refl eq_refl eq_refl) as [Hf' Hg'].
  split; [exact Hf |]. split; [eapply Hg; reflexivity |].
  split; [exact Hf' |]. eapply Hg'; reflexivity.
Defined.

Lemma forward_without_network_example :
  exists td' log',
    forward TD1 (with_network example_estimator None) precomputed_td
      (Some example_params) (Some example_params) [] = Ok (td', log')
    /\ forward TD1 (with_network example_estimator None) precomputed_td
         None None [] = Ok (td', log')
    /\ log' = []
    /\ forward TD0 (with_network example_estimator None) precomputed_td
         (Some example_params) (Some example_params) [] = Raise NoNetwork.
Proof.
  destruct (forward_without_network shift newton_sqrt td0_return_estimate
              vec_td1_return_estimate td_lambda_return_estimate
              td_lambda_return_estimate (with_network example_estimator None)
              precomputed_td (Some example_params) (Some example_params) []
              eq_refl) as (Hnone & Hsame & _ & Hquiet & _).
  destruct (forward TD1 (with_network example_estimator None) precomputed_td
              (Some example_params) (Some example_params) [])
    as [[td' log'] | e] eqn:E.
  - exists td', log'. split; [reflexivity |]. split.
    + rewrite <- (Hsame TD1 ltac:(discriminate)). exact E.
    + split; [exact (proj1 (Hquiet TD1 td' log' ltac:(discriminate) E)) |].
      exact Hnone.
  - vm_compute in E. discriminate E.
Defined.

Lemma gae_value_estimate_example :
  exists td' log' td1 value_target,
    GAE_forward example_estimator example_td None None [] = Ok (td', log')
    /\ GAE_value_estimate example_estimator example_td None None None []
       = Ok ((td1, value_target), log')
    /\ entries td' !! ["value_target"] = Some (TReal value_target)
    /\ (forall key, key <> ["advantage"] -> key <> ["value_target"] ->
          entries td' !! key = entries td1 !! key).
Proof.
  destruct (GAE_forward example_estimator example_td None None [])
    as [[td' log'] | e] eqn:E.
  - destruct (gae_value_estimate_matches_forward shift newton_sqrt
                example_estimator example_td None None [] td' log' eq_refl E)
      as (td1 & vt & H).
    exists td', log', td1, vt. split; [reflexivity |]. exact H.
  - vm_compute in E. discriminate E.
Defined.

End EstimatorMoreOnExamples.

(** * Where the scatter indices of a returning call lie *)

Module ScatterMore.
Import DistributionalDQNLoss ProjectionInputs ProjectionCells Accumulator.
Import ProjectionExamples ProjectionExtras.
Import AccumulatorFacts RowFacts BellmanFacts ProjectFacts.

Lemma flat_index_elem (sel : cell -> Z) (offs : list Z)
    (cells : list (list cell)) n off row z c :
  offs !! n = Some off -> cells !! n = Some row -> row !! z = Some c ->
  In (sel c + off)%Z (flat_index sel offs cells).
Proof.
  intros Hoff Hrow Hc. unfold flat_index. apply in_concat.
  exists (map (fun c => (sel c + off)%Z) row). split.
  - apply list_elem_of_In.
    exact (elem_of_lookup_zip_with_2 _ offs cells off row [] n Hoff Hrow).
  - apply in_map_iff. exists c. split; [reflexivity |].
    apply list_elem_of_In. eapply list_elem_of_lookup_2, Hc.
Qed.

Lemma offset_lookup (N atoms n : nat) :
  (n < N)%nat -> offset N atoms !! n = Some (Z.of_nat (n * atoms)).
Proof.
  intros Hn. unfold offset. change (map ?f ?l) with (f <$> l).
  rewrite list_lookup_fmap, lookup_seq_lt by exact Hn. reflexivity.
Qed.

(** X13.  Whenever the call returns on a valid support, the flattened
    index of [low] of every cell of row [n] lies in the segment of row [n],
    and the index of [up] is the next one: it lies in the segment too, or
    is the first index after it.  In this last case [b] lies between the
    last atom and [leak atoms] past it, the share of [up] is at most
    [leak atoms], and row [n] is not the last row of the batch. *)
Theorem scatter_indices_near_row (inp : projection_input)
    (m : list (list Q)) :
  valid_support (support inp) -> project inp = Ok m ->
  let atoms := length (support inp) in
  forall n row z c,
    projection_cells inp !! n = Some row -> row !! z = Some c ->
    let lo := (cell_low c + Z.of_nat (n * atoms))%Z in
    let up := (cell_up c + Z.of_nat (n * atoms))%Z in
    (Z.of_nat (n * atoms) <= lo <= Z.of_nat ((n + 1) * atoms) - 1)%Z
    /\ up = (lo + 1)%Z
    /\ (up = Z.of_nat ((n + 1) * atoms) ->
        (S n < batch_size inp)%nat
        /\ inject_Z (Z.of_nat atoms - 1) <= cell_b c
        /\ cell_b c <= inject_Z (Z.of_nat atoms - 1) + leak atoms
        /\ weight_up c <= leak atoms).
Proof.
  intros Hv Hm atoms n row z c Hrow Hc lo up.
  destruct (project_rows inp m Hv Hm) as (_ & Hnear & _).
  fold atoms in Hnear.
  assert (Hcell : near_cell atoms c).
  { rewrite Forall_lookup in Hnear. specialize (Hnear _ _ Hrow).
    rewrite Forall_lookup in Hnear. exact (Hnear _ _ Hc). }
  destruct Hcell as ([[Hl0 Hgap] [Hlb Hbu]] & Hl1 & Hb).
  subst lo up. split; [lia |]. split; [lia |].
  intros Hup.
  assert (Elow : cell_low c = (Z.of_nat atoms - 1)%Z) by lia.
  destruct (project_Ok inp m Hm)
    as (Vmin & dz & Tz & m1 & m2 & Hb' & Hcells & Hp & Hfin & H1 & H2 & _).
  cbv zeta in Hcells, Hfin, H1, H2. fold atoms in Hcells, H1, H2.
  destruct (cells_good inp _ _ _ Hb' Hfin) as (Hlen & _ & _).
  fold atoms in Hlen.
  destruct (index_add_segment _ _ _ _ H1) as [Hlen1 _].
  rewrite length_replicate in Hlen1.
  destruct (index_add_Ok_bounds _ _ _ _ H2) as [_ Hbounds].
  rewrite Hlen1 in Hbounds. rewrite Hcells in Hrow.
  assert (Hn : (n < batch_size inp)%nat).
  { rewrite <- Hlen. eapply lookup_lt_Some, Hrow. }
  pose proof (flat_index_elem cell_up _ _ n _ row z c
                (offset_lookup _ atoms n Hn) Hrow Hc) as Hin.
  rewrite List.Forall_forall in Hbounds. apply Hbounds in Hin.
  split; [| split; [| split]].
  - destruct (Nat.lt_ge_cases (S n) (batch_size inp)) as [H | H]; [exact H |].
    exfalso. assert (E : batch_size inp = S n) by lia. rewrite E in Hin.
    replace (S n) with (n + 1)%nat in Hin by lia. lia.
  - rewrite <- Elow. exact Hlb.
  - exact Hb.
  - unfold weight_up. rewrite Elow. lra.
Qed.

Lemma scatter_indices_example :
  exists m,
    project two_rows_input = Ok m
    /\ forall n row z c,
         projection_cells two_rows_input !! n = Some row -> row !! z = Some c ->
         let lo := (cell_low c + Z.of_nat (n * 8))%Z in
         let up := (cell_up c + Z.of_nat (n * 8))%Z in
         (Z.of_nat (n * 8) <= lo <= Z.of_nat ((n + 1) * 8) - 1)%Z
         /\ up = (lo + 1)%Z
         /\ (up = Z.of_nat ((n + 1) * 8) ->
             (S n < 2)%nat
             /\ inject_Z (Z.of_nat 8 - 1) <= cell_b c
             /\ cell_b c <= inject_Z (Z.of_nat 8 - 1) + leak 8
             /\ weight_up c <= leak 8).
Proof.
  destruct (project two_rows_input) as [m |] eqn:E.
  - exists m. split; [reflexivity |].
    exact (scatter_indices_near_row two_rows_input m
             ProjectionClaims.valid_support_0_19 E).
  - vm_compute in E. discriminate E.
Defined.

End ScatterMore.
